(** * folder_creator: the path-to-tree pipeline

    A shallow embedding of [src/path-processor.ts] and [src/tree-builder.ts],
    with the properties the specification states about them, and of
    [src/zip-generator.ts], [src/file-system-api.ts] and the parts of the
    application class that compute what it shows, with properties the code
    itself has.

    Conventions of the embedding.
    - A JavaScript string is the list of its UTF-16 code units ([list N]);
      [str] turns an ASCII literal into such a list.
    - Exceptions and the console are threaded through a small monad [M]:
      a computation either returns a value or throws a [JSError], and in
      both cases hands back the console lines written so far.
    - Objects that the code shares by reference live in a store and are
      named by a reference into it: a [PathEntry] by its index in the
      [entries] array (the only place entries are stored, [pathToEntry]
      holds such indices), a [TreeNode] by the key it is registered under
      in [nodeMap].
    - A function that recurses over the tree is given fuel, and is shown to
      return with the fuel [enoughFuel] gives.
    - Of the archive, the names of the files added to it are kept; of the
      file system, what has been created under which handle, the file
      system itself being a function that says which creation throws; of
      the preview, the items appended to its container. *)

From Stdlib Require Import ZArith NArith List String Ascii DecimalString Lia.
From stdpp Require Import gmap list sorting.

Local Open Scope N_scope.
Local Open Scope list_scope.

(** ** Strings *)

Abbreviation JSString := (list N).

Fixpoint str (s : string) : JSString :=
  match s with
  | EmptyString => []
  | String c s' => N_of_ascii c :: str s'
  end.

Arguments str : simpl never.

Definition SLASH : N := 47.
Definition BACKSLASH : N := 92.
Definition DOT : N := 46.
Definition DASH : N := 45.
Definition NEWLINE : N := 10.
Definition QUOTE : N := 34.
Definition ARROW : N := 8594.

(** [s.split(sep)] for a separator of one code unit. *)
Fixpoint split (sep : N) (s : JSString) : list JSString :=
  match s with
  | [] => [[]]
  | c :: s' =>
      if c =? sep then [] :: split sep s'
      else match split sep s' with
           | seg :: segs => (c :: seg) :: segs
           | [] => [[c]]
           end
  end.

(** [parts.join(sep)]. *)
Fixpoint join (sep : JSString) (parts : list JSString) : JSString :=
  match parts with
  | [] => []
  | [p] => p
  | p :: rest => p ++ sep ++ join sep rest
  end.

(** WhiteSpace and LineTerminator code units of ECMAScript, the ones
    [String.prototype.trim] removes. *)
Definition isWhiteSpace (c : N) : bool :=
  ((9 <=? c) && (c <=? 13)) || (c =? 32) || (c =? 160) || (c =? 5760)
  || ((8192 <=? c) && (c <=? 8202)) || (c =? 8232) || (c =? 8233)
  || (c =? 8239) || (c =? 8287) || (c =? 12288) || (c =? 65279).

Fixpoint trimStart (s : JSString) : JSString :=
  match s with
  | c :: s' => if isWhiteSpace c then trimStart s' else s
  | [] => []
  end.

Definition trimEnd (s : JSString) : JSString := rev (trimStart (rev s)).

Definition trim (s : JSString) : JSString := trimEnd (trimStart s).

(** [s.endsWith(c)] for one code unit. *)
Definition endsWith (s : JSString) (c : N) : bool :=
  match rev s with
  | d :: _ => d =? c
  | [] => false
  end.

(** [a.slice(0, -1)], on strings and arrays alike. *)
Definition slice_0_m1 {A} (a : list A) : list A := removelast a.

(** Truthiness of a string: every string but the empty one. *)
Definition truthy (s : JSString) : bool :=
  match s with [] => false | _ => true end.

(** [String(n)] for a non-negative integer. *)
Definition numberToString (n : nat) : JSString :=
  str (NilZero.string_of_uint (Nat.to_uint n)).

(** ** Types ([src/types.ts]) *)

Inductive IssueType := duplicate | conflict | invalid | reserved | depth | sanitized.

Record PathIssue := mkIssue {
  issue_type : IssueType;
  issue_path : JSString;
  issue_message : JSString;
  issue_line : option nat
}.

Record PathEntry := mkEntry {
  entry_path : JSString;
  entry_isDirectory : bool;
  entry_originalLine : nat;
  entry_issues : list PathIssue
}.

Record ProcessedPaths := mkProcessed {
  entries : list PathEntry;
  issues : list PathIssue;
  folderCount : nat;
  fileCount : nat
}.

#[global] Instance IssueType_eq_dec : EqDecision IssueType.
Proof. solve_decision. Defined.
#[global] Instance PathIssue_eq_dec : EqDecision PathIssue.
Proof. solve_decision. Defined.
#[global] Instance PathEntry_eq_dec : EqDecision PathEntry.
Proof. solve_decision. Defined.
#[global] Instance PathEntry_inhabited : Inhabited PathEntry :=
  populate (mkEntry [] false 0 []).

(** ** Exceptions and the console *)

Inductive JSError :=
  | Error (message : JSString)
  | ZodError (errors : list JSString).

(** [error instanceof Error ? error.message : fallback]; a [ZodError] is an
    [Error] too, its message is the serialised list of its issues, which
    the code never looks at. *)
Definition error_message (e : JSError) : JSString :=
  match e with
  | Error m => m
  | ZodError errs => join (str ", ") errs
  end.

Inductive Outcome (A : Type) :=
  | Returned (a : A) (console : list JSString)
  | Thrown (e : JSError) (console : list JSString).
Arguments Returned {A} a console.
Arguments Thrown {A} e console.

Definition M (A : Type) : Type := list JSString → Outcome A.

Definition ret {A} (a : A) : M A := λ c, Returned a c.

Definition bind {A B} (m : M A) (k : A → M B) : M B :=
  λ c, match m c with
       | Returned a c' => k a c'
       | Thrown e c' => Thrown e c'
       end.

Definition throw {A} (e : JSError) : M A := λ c, Thrown e c.

(** [try { body } catch (error) { handler }]. *)
Definition tryCatch {A} (body : M A) (handler : JSError → M A) : M A :=
  λ c, match body c with
       | Returned a c' => Returned a c'
       | Thrown e c' => handler e c'
       end.

Definition console_warn (msg : JSString) : M unit :=
  λ c, Returned tt (c ++ [msg]).

Notation "'do' x <- m ; k" := (bind m (λ x, k))
  (at level 10, x name, m at level 100, k at level 200).
Notation "'do_' m ; k" := (bind m (λ _, k))
  (at level 10, m at level 100, k at level 200).

(** [array.forEach((x, index) => ...)], the callback updating the state
    [S] of the variables it closes over. *)
Fixpoint forEach_from {A S} (f : S → A → nat → M S) (l : list A) (index : nat)
    (s : S) : M S :=
  match l with
  | [] => ret s
  | x :: l' => do s' <- f s x index; forEach_from f l' (index + 1)%nat s'
  end.

Definition forEach {A S} (f : S → A → nat → M S) (l : list A) (s : S) : M S :=
  forEach_from f l 0%nat s.

(** ** [src/path-processor.ts] *)

Definition MAX_DEPTH : N := 30.
Definition MAX_LINES : N := 5000.

(** [INVALID_CHARS]: the class of the code units 60 [<], 62 [>], 58 [:],
    34 (the double quote), 124 [|], 63 [?], 42 [*] and 0 to 31, as a test
    on one code unit. *)
Definition INVALID_CHARS (c : N) : bool :=
  (c =? 60) || (c =? 62) || (c =? 58) || (c =? QUOTE) || (c =? 124)
  || (c =? 63) || (c =? 42) || (c <=? 31).

(** Case folding of a regular expression with flag [i] and without flag
    [u]: a code unit outside ASCII never folds to an ASCII one, so on the
    ASCII patterns of this file only [a]-[z] change. *)
Definition canonicalize (c : N) : N :=
  if (97 <=? c) && (c <=? 122) then c - 32 else c.

(** Match [pat] case-insensitively at the start of [s]; the rest of [s]. *)
Fixpoint matchPrefix (pat s : JSString) : option JSString :=
  match pat, s with
  | [], _ => Some s
  | p :: pat', c :: s' =>
      if canonicalize c =? canonicalize p then matchPrefix pat' s' else None
  | _ :: _, [] => None
  end.

Definition digits_1_9 : list JSString :=
  map (λ d, [d]) [49; 50; 51; 52; 53; 54; 55; 56; 57].

(** The alternatives of the first group of [RESERVED_NAMES]. *)
Definition reservedAlternatives : list JSString :=
  [str "CON"; str "PRN"; str "AUX"; str "NUL"]
  ++ map (λ d, str "COM" ++ d) digits_1_9
  ++ map (λ d, str "LPT" ++ d) digits_1_9.

(** [RESERVED_NAMES = /^(CON|PRN|AUX|NUL|COM[1-9]|LPT[1-9])(\.|$)/i]. *)
Definition RESERVED_NAMES (name : JSString) : bool :=
  existsb (λ alt,
    match matchPrefix alt name with
    | Some [] => true
    | Some (c :: _) => c =? DOT
    | None => false
    end) reservedAlternatives.

(** [InputSchema.parse({ input })]: zod's [z.string().max(n, message)]
    rejects a string of more than [n] code units with that message. *)
Definition InputSchema_parse (input : JSString) : M unit :=
  if MAX_LINES * 200 <? N.of_nat (length input)
  then throw (ZodError [str "Input too large. Maximum " ++ numberToString (N.to_nat MAX_LINES)
                          ++ str " lines recommended."])
  else ret tt.

Record Validation := mkValidation {
  success : bool;
  error : option JSString
}.

Definition validateInput (input : JSString) : M Validation :=
  tryCatch
    (do_ InputSchema_parse input; ret (mkValidation true None))
    (λ error,
       match error with
       | ZodError errors =>
           let m := match errors with
                    | m :: _ => if truthy m then m else str "Invalid input"
                    | [] => str "Invalid input"
                    end in
           ret (mkValidation false (Some m))
       | Error _ => ret (mkValidation false (Some (str "Validation error")))
       end).

(** [path.replace(/\\/g, '/')]. *)
Definition backslashesToSlashes (path : JSString) : JSString :=
  map (λ c, if c =? BACKSLASH then SLASH else c) path.

(** [path.replace(/\/+/g, '/')]; [inRun] tells that the previous code unit
    was a slash of the run being replaced. *)
Fixpoint collapseSlashes (inRun : bool) (path : JSString) : JSString :=
  match path with
  | [] => []
  | c :: rest =>
      if c =? SLASH
      then if inRun then collapseSlashes true rest
           else SLASH :: collapseSlashes true rest
      else c :: collapseSlashes false rest
  end.

Fixpoint dropSlashes (path : JSString) : JSString :=
  match path with
  | c :: rest => if c =? SLASH then dropSlashes rest else path
  | [] => []
  end.

(** [path.replace(/^\/+|\/+$/g, '')]. *)
Definition stripSlashes (path : JSString) : JSString :=
  rev (dropSlashes (rev (dropSlashes path))).

(** The [parts] of [normalizePath]: the segments left once slashes are
    handled and [.] segments are filtered out. *)
Definition normalizeParts (path : JSString) : list JSString :=
  let path := backslashesToSlashes path in
  let path := collapseSlashes false path in
  let path := stripSlashes path in
  filter (λ p, p ≠ str ".") (split SLASH path).

Definition normalizePath (path : JSString) : M JSString :=
  let parts := normalizeParts path in
  if existsb (λ p, bool_decide (p = str "..")) parts
  then throw (Error (str "Parent directory references (..) are not allowed"))
  else ret (join [SLASH] parts).

(** [name.replace(INVALID_CHARS, '-')]: the pattern has no [g] flag, so
    the first match only is replaced. *)
Fixpoint sanitizeFileName (name : JSString) : JSString :=
  match name with
  | [] => []
  | c :: rest =>
      if INVALID_CHARS c then DASH :: rest else c :: sanitizeFileName rest
  end.

Record FileNameValidation := mkFNV {
  valid : bool;
  fnv_sanitized : option JSString;
  issue : option JSString
}.

Definition validateFileName (name : JSString) : FileNameValidation :=
  if negb (truthy name) || bool_decide (trim name = [])
  then mkFNV false None (Some (str "Empty name"))
  else if existsb INVALID_CHARS name
  then mkFNV false (Some (sanitizeFileName name)) (Some (str "Contains invalid characters"))
  else if RESERVED_NAMES name
  then mkFNV false None (Some (str "Reserved name"))
  else if 255 <? N.of_nat (length name)
  then mkFNV false None (Some (str "Name too long"))
  else mkFNV true None None.

(** The variables the [forEach] callback of [processPaths] closes over.
    [pathToEntry] holds references to entry objects: indices into
    [st_entries]. *)
Record PState := mkState {
  st_issues : list PathIssue;
  st_entries : list PathEntry;
  seenPaths : gmap JSString (list nat);
  pathToEntry : gmap JSString nat
}.

(** The body of [segments.forEach] (lines 129-148): the issue one segment
    adds to [entryIssues], if any. *)
Definition segmentIssue (originalLine : nat) (segment : JSString) : list PathIssue :=
  let validation := validateFileName segment in
  if negb (valid validation) then
    match fnv_sanitized validation with
    | Some (c :: s) =>
        [mkIssue sanitized segment
           (str "Sanitized: " ++ [QUOTE] ++ segment ++ [QUOTE] ++ str " " ++ [ARROW]
              ++ str " " ++ [QUOTE] ++ (c :: s) ++ [QUOTE])
           (Some originalLine)]
    | _ =>
        [mkIssue
           (if bool_decide (issue validation = Some (str "Reserved name"))
            then reserved else invalid)
           segment
           (match issue validation with
            | Some m => if truthy m then m else str "Invalid name"
            | None => str "Invalid name"
            end)
           (Some originalLine)]
    end
  else [].

Definition kindName (isDirectory : bool) : JSString :=
  if isDirectory then str "directory" else str "file".

(** Lines 114-197 of the callback of [lines.forEach]: what a line does once
    its path is normalised and found non-empty. *)
Definition recordPath (st : PState) (path : JSString) (isDirectory : bool)
    (originalLine : nat) : PState :=
  (* Check depth *)
  let pathDepth := N.of_nat (length (split SLASH path)) in
  let issues :=
    if MAX_DEPTH <? pathDepth
    then st_issues st
           ++ [mkIssue depth path
                 (str "Path depth exceeds " ++ numberToString (N.to_nat MAX_DEPTH)
                    ++ str " levels")
                 (Some originalLine)]
    else st_issues st in
  (* Validate each segment *)
  let segments := split SLASH path in
  let entryIssues :=
    foldl (λ acc segment, acc ++ segmentIssue originalLine segment) [] segments in
  (* Track duplicates *)
  let '(seenPaths, entryIssues) :=
    match seenPaths st !! path with
    | Some existingLines =>
        let existingLines := existingLines ++ [originalLine] in
        (<[path := existingLines]> (seenPaths st),
         entryIssues
           ++ [mkIssue duplicate path
                 (str "Duplicate path (also on lines: "
                    ++ join (str ", ") (map numberToString (slice_0_m1 existingLines))
                    ++ str ")")
                 (Some originalLine)])
    | None => (<[path := [originalLine]]> (seenPaths st), entryIssues)
    end in
  (* Check for conflicts (file vs directory) *)
  let existingEntry := pathToEntry st !! path in
  let '(entries, entryIssues) :=
    match existingEntry with
    | Some ref =>
        let existing := st_entries st !!! ref in
        if negb (eqb (entry_isDirectory existing) isDirectory) then
          let entryIssues :=
            entryIssues
              ++ [mkIssue conflict path
                    (str "Conflict: defined as both "
                       ++ kindName (entry_isDirectory existing)
                       ++ str " and " ++ kindName isDirectory)
                    (Some originalLine)] in
          (* Prefer directory on conflict *)
          if isDirectory && negb (entry_isDirectory existing)
          then (<[ref := mkEntry (entry_path existing) true (entry_originalLine existing)
                           (entry_issues existing
                              ++ [mkIssue conflict path (str "Resolved: treating as directory")
                                    (Some (entry_originalLine existing))])]>
                  (st_entries st),
                entryIssues)
          else (st_entries st, entryIssues)
        else (st_entries st, entryIssues)
    | None => (st_entries st, entryIssues)
    end in
  let entry := mkEntry path isDirectory originalLine entryIssues in
  let '(pathToEntry, entries) :=
    if match existingEntry with
       | None => true
       | Some ref => isDirectory && negb (entry_isDirectory (entries !!! ref))
       end
    then (<[path := length entries]> (pathToEntry st), entries ++ [entry])
    else (pathToEntry st, entries) in
  mkState (issues ++ entryIssues) entries seenPaths pathToEntry.

(** The callback of [lines.forEach] (lines 90-198). *)
Definition processLine (st : PState) (line : JSString) (index : nat) : M PState :=
  let trimmed := trim line in
  if negb (truthy trimmed) then ret st else
  let originalLine := (index + 1)%nat in
  let isDirectory := endsWith trimmed SLASH in
  let path := if isDirectory then slice_0_m1 trimmed else trimmed in
  do attempt <-
    tryCatch
      (do path <- normalizePath path; ret (inr path))
      (λ error,
         ret (inl (mkState
                     (st_issues st
                        ++ [mkIssue invalid trimmed (error_message error) (Some originalLine)])
                     (st_entries st) (seenPaths st) (pathToEntry st))));
  match attempt with
  | inl st' => ret st'
  | inr path =>
      if negb (truthy path) then ret st
      else ret (recordPath st path isDirectory originalLine)
  end.

Definition processPaths (input : JSString) : M ProcessedPaths :=
  do validation <- validateInput input;
  do_ (if negb (success validation)
      && match error validation with Some e => truthy e | None => false end
   then console_warn (str "Input validation warning: " ++ default [] (error validation))
   else ret tt);
  let lines := split NEWLINE input in
  let issues :=
    if MAX_LINES <? N.of_nat (length lines)
    then [mkIssue depth []
            (str "Input exceeds " ++ numberToString (N.to_nat MAX_LINES)
               ++ str " lines. Processing anyway, but performance may be affected.")
            None]
    else [] in
  do st <- forEach processLine lines (mkState issues [] ∅ ∅);
  (* Count folders and files *)
  let folderCount := length (filter (λ e, entry_isDirectory e = true) (st_entries st)) in
  let fileCount := length (filter (λ e, entry_isDirectory e = false) (st_entries st)) in
  ret (mkProcessed (st_entries st) (st_issues st) folderCount fileCount).

(** ** [src/tree-builder.ts] *)

(** A node object. [children] holds references to node objects: the keys
    under which [buildTree] registers them in [nodeMap] at creation.
    [node_issues] is the content of the node's [issues] array; a file node
    shares that array with the entry it was made for, and the entries are
    taken to come with arrays of their own, as those of [processPaths]
    do. *)
Record TreeNode := mkNode {
  node_name : JSString;
  node_path : JSString;
  node_isDirectory : bool;
  children : list JSString;
  node_issues : list PathIssue
}.

#[global] Instance TreeNode_inhabited : Inhabited TreeNode :=
  populate (mkNode [] [] false [] []).

(** [Array.prototype.sort(compare)]. For a consistent comparator the
    language fixes the result, the stable sorted arrangement; insertion
    from the right computes it. *)
Section Sort.
Context {A : Type} (compare : A → A → Z).

Fixpoint insertSorted (x : A) (l : list A) : list A :=
  match l with
  | [] => [x]
  | y :: l' => if (compare x y <=? 0)%Z then x :: l else y :: insertSorted x l'
  end.

Fixpoint sortArray (l : list A) : list A :=
  match l with
  | [] => []
  | x :: l' => insertSorted x (sortArray l')
  end.
End Sort.

Section TreeBuilder.
(** [String.prototype.localeCompare], which depends on the host's
    locale: negative, zero or positive. *)
Variable localeCompare : JSString → JSString → Z.

(** The comparator of line 16. *)
Definition compareEntries (a b : PathEntry) : Z :=
  if negb (eqb (entry_isDirectory a) (entry_isDirectory b))
  then (if entry_isDirectory a then -1 else 1)%Z
  else localeCompare (entry_path a) (entry_path b).

(** The comparator of line 72. *)
Definition compareNodes (a b : TreeNode) : Z :=
  if negb (eqb (node_isDirectory a) (node_isDirectory b))
  then (if node_isDirectory a then -1 else 1)%Z
  else localeCompare (node_name a) (node_name b).

(** [currentPath ? `${currentPath}/${part}` : part]. *)
Definition segmentPathOf (currentPath part : JSString) : JSString :=
  if truthy currentPath then currentPath ++ [SLASH] ++ part else part.

(** [parent.children.push(node)], through the reference [parent]. *)
Definition pushChild (parent node : JSString) (nodeMap : gmap JSString TreeNode)
    : gmap JSString TreeNode :=
  alter (λ p, mkNode (node_name p) (node_path p) (node_isDirectory p)
                (children p ++ [node]) (node_issues p)) parent nodeMap.

(** [node.issues.push(...issues)], through the reference [node]. *)
Definition pushIssues (node : JSString) (issues : list PathIssue)
    (nodeMap : gmap JSString TreeNode) : gmap JSString TreeNode :=
  alter (λ n, mkNode (node_name n) (node_path n) (node_isDirectory n)
                (children n) (node_issues n ++ issues)) node nodeMap.

(** The inner [for] loop (lines 28-67) from index [i] on, [parts] being
    [parts[i..]]; [isLast] holds when nothing follows [part]. *)
Fixpoint walk (entry : PathEntry) (parts : list JSString) (currentPath parent : JSString)
    (nodeMap : gmap JSString TreeNode) : gmap JSString TreeNode :=
  match parts with
  | [] => nodeMap
  | part :: rest =>
      let isLast := match rest with [] => true | _ => false end in
      let segmentPath := segmentPathOf currentPath part in
      match nodeMap !! segmentPath with
      | None =>
          if negb isLast || entry_isDirectory entry then
            (* Create intermediate directory if needed *)
            let node := mkNode part segmentPath true [] [] in
            let nodeMap := <[segmentPath := node]> nodeMap in
            let nodeMap := pushChild parent segmentPath nodeMap in
            walk entry rest segmentPath segmentPath nodeMap
          else
            (* This is a file *)
            let node := mkNode part segmentPath false [] (entry_issues entry) in
            let nodeMap := <[segmentPath := node]> nodeMap in
            pushChild parent segmentPath nodeMap
      | Some _ =>
          let nodeMap :=
            if isLast && negb (entry_isDirectory entry)
            then pushIssues segmentPath (entry_issues entry) nodeMap
            else nodeMap in
          walk entry rest segmentPath segmentPath nodeMap
      end
  end.

(** The body of the outer [for] loop (lines 24-67). *)
Definition insertEntry (nodeMap : gmap JSString TreeNode) (entry : PathEntry)
    : gmap JSString TreeNode :=
  let parts := filter (λ p, truthy p = true) (split SLASH (entry_path entry)) in
  walk entry parts [] [] nodeMap.

Definition root : TreeNode := mkNode [] [] true [] [].

(** Lines 4-68: the nodes once every entry is inserted. *)
Definition buildNodes (entries : list PathEntry) : gmap JSString TreeNode :=
  let nodeMap := <[[] := root]> ∅ in
  let sorted := sortArray compareEntries entries in
  foldl insertEntry nodeMap sorted.

(** [sortTree] (lines 71-79), through the reference [node]. The recursion
    follows the object graph, so it is given [fuel]: one unit per level. *)
Fixpoint sortTree (fuel : nat) (node : JSString) (nodes : gmap JSString TreeNode)
    : option (gmap JSString TreeNode) :=
  match fuel with
  | O => None
  | S fuel =>
      match nodes !! node with
      | None => None
      | Some n =>
          let sorted :=
            sortArray (λ a b, compareNodes (nodes !!! a) (nodes !!! b)) (children n) in
          let nodes :=
            <[node := mkNode (node_name n) (node_path n) (node_isDirectory n) sorted
                        (node_issues n)]> nodes in
          foldl (λ acc child, acc ≫= sortTree fuel child) (Some nodes) sorted
      end
  end.

(** Enough fuel for [sortTree] on [nodes]: a node at depth [d] has a
    path of at least [d] code units. *)
Definition enoughFuel (nodes : gmap JSString TreeNode) : nat :=
  S (foldr Nat.max 0%nat (map (λ kv, length kv.1) (map_to_list nodes))).

(** [buildTree]: the node objects of the tree returned, the root being
    the one at reference [[]]. *)
Definition buildTree (entries : list PathEntry) : option (gmap JSString TreeNode) :=
  let nodes := buildNodes entries in
  sortTree (enoughFuel nodes) [] nodes.
End TreeBuilder.

(** Comparison by code units, a stand-in for [localeCompare] where an
    example needs one. *)
Fixpoint codeUnitCompare (a b : JSString) : Z :=
  match a, b with
  | [], [] => 0%Z
  | [], _ :: _ => (-1)%Z
  | _ :: _, [] => 1%Z
  | x :: a', y :: b' =>
      if x <? y then (-1)%Z else if y <? x then 1%Z else codeUnitCompare a' b'
  end.

(** Running a computation from an empty console. *)
Definition run {A} (m : M A) : Outcome A := m [].

Definition six_lines : JSString :=
  join [NEWLINE]
    [str "src/components/"; str "src/components/Button.tsx"; str "src/components/Button.tsx";
     str "src/utils/helpers.ts"; str "src/utils/invalid<>name.ts"; str "src/README.md"].


(** ** [src/zip-generator.ts] *)

(** [addNode] of [generateZip] (lines 7-23), through the reference
    [node]; [zip] is the list of the names [zip.file] has been called
    with. The recursion follows the object graph, so it is given [fuel]. *)
Fixpoint addNode (fuel : nat) (nodes : gmap JSString TreeNode) (node zipPath : JSString)
    (zip : list JSString) : option (list JSString) :=
  match fuel with
  | O => None
  | S fuel =>
      match nodes !! node with
      | None => None
      | Some n =>
          if negb (truthy (node_path n)) then
            (* Root - process children *)
            foldl (λ acc child, acc ≫= addNode fuel nodes child []) (Some zip) (children n)
          else
            let currentPath :=
              if truthy zipPath then zipPath ++ [SLASH] ++ node_name n else node_name n in
            if node_isDirectory n then
              foldl (λ acc child, acc ≫= addNode fuel nodes child currentPath) (Some zip)
                (children n)
            else
              (* Add empty file *)
              Some (zip ++ [currentPath])
      end
  end.

(** [generateZip], up to the call of [zip.generateAsync]: the names of the
    files added to the archive, in order. The tree is the one whose root
    is at the empty reference. *)
Definition generateZip (fuel : nat) (tree : gmap JSString TreeNode) : option (list JSString) :=
  addNode fuel tree [] [] [].

(** ** [src/file-system-api.ts] *)

(** [countNodes] of [writeTreeToDirectory] (lines 42-45), through the
    reference [node]; [total] is the counter it increments. *)
Fixpoint countNodes (fuel : nat) (nodes : gmap JSString TreeNode) (node : JSString)
    (total : nat) : option nat :=
  match fuel with
  | O => None
  | S fuel =>
      match nodes !! node with
      | None => None
      | Some n =>
          foldl (λ acc child, acc ≫= countNodes fuel nodes child) (Some (S total)) (children n)
      end
  end.

(** A directory handle, as the names of the directories from the handle
    the user selected down to it. *)
Abbreviation Handle := (list JSString).

(** What [writeTreeToDirectory] has done so far: the counter [current],
    the calls of [onProgress], and the directories and files created, each
    with its kind and the handle it has got. *)
Record WriteState := mkWrite {
  ws_current : nat;
  ws_progress : list (nat * nat);
  ws_created : list (bool * Handle)
}.

(** The file system, as far as the writer sees it: given what has been
    created, whether creating an entry of a name and a kind under a handle
    succeeds ([None]) or throws; what is thrown is an [Error] with a
    message, or another value ([None]). For a file, the four calls of
    lines 69-72 are one creation. *)
Definition FileSystem : Type :=
  list (bool * Handle) → Handle → JSString → bool → option (option JSString).

(** The message of the error of line 75. *)
Definition failureMessage (n : TreeNode) (error : option JSString) : JSString :=
  str "Failed to create " ++ (if node_isDirectory n then str "directory" else str "file")
  ++ str " " ++ [QUOTE] ++ node_name n ++ [QUOTE] ++ str ": "
  ++ match error with Some message => message | None => str "Unknown error" end.

(** [for (const child of children) await f(child)]: the first child that
    throws ends the loop. *)
Fixpoint forOf {St Err : Type} (f : JSString → St → option (St * option Err))
    (children : list JSString) (st : St) : option (St * option Err) :=
  match children with
  | [] => Some (st, None)
  | child :: rest =>
      match f child st with
      | None => None
      | Some (st', Some e) => Some (st', Some e)
      | Some (st', None) => forOf f rest st'
      end
  end.

Section Writer.
Variable nodes : gmap JSString TreeNode.
Variable fs : FileSystem.
(** Whether [onProgress] is given, and the [total] of [countNodes]. *)
Variable reporting : bool.
Variable total : nat.

(** Lines 57-60. *)
Definition reportProgress (st : WriteState) : WriteState :=
  let current := S (ws_current st) in
  mkWrite current
    (if reporting then ws_progress st ++ [(current, total)] else ws_progress st)
    (ws_created st).

(** [writeNode] (lines 48-77), through the reference [node]. The result
    is the state and what is thrown, if anything. *)
Fixpoint writeNode (fuel : nat) (node : JSString) (parentHandle : Handle) (st : WriteState)
    : option (WriteState * option (option JSString)) :=
  match fuel with
  | O => None
  | S fuel =>
      match nodes !! node with
      | None => None
      | Some n =>
          if negb (truthy (node_path n)) then
            (* Root - process children *)
            forOf (λ child, writeNode fuel child parentHandle) (children n) st
          else
            let st := reportProgress st in
            match fs (ws_created st) parentHandle (node_name n) (node_isDirectory n) with
            | Some error => Some (st, Some (Some (failureMessage n error)))
            | None =>
                let handle := parentHandle ++ [node_name n] in
                let st := mkWrite (ws_current st) (ws_progress st)
                            (ws_created st ++ [(node_isDirectory n, handle)]) in
                if node_isDirectory n then
                  match forOf (λ child, writeNode fuel child handle) (children n) st with
                  | None => None
                  | Some (st', Some error) => Some (st', Some (Some (failureMessage n error)))
                  | Some (st', None) => Some (st', None)
                  end
                else Some (st, None)
            end
      end
  end.
End Writer.

(** [writeTreeToDirectory]: the tree is the one whose root is at the
    empty reference, the handle given the one the user selected. *)
Definition writeTreeToDirectory (fuel : nat) (fs : FileSystem) (tree : gmap JSString TreeNode)
    (reporting : bool) : option (WriteState * option (option JSString)) :=
  total ← countNodes fuel tree [] 0;
  writeNode tree fs reporting total fuel [] [] (mkWrite 0 [] []).

(** ** The application class *)

(** What [handlePreview] (lines 114-134) ends in: one of its two alerts,
    or the preview of what [processPaths] and [buildTree] return. *)
Inductive PreviewOutcome :=
  | EnterPathsAlert
  | ErrorAlert (message : JSString)
  | Rendered (processed : ProcessedPaths) (tree : gmap JSString TreeNode).

(** [handlePreview] on the value of the text area; [None] when
    [buildTree] runs out of fuel. *)
Definition handlePreview (localeCompare : JSString → JSString → Z) (value : JSString)
    : option PreviewOutcome :=
  let input := trim value in
  if negb (truthy input) then Some EnterPathsAlert
  else
    match run (processPaths input) with
    | Returned processed _ =>
        Rendered processed <$> buildTree localeCompare (entries processed)
    | Thrown error _ =>
        Some (ErrorAlert (str "Error processing paths: " ++ error_message error))
    end.

(** [e.path + (e.isDirectory ? '/' : '')] (line 265). *)
Definition cleanedLine (e : PathEntry) : JSString :=
  entry_path e ++ (if entry_isDirectory e then [SLASH] else []).

(** The text [handleCopyCleaned] (lines 258-276) writes to the clipboard. *)
Definition cleanedList (processed : ProcessedPaths) : JSString :=
  join [NEWLINE] (map cleanedLine (entries processed)).

(** [value.split('\n').filter(l => l.trim()).length] (line 110). *)
Definition lineCount (value : JSString) : nat :=
  length (filter (λ l, truthy (trim l) = true) (split NEWLINE value)).

(** [`${n} ${word}${n !== 1 ? 's' : ''}`]. *)
Definition plural (n : nat) (word : JSString) : JSString :=
  numberToString n ++ str " " ++ word ++ (if decide (n = 1%nat) then [] else str "s").

(** [processed.issues.filter(i => i.type === t).length]. *)
Definition countIssues (types : list IssueType) (issues : list PathIssue) : nat :=
  length (filter (λ i, issue_type i ∈ types) issues).

(** The summary [renderPreview] shows (lines 137-154). *)
Definition summaryText (processed : ProcessedPaths) : JSString :=
  let issueCount := length (issues processed) in
  let duplicateCount := countIssues [duplicate] (issues processed) in
  let invalidCount := countIssues [invalid; reserved] (issues processed) in
  let conflictCount := countIssues [conflict] (issues processed) in
  let sanitizedCount := countIssues [sanitized] (issues processed) in
  let summary :=
    plural (folderCount processed) (str "folder") ++ str ", "
    ++ plural (fileCount processed) (str "file") in
  if decide (0 < issueCount)%nat then
    let parts :=
      (if decide (0 < duplicateCount)%nat then [plural duplicateCount (str "duplicate")] else [])
      ++ (if decide (0 < conflictCount)%nat then [plural conflictCount (str "conflict")] else [])
      ++ (if decide (0 < invalidCount)%nat
          then [numberToString invalidCount ++ str " invalid"] else [])
      ++ (if decide (0 < sanitizedCount)%nat
          then [numberToString sanitizedCount ++ str " sanitized"] else []) in
    summary ++ str " (" ++ join (str ", ") parts ++ str ")"
  else summary.

(** An item of the preview, as [renderTreeNode] builds it (lines
    167-198): its depth, which gives the padding and the level; the kind,
    which gives the role and the icon; the name; one badge for each issue
    of the node, with its type and message. *)
Record TreeItem := mkItem {
  item_depth : nat;
  item_isDirectory : bool;
  item_name : JSString;
  item_badges : list (IssueType * JSString)
}.

Definition itemOf (depth : nat) (n : TreeNode) : TreeItem :=
  mkItem depth (node_isDirectory n) (node_name n)
    (map (λ i, (issue_type i, issue_message i)) (node_issues n)).

(** [renderTreeNode] (lines 160-206), through the reference [node];
    [container] is the list of the items appended to the container. *)
Fixpoint renderTreeNode (fuel : nat) (nodes : gmap JSString TreeNode) (node : JSString)
    (depth : nat) (container : list TreeItem) : option (list TreeItem) :=
  match fuel with
  | O => None
  | S fuel =>
      match nodes !! node with
      | None => None
      | Some n =>
          if negb (truthy (node_path n)) then
            (* Root - render children only *)
            foldl (λ acc child, acc ≫= renderTreeNode fuel nodes child 0) (Some container)
              (children n)
          else
            let container := container ++ [itemOf depth n] in
            (* Render children *)
            if node_isDirectory n && (0 <? length (children n))%nat then
              foldl (λ acc child, acc ≫= renderTreeNode fuel nodes child (depth + 1))
                (Some container) (children n)
            else Some container
      end
  end.

(** The tree as [renderPreview] shows it (lines 156-157). *)
Definition renderTree (fuel : nat) (tree : gmap JSString TreeNode) : option (list TreeItem) :=
  renderTreeNode fuel tree [] 0 [].


(** ** Vocabulary of the statements *)

(** What a line declares, if anything: its canonical path and whether it
    names a directory. Blank lines, lines with a [..] segment and lines
    whose path normalises to the empty string declare nothing. *)
Definition declares (line : JSString) : option (JSString * bool) :=
  let trimmed := trim line in
  let isDirectory := endsWith trimmed SLASH in
  let parts := normalizeParts (if isDirectory then slice_0_m1 trimmed else trimmed) in
  if truthy trimmed && negb (existsb (λ p, bool_decide (p = str "..")) parts)
     && truthy (join [SLASH] parts)
  then Some (join [SLASH] parts, isDirectory)
  else None.

(** The issue attached to an entry when a later line turns it from a file
    into a directory. *)
Definition resolvedIssue (path : JSString) (line : nat) : PathIssue :=
  mkIssue conflict path (str "Resolved: treating as directory") (Some line).

Definition dotdotIssue (trimmed : JSString) (line : nat) : PathIssue :=
  mkIssue invalid trimmed (str "Parent directory references (..) are not allowed") (Some line).

(** The state in which [processPaths] enters its loop. *)
Definition initialState (lines : list JSString) : PState :=
  mkState
    (if MAX_LINES <? N.of_nat (length lines)
     then [mkIssue depth []
             (str "Input exceeds " ++ numberToString (N.to_nat MAX_LINES)
                ++ str " lines. Processing anyway, but performance may be affected.")
             None]
     else [])
    [] ∅ ∅.

Definition depthIssue (path : JSString) (line : nat) : PathIssue :=
  mkIssue depth path (str "Path depth exceeds 30 levels") (Some line).

(** What a path of more than [MAX_DEPTH] segments adds to the top-level
    issues. *)
Definition depthPart (path : JSString) (line : nat) : list PathIssue :=
  if MAX_DEPTH <? N.of_nat (length (split SLASH path)) then [depthIssue path line] else [].

(** The entry as it is after a directory declaration of its path. *)
Definition upgraded (e : PathEntry) (path : JSString) : PathEntry :=
  mkEntry (entry_path e) true (entry_originalLine e)
    (entry_issues e ++ [resolvedIssue path (entry_originalLine e)]).

(** What the issues of the entry object built for a line are made of: the
    issues of the segments of its path in order, then duplicate and
    conflict issues about the path itself. *)
Definition ownIssuesSpec (p : JSString) (L : nat) (own : list PathIssue) : Prop :=
  ∃ dupconf,
    own = concat (map (segmentIssue L) (split SLASH p)) ++ dupconf
    ∧ Forall (λ x, (issue_type x = duplicate ∨ issue_type x = conflict)
                   ∧ issue_path x = p ∧ issue_line x = Some L
                   ∧ issue_message x ≠ str "Resolved: treating as directory") dupconf.

(** The references held in [pathToEntry] are those of the entries: the
    entry of a path is in [entries] at the index recorded for the path,
    and every entry is recorded under its own path. *)
Definition refsValid (st : PState) : Prop :=
  (∀ q r, pathToEntry st !! q = Some r →
          ∃ e, st_entries st !! r = Some e ∧ entry_path e = q)
  ∧ (∀ r e, st_entries st !! r = Some e → pathToEntry st !! entry_path e = Some r).

(** Every issue of an entry is in the top-level list, but for the one the
    entry gets when it is turned into a directory. *)
Definition issuesCovered (st : PState) : Prop :=
  ∀ e x, e ∈ st_entries st → x ∈ entry_issues e →
         x ∈ st_issues st ∨ x = resolvedIssue (entry_path e) (entry_originalLine e).

(** No issue of the top-level list is the one of a resolution. *)
Definition noResolved (l : list PathIssue) : Prop :=
  ∀ x, x ∈ l → issue_message x ≠ str "Resolved: treating as directory".

(** Where the loop stands, [next] being the index of the line it is about
    to read, when line [i] is the first to declare [p], as a file, and
    line [j] declares it a directory later on. *)
Definition resolutionPhase (p : JSString) (i j next : nat) (st : PState) : Prop :=
  ((next ≤ i)%nat → pathToEntry st !! p = None)
  ∧ ((i < next)%nat →
     ∃ r e, pathToEntry st !! p = Some r ∧ st_entries st !! r = Some e
            ∧ entry_originalLine e = (i + 1)%nat
            ∧ (entry_isDirectory e = true → resolvedIssue p (i + 1) ∈ entry_issues e)
            ∧ ((j < next)%nat → entry_isDirectory e = true)).

Definition file_then_directory : JSString :=
  join [NEWLINE] [str "src/components"; str "src/components/"].

Definition thirty_one_segments : JSString :=
  join [SLASH] (replicate 31 (str "a")).

(** *** The tree *)

(** The shape of the tree held in a store of nodes: the root is at the
    empty reference; every node is registered under its own path; every
    child is a node of the store, has a non-empty name, and its path is
    that of its parent, a slash, and its own name, or its name alone
    under the root; no node is twice a child of the same parent; every
    node but the root is the child of some node. *)
Definition treeShaped (nodes : gmap JSString TreeNode) : Prop :=
  (∃ r, nodes !! [] = Some r ∧ node_name r = [] ∧ node_isDirectory r = true)
  ∧ (∀ k n, nodes !! k = Some n → node_path n = k)
  ∧ (∀ k n c, nodes !! k = Some n → c ∈ children n →
       ∃ nc, nodes !! c = Some nc ∧ node_name nc ≠ []
             ∧ c = segmentPathOf k (node_name nc))
  ∧ (∀ k n, nodes !! k = Some n → NoDup (children n))
  ∧ (∀ k n, nodes !! k = Some n → k ≠ [] →
       ∃ p np, nodes !! p = Some np ∧ k ∈ children np).

(** [j] is [k] or below it in the tree. *)
Inductive descendant (nodes : gmap JSString TreeNode) : JSString → JSString → Prop :=
  | descendant_self k : descendant nodes k k
  | descendant_child k n c j :
      nodes !! k = Some n → c ∈ children n → descendant nodes c j →
      descendant nodes k j.

(** [nodes'] has the nodes of [nodes], with their children rearranged. *)
Definition rearranged (nodes nodes' : gmap JSString TreeNode) : Prop :=
  ∀ k, match nodes !! k, nodes' !! k with
       | Some n, Some n' =>
           node_name n' = node_name n ∧ node_path n' = node_path n
           ∧ node_isDirectory n' = node_isDirectory n
           ∧ node_issues n' = node_issues n
           ∧ children n' ≡ₚ children n
       | None, None => True
       | _, _ => False
       end.

(** The same, the issues left aside. *)
Definition sameShape (nodes nodes' : gmap JSString TreeNode) : Prop :=
  ∀ k, match nodes !! k, nodes' !! k with
       | Some n, Some n' =>
           node_name n' = node_name n ∧ node_path n' = node_path n
           ∧ node_isDirectory n' = node_isDirectory n
           ∧ children n' ≡ₚ children n
       | None, None => True
       | _, _ => False
       end.

(** The issues of the node at a reference, none when there is no node. *)
Definition issuesOf (nodes : gmap JSString TreeNode) (k : JSString) : list PathIssue :=
  match nodes !! k with
  | Some n => node_issues n
  | None => []
  end.

(** The segments [buildTree] walks for an entry. *)
Definition entryParts (e : PathEntry) : list JSString :=
  filter (λ p, truthy p = true) (split SLASH (entry_path e)).

(** [e] is a file entry whose walk ends at the node of path [k]. *)
Definition fileAt (k : JSString) (e : PathEntry) : Prop :=
  entry_isDirectory e = false ∧ entryParts e ≠ [] ∧ join [SLASH] (entryParts e) = k.

#[global] Instance fileAt_dec k e : Decision (fileAt k e).
Proof. unfold fileAt. apply _. Defined.

(** The issues of the file entries of [es] that end at [k], in order. *)
Definition fileIssuesAt (es : list PathEntry) (k : JSString) : list PathIssue :=
  concat (map entry_issues (filter (fileAt k) es)).

(** A file named [a] and a directory named [b] at the top level, the file
    first. *)
Definition file_a_dir_b : list PathEntry :=
  [mkEntry (str "a") false 1 []; mkEntry (str "b") true 2 []].

(** The line [processPaths] writes on the console for an input that fails
    validation. *)
Definition warningLine : JSString :=
  str "Input validation warning: Input too large. Maximum 5000 lines recommended.".

(** *** Paths, nodes and what is made of the tree *)

(** The non-empty segments of a string cut at its slashes. *)
Definition segments (s : JSString) : list JSString :=
  filter (λ x, x ≠ []) (split SLASH s).

(** No two slashes in a row; [afterSlash] tells that a slash, or the start
    of the string, comes just before. With [tidy], the string does not end
    on a slash either. *)
Fixpoint doubleFree (afterSlash : bool) (s : JSString) : bool :=
  match s with
  | [] => true
  | c :: s' =>
      if c =? SLASH then negb afterSlash && doubleFree true s' else doubleFree false s'
  end.

Fixpoint tidy (afterSlash : bool) (s : JSString) : bool :=
  match s with
  | [] => negb afterSlash
  | c :: s' =>
      if c =? SLASH then negb afterSlash && tidy true s' else tidy false s'
  end.

(** A canonical path: no backslash, and either empty or cut by its slashes
    into segments none of which is empty, [.] or [..]. *)
Definition canonicalPath (q : JSString) : Prop :=
  (BACKSLASH ∉ q)
  ∧ (q = [] ∨ Forall (λ x, x ≠ [] ∧ x ≠ str "." ∧ x ≠ str "..") (split SLASH q)).

(** What the loop of [processPaths] has made of the lines before line
    [next]: a path has an entry exactly when one of them declares it; the
    entry carries the number of the first line that declares its path and
    is a directory exactly when one of them declares the path a directory;
    the entries are in the order of their lines. *)
Definition entriesSummary (lines : list JSString) (next : nat) (st : PState) : Prop :=
  (∀ p, pathToEntry st !! p = None →
        ∀ i l d, (i < next)%nat → lines !! i = Some l → declares l ≠ Some (p, d))
  ∧ (∀ idx e, st_entries st !! idx = Some e →
       ∃ i l d,
         entry_originalLine e = (i + 1)%nat ∧ (i < next)%nat
         ∧ lines !! i = Some l ∧ declares l = Some (entry_path e, d)
         ∧ (∀ i' l' d', (i' < i)%nat → lines !! i' = Some l' →
                        declares l' ≠ Some (entry_path e, d'))
         ∧ (entry_isDirectory e = true
            ↔ ∃ j lj, (j < next)%nat ∧ lines !! j = Some lj
                      ∧ declares lj = Some (entry_path e, true)))
  ∧ (∀ idx idx' e e', (idx < idx')%nat →
       st_entries st !! idx = Some e → st_entries st !! idx' = Some e' →
       (entry_originalLine e < entry_originalLine e')%nat).

(** Every entry has a canonical path that is not empty. *)
Definition entriesCanonical (st : PState) : Prop :=
  ∀ e, e ∈ st_entries st → entry_path e ≠ [] ∧ canonicalPath (entry_path e).

(** The name and the kind of the node at a reference. *)
Definition kindOf (nodes : gmap JSString TreeNode) (k : JSString) : option (JSString * bool) :=
  (λ n, (node_name n, node_isDirectory n)) <$> nodes !! k.

(** The path of the first [i] segments of an entry. *)
Definition prefixAt (e : PathEntry) (i : nat) : JSString :=
  join [SLASH] (take i (entryParts e)).

(** [k] is the path of the first [i] segments of [e], and [x] the name
    and the kind [buildTree] gives a node it creates there for [e]: the
    segment [i], a directory unless it is the last segment of a file
    entry. *)
Definition madeBy (e : PathEntry) (i : nat) (k : JSString) (x : JSString * bool) : Prop :=
  (0 < i ≤ length (entryParts e))%nat ∧ k = prefixAt e i
  ∧ entryParts e !! (i - 1)%nat = Some x.1
  ∧ x.2 = (i <? length (entryParts e))%nat || entry_isDirectory e.

(** The nodes of a store are the root and, for every entry of [es], one
    node for each prefix of its path, made by an entry of [es]. *)
Definition nodesOf (es : list PathEntry) (nodes : gmap JSString TreeNode) : Prop :=
  kindOf nodes [] = Some ([], true)
  ∧ (∀ k x, kindOf nodes k = Some x → k ≠ [] → ∃ e i, e ∈ es ∧ madeBy e i k x)
  ∧ (∀ e i, e ∈ es → (0 < i ≤ length (entryParts e))%nat → is_Some (nodes !! prefixAt e i)).

(** [j] is [k], or below it with directories only from [k] down to the
    parent of [j]. *)
Inductive throughDirectories (nodes : gmap JSString TreeNode) : JSString → JSString → Prop :=
  | through_self k : throughDirectories nodes k k
  | through_child k n c j :
      nodes !! k = Some n → node_isDirectory n = true → c ∈ children n →
      throughDirectories nodes c j → throughDirectories nodes k j.

(** [j] is a file node that [addNode] reaches from [k]. *)
Definition fileBelow (nodes : gmap JSString TreeNode) (k j : JSString) : Prop :=
  throughDirectories nodes k j
  ∧ ∃ n, nodes !! j = Some n ∧ node_isDirectory n = false.

(** The calls of [onProgress] from [first] on, [count] of them. *)
Definition progressCalls (total first count : nat) : list (nat * nat) :=
  (λ i, (i, total)) <$> seq first count.

(** [ks] goes down the tree from [k], through directories. *)
Fixpoint descending (nodes : gmap JSString TreeNode) (k : JSString) (ks : list JSString)
    : Prop :=
  match ks with
  | [] => True
  | c :: ks' =>
      (∃ n, nodes !! k = Some n ∧ node_isDirectory n = true ∧ c ∈ children n)
      ∧ descending nodes c ks'
  end.

(** The error thrown when creating the last node of [ns] throws [error]:
    one message of line 75 for each node of [ns], the outermost first. *)
Definition nestedFailure (ns : list TreeNode) (error : option JSString) : option JSString :=
  foldr (λ n e, Some (failureMessage n e)) error ns.

(** What a run of [writeNode] over the nodes that satisfy [from] has done
    between the states [st] and [st'], [visited] being the nodes it has
    come to, in order, and [thrown] what it throws, if anything. *)
Definition written (nodes : gmap JSString TreeNode) (fs : FileSystem) (reporting : bool)
    (total : nat) (from : JSString → Prop) (st st' : WriteState)
    (thrown : option (option JSString)) (visited : list JSString) : Prop :=
  ws_current st' = (ws_current st + length visited)%nat
  ∧ ws_progress st'
    = ws_progress st
      ++ (if reporting then progressCalls total (S (ws_current st)) (length visited) else [])
  ∧ NoDup visited
  ∧ (∀ j, j ∈ visited → ∃ c, from c ∧ throughDirectories nodes c j)
  ∧ (∃ made, ws_created st' = ws_created st ++ made
       ∧ (λ c, join [SLASH] c.2) <$> made
         = match thrown with None => visited | Some _ => removelast visited end
       ∧ Forall (λ c, ∃ n, nodes !! join [SLASH] c.2 = Some n ∧ c.1 = node_isDirectory n) made)
  ∧ (thrown = None → ∀ c j, from c → throughDirectories nodes c j → j ∈ visited)
  ∧ (∀ v, thrown = Some v →
       ∃ c ks ns handle n error,
         from c ∧ descending nodes c ks ∧ Forall2 (λ k n, nodes !! k = Some n) (c :: ks) ns
         ∧ last (c :: ks) = last visited ∧ last ns = Some n
         ∧ join [SLASH] (handle ++ [node_name n]) = default [] (last visited)
         ∧ fs (ws_created st') handle (node_name n) (node_isDirectory n) = Some error
         ∧ v = nestedFailure ns error).

(** What the loop of [processPaths] makes of lines that declare distinct
    paths: one entry for each line, in order. *)
Definition entriesFollow (decls : list (JSString * bool)) (next : nat) (st : PState) : Prop :=
  (λ e, (entry_path e, entry_isDirectory e, entry_originalLine e)) <$> st_entries st
  = imap (λ i pd, (pd.1, pd.2, S i)) (take next decls).

(** The lines before [next] that are not blank. *)
Definition nonBlank (lines : list JSString) (next : nat) : list JSString :=
  filter (λ l, truthy (trim l) = true) (take next lines).

(** The issues of [st] are those of the initial state followed by issues
    that carry the numbers [numbers] of the lines they stem from. *)
Definition issuesNumbered (lines : list JSString) (numbers : list nat) (st : PState) : Prop :=
  ∃ rest, st_issues st = st_issues (initialState lines) ++ rest
          ∧ issue_line <$> rest = Some <$> numbers.

(** The name with the letters [a] to [z] in capitals. *)
Definition upperCase (name : JSString) : JSString := map canonicalize name.

(** A file system that never throws. *)
Definition neverThrows : FileSystem := λ _ _ _ _, None.

(** The item of the preview that shows what has been created under the
    handle of [c]. *)
Definition shows (nodes : gmap JSString TreeNode) (c : bool * Handle) (item : TreeItem) : Prop :=
  ∃ n, nodes !! join [SLASH] c.2 = Some n ∧ c.1 = node_isDirectory n
       ∧ item = itemOf (length c.2 - 1) n.

(** The paths of the files among what has been created. *)
Definition filesOf (made : list (bool * Handle)) : list JSString :=
  (λ c, join [SLASH] c.2) <$> filter (λ c, c.1 = false) made.

(** The lines before [next] that declare a path. *)
Definition declaring (lines : list JSString) (next : nat) : list JSString :=
  filter (λ l, is_Some (declares l)) (take next lines).

(** [seenPaths] and [pathToEntry] know the same paths, and every line
    that has declared a path has given an entry or a duplicate issue. *)
Definition duplicatesCounted (lines : list JSString) (next : nat) (st : PState) : Prop :=
  (∀ q, is_Some (seenPaths st !! q) ↔ is_Some (pathToEntry st !! q))
  ∧ (countIssues [duplicate] (st_issues st) + length (st_entries st))%nat
    = length (declaring lines next).

(** Three blank lines. *)
Definition blank_lines : JSString :=
  join [NEWLINE] [str "  "; []; str " "].

(** A file and a directory of the same path, the file first. *)
Definition file_and_directory_a : list PathEntry :=
  [mkEntry (str "a") false 1 []; mkEntry (str "a") true 2 []].

(** What [processPaths] returns for the line [b/]. *)
Definition directory_b_processed : ProcessedPaths :=
  mkProcessed [mkEntry (str "b") true 1 []] [] 1 0.

(** What [processPaths] returns for a path of 31 segments. *)
Definition thirty_one_processed : ProcessedPaths :=
  mkProcessed [mkEntry thirty_one_segments false 1 []] [depthIssue thirty_one_segments 1] 0 1.

(** * Properties of the path processor *)

Section Monad.
Context {A B : Type}.

Lemma bind_returned (m : M A) (k : A → M B) a c c' :
  m c = Returned a c' → bind m k c = k a c'.
Proof. unfold bind. by intros ->. Qed.
End Monad.

Ltac line_cases line :=
  unfold declares, processLine, normalizePath, bind, tryCatch, ret, throw;
  set (trimmed := trim line);
  set (isDir := endsWith trimmed SLASH);
  set (parts := normalizeParts (if isDir then slice_0_m1 trimmed else trimmed));
  destruct (truthy trimmed) eqn:Htrimmed; cbn [negb andb];
  [ destruct (existsb (λ p, bool_decide (p = str "..")) parts) eqn:Hdotdot; cbn [negb andb];
    [ | destruct (truthy (join [SLASH] parts)) eqn:Hpath; cbn [negb andb] ]
  | ].

(** The callback of [lines.forEach] never throws and leaves the console
    alone: the one exception raised inside it is caught. *)
Lemma processLine_returns st line index c :
  ∃ st', processLine st line index c = Returned st' c.
Proof. line_cases line; by eexists. Qed.

Lemma processLine_declares st line index c p d :
  declares line = Some (p, d) →
  processLine st line index c = Returned (recordPath st p d (index + 1)) c.
Proof. line_cases line; intros H; by simplify_eq. Qed.

Lemma processLine_other st line index c :
  declares line = None →
  ∃ st', processLine st line index c = Returned st' c
         ∧ st_entries st' = st_entries st ∧ pathToEntry st' = pathToEntry st
         ∧ seenPaths st' = seenPaths st
         ∧ ∃ extra, st_issues st' = st_issues st ++ extra
                    ∧ (extra = [] ∨ extra = [dotdotIssue (trim line) (index + 1)]).
Proof.
  assert (∃ extra, st_issues st = st_issues st ++ extra
                   ∧ (extra = [] ∨ extra = [dotdotIssue (trim line) (index + 1)])) as Hnil
    by (exists []; split; [ by rewrite app_nil_r | by left ]).
  line_cases line; intros H; try done; eexists; split_and!; try done.
  eexists. split; [ done | by right ].
Qed.

Lemma forEach_from_returns lines : ∀ index st c,
  ∃ st', forEach_from processLine lines index st c = Returned st' c.
Proof.
  induction lines as [ | line lines IH ]; intros index st c; simpl.
  - by eexists.
  - destruct (processLine_returns st line index c) as [st1 H1].
    rewrite (bind_returned _ _ _ _ _ H1). apply IH.
Qed.

(** The loop does not look at the console. *)
Lemma forEach_from_console lines : ∀ index st c st' c2,
  forEach_from processLine lines index st c = Returned st' c →
  forEach_from processLine lines index st c2 = Returned st' c2.
Proof.
  induction lines as [ | l ls IH ]; intros i s c st' c2; simpl.
  - by intros [= ->].
  - destruct (processLine_returns s l i c) as [s1 H1].
    destruct (processLine_returns s l i c2) as [s2 H2].
    rewrite (bind_returned _ _ _ _ _ H1), (bind_returned _ _ _ _ _ H2).
    assert (s1 = s2) as ->; [ | apply IH ].
    revert H1 H2. line_cases l; intros; by simplify_eq.
Qed.

(** An invariant of the state that every line preserves holds at the end
    of the loop; [P] may depend on the index of the next line. *)
Lemma forEach_from_ind (P : nat → PState → Prop) lines :
  ∀ index st c st' c',
    P index st →
    (∀ k line s s' d d', P (index + k)%nat s → lines !! k = Some line →
       processLine s line (index + k) d = Returned s' d' → P (index + S k)%nat s') →
    forEach_from processLine lines index st c = Returned st' c' →
    P (index + length lines)%nat st'.
Proof.
  induction lines as [ | line lines IH ]; intros index st c st' c' H0 Hstep; simpl.
  - intros [= <- <-]. by rewrite Nat.add_0_r.
  - destruct (processLine_returns st line index c) as [st1 H1].
    rewrite (bind_returned _ _ _ _ _ H1). intros Hrest.
    replace (index + S (length lines))%nat with ((index + 1) + length lines)%nat by lia.
    eapply IH; [ | | exact Hrest ].
    + replace (index + 1)%nat with (index + 1 * 1)%nat by lia.
      specialize (Hstep 0%nat line st st1 c c).
      rewrite Nat.add_0_r in Hstep. replace (index + 1 * 1)%nat with (index + 1)%nat by lia.
      apply Hstep; done.
    + intros k l s s' d d' HP Hl Hs.
      replace (index + 1 + S k)%nat with (index + S (S k))%nat by lia.
      eapply (Hstep (S k)); [ | exact Hl | ].
      * by replace (index + S k)%nat with (index + 1 + k)%nat by lia.
      * by replace (index + S k)%nat with (index + 1 + k)%nat by lia.
Qed.

Lemma validateInput_returns input c :
  validateInput input c
  = Returned (if MAX_LINES * 200 <? N.of_nat (length input)
              then mkValidation false (Some (str "Input too large. Maximum 5000 lines recommended."))
              else mkValidation true None) c.
Proof.
  unfold validateInput, tryCatch, bind, InputSchema_parse.
  destruct (MAX_LINES * 200 <? N.of_nat (length input)); [ | done ].
  unfold throw. f_equal.
Qed.

(** What [processPaths] leaves on the console. *)
Lemma processPaths_unfold input c :
  ∃ st,
    let c' := if MAX_LINES * 200 <? N.of_nat (length input)
              then c ++ [warningLine] else c in
    forEach processLine (split NEWLINE input) (initialState (split NEWLINE input)) c' = Returned st c'
    ∧ processPaths input c
      = Returned (mkProcessed (st_entries st) (st_issues st)
                    (length (filter (λ e, entry_isDirectory e = true) (st_entries st)))
                    (length (filter (λ e, entry_isDirectory e = false) (st_entries st)))) c'.
Proof.
  unfold processPaths.
  rewrite (bind_returned _ _ _ _ _ (validateInput_returns input c)).
  set (c' := if MAX_LINES * 200 <? N.of_nat (length input) then c ++ [warningLine] else c).
  match goal with |- context [bind (if ?b then ?m1 else ?m2)] =>
    assert ((if b then m1 else m2) c = Returned tt c') as Hw
  end.
  { subst c'. by destruct (MAX_LINES * 200 <? N.of_nat (length input)). }
  rewrite (bind_returned _ _ _ _ _ Hw).
  destruct (forEach_from_returns (split NEWLINE input) 0 (initialState (split NEWLINE input)) c')
    as [st Hst].
  exists st. simpl. split; [ exact Hst | ].
  unfold forEach, initialState in *.
  by rewrite (bind_returned _ _ _ _ _ Hst).
Qed.

(** C10. [processPaths] is total and never throws: on every input it
    returns a [ProcessedPaths]; every line is handled without an exception
    leaving the callback, the one thrown by [normalizePath] being caught
    there; an input that fails validation only puts a warning on the
    console, and the result is still that of the loop over all lines. *)
Theorem processPaths_total input :
  (∃ r st,
     run (processPaths input)
     = Returned r (if MAX_LINES * 200 <? N.of_nat (length input) then [warningLine] else [])
     ∧ run (forEach processLine (split NEWLINE input) (initialState (split NEWLINE input)))
       = Returned st []
     ∧ entries r = st_entries st ∧ issues r = st_issues st)
  ∧ (∀ st line index c, ∃ st', processLine st line index c = Returned st' c)
  ∧ (∀ st line index c,
       let path := if endsWith (trim line) SLASH then slice_0_m1 (trim line) else trim line in
       processLine st line index c
       = Returned
           (if truthy (trim line) then
              match normalizePath path c with
              | Thrown e _ =>
                  mkState (st_issues st ++ [mkIssue invalid (trim line) (error_message e)
                                              (Some (index + 1)%nat)])
                    (st_entries st) (seenPaths st) (pathToEntry st)
              | Returned p _ =>
                  if truthy p then recordPath st p (endsWith (trim line) SLASH) (index + 1) else st
              end
            else st) c).
Proof.
  split_and!.
  - destruct (processPaths_unfold input []) as (st & Hloop & Hres).
    eexists; exists st. unfold run. rewrite Hres. split_and!.
    + reflexivity.
    + eapply forEach_from_console, Hloop.
    + done.
    + done.
  - apply processLine_returns.
  - intros st line index c. simpl. line_cases line; reflexivity.
Qed.

(** C6. A line with a [..] segment among the parts that slash handling
    leaves yields no entry and exactly one issue, of type [invalid], with
    the message of the rejection and the number of the line. *)
Theorem dotdot_line_rejected st line index c :
  str ".." ∈ normalizeParts (if endsWith (trim line) SLASH
                             then slice_0_m1 (trim line) else trim line) →
  ∃ st', processLine st line index c = Returned st' c
         ∧ st_entries st' = st_entries st
         ∧ st_issues st' = st_issues st ++ [dotdotIssue (trim line) (index + 1)]
         ∧ issue_type (dotdotIssue (trim line) (index + 1)) = invalid
         ∧ pathToEntry st' = pathToEntry st ∧ seenPaths st' = seenPaths st.
Proof.
  intros Hin.
  assert (truthy (trim line) = true) as Htr.
  { destruct (trim line); [ | done ]. vm_compute in Hin.
    apply list_elem_of_In in Hin. by destruct Hin. }
  assert (existsb (λ p, bool_decide (p = str ".."))
            (normalizeParts (if endsWith (trim line) SLASH
                             then slice_0_m1 (trim line) else trim line)) = true) as Hex.
  { apply existsb_exists. exists (str ".."). split; [ by apply list_elem_of_In | ].
    by apply bool_decide_eq_true. }
  unfold processLine, normalizePath, bind, tryCatch, throw. rewrite Htr, Hex. simpl.
  eexists; split_and!; done.
Qed.

Lemma dotdot_line_rejected_witness :
  ∃ st', processLine (initialState []) (str "src/../components") 0 [] = Returned st' []
         ∧ st_entries st' = []
         ∧ st_issues st' = [dotdotIssue (str "src/../components") 1]
         ∧ issue_type (dotdotIssue (str "src/../components") 1) = invalid
         ∧ pathToEntry st' = ∅ ∧ seenPaths st' = ∅.
Proof.
  apply (dotdot_line_rejected (initialState []) (str "src/../components") 0 []).
  apply list_elem_of_In. vm_compute. tauto.
Defined.

(** C2, as the code has it. On the six-line input [processPaths] returns
    two issues, one [duplicate] and one [sanitized], four files, the
    duplicate counted once, and one folder: [folderCount] counts the
    entries declared as directories, and [src/components/] is the only
    line that declares one. *)
Theorem six_lines_result :
  ∃ r, run (processPaths six_lines) = Returned r []
       ∧ length (issues r) = 2%nat
       ∧ map issue_type (issues r) = [duplicate; sanitized]
       ∧ folderCount r = 1%nat
       ∧ fileCount r = 4%nat
       ∧ length (entries r) = 5%nat.
Proof. eexists. split; [ by vm_compute | ]. by vm_compute. Qed.

(** The same input refutes C2 as stated: [folderCount] is not 2. *)
Lemma six_lines_counterexample :
  ¬ ∃ r c, run (processPaths six_lines) = Returned r c
           ∧ (2 ≤ length (issues r))%nat
           ∧ folderCount r = 2%nat ∧ fileCount r = 4%nat.
Proof.
  intros (r & c & Hr & _ & Hf & _).
  vm_compute in Hr. injection Hr as <- _.
  vm_compute in Hf. discriminate.
Qed.

(** ** The sanitiser *)









(** ** One line of input *)

Lemma foldl_app_concat {X Y} (f : X → list Y) l : ∀ acc,
  foldl (λ acc x, acc ++ f x) acc l = acc ++ concat (map f l).
Proof.
  induction l as [ | x l IH ]; intros acc; simpl.
  - by rewrite app_nil_r.
  - by rewrite IH, app_assoc.
Qed.

Lemma segmentIssue_type L seg x :
  x ∈ segmentIssue L seg →
  issue_type x = sanitized ∨ issue_type x = reserved ∨ issue_type x = invalid.
Proof.
  unfold segmentIssue. destruct (valid _); simpl; [ by intros ?%elem_of_nil | ].
  destruct (fnv_sanitized _) as [ [ | ? ? ] | ].
  - intros ->%list_elem_of_singleton. simpl. case_bool_decide; auto.
  - intros ->%list_elem_of_singleton. auto.
  - intros ->%list_elem_of_singleton. simpl. case_bool_decide; auto.
Qed.


Ltac own_issues :=
  first [ exists []; split; [ by rewrite app_nil_r | constructor ]
        | eexists; split;
          [ reflexivity
          | repeat (apply Forall_cons; split;
                    [ split_and!; [ auto | done | done | discriminate ] | ]);
            constructor ] ].

(** A path met for the first time: its entry is appended. *)
Lemma recordPath_fresh st p d L :
  pathToEntry st !! p = None →
  ∃ own seen,
    recordPath st p d L
    = mkState (st_issues st ++ depthPart p L ++ own)
        (st_entries st ++ [mkEntry p d L own]) seen
        (<[p := length (st_entries st)]> (pathToEntry st))
    ∧ ownIssuesSpec p L own.
Proof.
  intros Hnone. unfold recordPath, depthPart, depthIssue.
  rewrite Hnone, foldl_app_concat.
  destruct (MAX_DEPTH <? _), (seenPaths st !! p) as [ lines | ];
    simpl; rewrite <- ?app_assoc; eexists _, _; (split; [ reflexivity | own_issues ]).
Qed.

(** A path met before, its entry being [e] at reference [r]: no entry is
    appended, and [e] is upgraded when the line declares a directory and
    [e] is a file. *)
Lemma recordPath_existing st p d L r e :
  pathToEntry st !! p = Some r → st_entries st !! r = Some e →
  ∃ own seen,
    recordPath st p d L
    = mkState (st_issues st ++ depthPart p L ++ own)
        (if d && negb (entry_isDirectory e)
         then <[r := upgraded e p]> (st_entries st) else st_entries st)
        seen (pathToEntry st)
    ∧ ownIssuesSpec p L own.
Proof.
  intros Href He. unfold recordPath, depthPart, depthIssue.
  rewrite Href, foldl_app_concat.
  rewrite (list_lookup_total_correct _ _ _ He).
  assert (r < length (st_entries st))%nat as Hlt by (by eapply lookup_lt_Some).
  destruct (MAX_DEPTH <? _), (seenPaths st !! p) as [ lines | ],
    (entry_isDirectory e) eqn:Hdir, d; simpl;
    rewrite ?(list_lookup_total_correct _ _ _ He), ?Hdir; simpl;
    rewrite ?list_lookup_total_insert_eq by done; simpl;
    rewrite <- ?app_assoc; eexists _, _; (split; [ reflexivity | own_issues ]).
Qed.

(** A reference that is in [pathToEntry] but not in [entries]; the loop
    never makes one, see [refsValid]. *)
Lemma recordPath_dangling st p d L r :
  pathToEntry st !! p = Some r → st_entries st !! r = None →
  ∃ own seen ents pte,
    recordPath st p d L = mkState (st_issues st ++ depthPart p L ++ own) ents seen pte
    ∧ ownIssuesSpec p L own
    ∧ (ents = st_entries st ∨ ents = st_entries st ++ [mkEntry p d L own])
    ∧ (pte = pathToEntry st ∨ pte = <[p := length (st_entries st)]> (pathToEntry st)).
Proof.
  intros Href He. unfold recordPath, depthPart, depthIssue.
  rewrite Href, foldl_app_concat.
  assert (length (st_entries st) ≤ r)%nat as Hge by (by apply lookup_ge_None).
  rewrite !list_lookup_total_alt, He.
  destruct (MAX_DEPTH <? _), (seenPaths st !! p) as [ lines | ], d; simpl;
    rewrite ?list_insert_ge by done;
    rewrite ?list_lookup_total_alt, ?He; simpl;
    rewrite <- ?app_assoc; eexists _, _, _, _;
    (split; [ reflexivity | split; [ own_issues | auto ] ]).
Qed.

(** The issues a recorded path adds, whatever the state. *)
Lemma recordPath_issues st p d L :
  ∃ own,
    st_issues (recordPath st p d L) = st_issues st ++ depthPart p L ++ own
    ∧ ownIssuesSpec p L own
    ∧ (length (st_entries (recordPath st p d L)) = length (st_entries st)
       ∨ st_entries (recordPath st p d L) = st_entries st ++ [mkEntry p d L own]).
Proof.
  destruct (pathToEntry st !! p) as [ r | ] eqn:Href.
  - destruct (st_entries st !! r) as [ e | ] eqn:He.
    + destruct (recordPath_existing st p d L r e Href He) as (own & seen & -> & Hown).
      exists own. split_and!; try done. left. simpl.
      destruct (_ && _); by rewrite ?length_insert.
    + destruct (recordPath_dangling st p d L r Href He)
        as (own & seen & ents & pte & -> & Hown & Hents & _).
      exists own. split_and!; try done. simpl. destruct Hents as [ -> | -> ]; auto.
  - destruct (recordPath_fresh st p d L Href) as (own & seen & -> & Hown).
    exists own. split_and!; try done. by right.
Qed.

Lemma ownIssues_no_depth p L own :
  ownIssuesSpec p L own → Forall (λ x, issue_type x ≠ depth) own.
Proof.
  intros (dupconf & -> & Hdc). apply Forall_app. split.
  - apply Forall_forall. intros x Hx.
    apply list_elem_of_In, in_concat in Hx as (l & Hl & Hx).
    apply in_map_iff in Hl as (seg & <- & _).
    apply list_elem_of_In, segmentIssue_type in Hx.
    destruct Hx as [ H | [ H | H ] ]; by rewrite H.
  - eapply Forall_impl; [ exact Hdc | ]. simpl. intros x ([ -> | -> ] & _); done.
Qed.

(** C5, as the code has it. When a line yields an entry, the entry's
    issues are the sanitized, reserved and invalid issues of its segments
    in order, followed by its own duplicate and conflict issues; none of
    them has type [depth]. The depth issue of a path of more than 30
    segments goes to the top-level list only, where it precedes the
    entry's issues. *)
Theorem entry_issues_of_line st line index c st' e :
  processLine st line index c = Returned st' c →
  length (st_entries st') = S (length (st_entries st)) →
  last (st_entries st') = Some e →
  ∃ p d,
    declares line = Some (p, d)
    ∧ entry_path e = p ∧ entry_isDirectory e = d ∧ entry_originalLine e = (index + 1)%nat
    ∧ ownIssuesSpec p (index + 1) (entry_issues e)
    ∧ Forall (λ x, issue_type x ≠ depth) (entry_issues e)
    ∧ st_issues st' = st_issues st ++ depthPart p (index + 1) ++ entry_issues e.
Proof.
  intros Hstep Hlen Hlast.
  destruct (declares line) as [ [p d] | ] eqn:Hdecl.
  - rewrite (processLine_declares _ _ _ _ _ _ Hdecl) in Hstep. simplify_eq.
    destruct (recordPath_issues st p d (index + 1)) as (own & Hissues & Hown & Hents).
    destruct Hents as [ Hsame | Hpush ]; [ lia | ].
    rewrite Hpush, last_snoc in Hlast. simplify_eq. simpl.
    exists p, d. split_and!; try done. by eapply ownIssues_no_depth.
  - destruct (processLine_other st line index c Hdecl) as (st1 & Hst1 & Hents & _).
    rewrite Hst1 in Hstep. simplify_eq. rewrite Hents in Hlen. lia.
Qed.

Lemma entry_issues_of_line_witness :
  ∃ p d,
    declares thirty_one_segments = Some (p, d)
    ∧ entry_path (mkEntry thirty_one_segments false 1 []) = p
    ∧ entry_isDirectory (mkEntry thirty_one_segments false 1 []) = d
    ∧ entry_originalLine (mkEntry thirty_one_segments false 1 []) = 1%nat
    ∧ ownIssuesSpec p 1 []
    ∧ Forall (λ x, issue_type x ≠ depth) []
    ∧ [depthIssue thirty_one_segments 1] = [] ++ depthPart p 1 ++ [].
Proof.
  apply (entry_issues_of_line (initialState []) thirty_one_segments 0 []
           (mkState [depthIssue thirty_one_segments 1]
              [mkEntry thirty_one_segments false 1 []]
              (<[thirty_one_segments := [1%nat]]> ∅)
              (<[thirty_one_segments := 0%nat]> ∅))
           (mkEntry thirty_one_segments false 1 [])).
  - by vm_compute.
  - reflexivity.
  - reflexivity.
Defined.

(** C5 as stated fails on a path of 31 segments: its entry carries no
    issue at all, the depth issue is in the top-level list only. *)
Lemma entry_issues_counterexample :
  ∃ r e,
    run (processPaths thirty_one_segments) = Returned r []
    ∧ entries r = [e]
    ∧ (30 < length (split SLASH (entry_path e)))%nat
    ∧ entry_issues e = []
    ∧ issues r = [depthIssue thirty_one_segments 1].
Proof. eexists _, _. split; [ by vm_compute | ]. by vm_compute. Qed.

(** ** The loop over the lines *)

Lemma recordPath_refsValid st p d L :
  refsValid st → refsValid (recordPath st p d L).
Proof.
  intros [Hv1 Hv2].
  destruct (pathToEntry st !! p) as [ r | ] eqn:Href.
  - destruct (Hv1 _ _ Href) as (e & He & Hpath).
    destruct (recordPath_existing st p d L r e Href He) as (own & seen & -> & _).
    destruct (d && negb (entry_isDirectory e)); [ | by split ].
    split; simpl.
    + intros q r' Hq. destruct (Hv1 _ _ Hq) as (e' & He' & Hpath').
      destruct (decide (r' = r)) as [ -> | Hne ].
      * exists (upgraded e p). split; [ | by simplify_eq ].
        apply list_lookup_insert_eq. by eapply lookup_lt_Some.
      * exists e'. by rewrite list_lookup_insert_ne.
    + intros r' e' He'. destruct (decide (r' = r)) as [ -> | Hne ].
      * rewrite list_lookup_insert_eq in He' by (by eapply lookup_lt_Some).
        simplify_eq. simpl. by apply Hv2.
      * rewrite list_lookup_insert_ne in He' by done. by apply Hv2.
  - destruct (recordPath_fresh st p d L Href) as (own & seen & -> & _).
    split; simpl.
    + intros q r Hq. destruct (decide (p = q)) as [ <- | Hne ].
      * rewrite lookup_insert_eq in Hq. simplify_eq.
        exists (mkEntry p d L own). split; [ | reflexivity ].
        rewrite lookup_app_r by done. by rewrite Nat.sub_diag.
      * rewrite lookup_insert_ne in Hq by done.
        destruct (Hv1 _ _ Hq) as (e & He & Hpath). exists e. split; [ | done ].
        by apply lookup_app_l_Some.
    + intros r e He. apply lookup_app_Some in He as [ He | [Hge He] ].
      * pose proof (Hv2 _ _ He) as Hr.
        rewrite lookup_insert_ne; [ done | ]. intros ->. by rewrite Href in Hr.
      * apply list_lookup_singleton_Some in He as [Hr <-]. simpl.
        rewrite lookup_insert_eq. f_equal. lia.
Qed.

Lemma processLine_refsValid st line index c st' c' :
  refsValid st → processLine st line index c = Returned st' c' → refsValid st'.
Proof.
  intros Hv Hstep. destruct (declares line) as [ [p d] | ] eqn:Hdecl.
  - rewrite (processLine_declares _ _ _ _ _ _ Hdecl) in Hstep. simplify_eq.
    by apply recordPath_refsValid.
  - destruct (processLine_other st line index c Hdecl) as (st1 & Hst1 & Hents & Hpte & _).
    rewrite Hst1 in Hstep. simplify_eq. unfold refsValid. by rewrite Hents, Hpte.
Qed.

Lemma segmentIssue_message L seg x :
  x ∈ segmentIssue L seg → issue_message x ≠ str "Resolved: treating as directory".
Proof.
  unfold segmentIssue, validateFileName.
  repeat match goal with
         | |- context [if ?b then _ else _] => destruct b; simpl
         end;
    try (by intros ?%elem_of_nil);
    try (intros ->%list_elem_of_singleton; discriminate).
  destruct (sanitizeFileName seg);
    intros ->%list_elem_of_singleton; discriminate.
Qed.

Lemma ownIssues_noResolved p L own :
  ownIssuesSpec p L own → noResolved own.
Proof.
  intros (dupconf & -> & Hdc) x [ Hx | Hx ]%elem_of_app.
  - apply list_elem_of_In, in_concat in Hx as (l & Hl & Hx).
    apply in_map_iff in Hl as (seg & <- & _).
    by eapply segmentIssue_message, list_elem_of_In.
  - rewrite Forall_forall in Hdc. by apply Hdc.
Qed.

Lemma noResolved_app l1 l2 : noResolved l1 → noResolved l2 → noResolved (l1 ++ l2).
Proof. intros H1 H2 x [ ? | ? ]%elem_of_app; auto. Qed.

Lemma depthPart_noResolved p L : noResolved (depthPart p L).
Proof.
  unfold depthPart. destruct (MAX_DEPTH <? _).
  - intros x ->%list_elem_of_singleton. discriminate.
  - by intros x ?%elem_of_nil.
Qed.

Lemma processLine_noResolved st line index c st' c' :
  noResolved (st_issues st) → processLine st line index c = Returned st' c' →
  noResolved (st_issues st').
Proof.
  intros Hno Hstep. destruct (declares line) as [ [p d] | ] eqn:Hdecl.
  - rewrite (processLine_declares _ _ _ _ _ _ Hdecl) in Hstep. simplify_eq.
    destruct (recordPath_issues st p d (index + 1)) as (own & -> & Hown & _).
    apply noResolved_app; [ done | ].
    apply noResolved_app; [ apply depthPart_noResolved | by eapply ownIssues_noResolved ].
  - destruct (processLine_other st line index c Hdecl)
      as (st1 & Hst1 & _ & _ & _ & extra & Hiss & Hextra).
    rewrite Hst1 in Hstep. simplify_eq. rewrite Hiss.
    apply noResolved_app; [ done | ].
    destruct Hextra as [ -> | -> ].
    + by intros x ?%elem_of_nil.
    + intros x ->%list_elem_of_singleton. discriminate.
Qed.

Lemma processLine_issuesCovered st line index c st' c' :
  refsValid st → issuesCovered st → processLine st line index c = Returned st' c' →
  issuesCovered st'.
Proof.
  intros Hv Hcov Hstep. destruct (declares line) as [ [p d] | ] eqn:Hdecl.
  - rewrite (processLine_declares _ _ _ _ _ _ Hdecl) in Hstep. simplify_eq.
    destruct (pathToEntry st !! p) as [ r | ] eqn:Href.
    + destruct (proj1 Hv _ _ Href) as (e & He & Hpath).
      destruct (recordPath_existing st p d (index + 1) r e Href He) as (own & seen & -> & _).
      intros e' x He' Hx. simpl in *. rewrite elem_of_app.
      destruct (d && negb (entry_isDirectory e)).
      * apply list_elem_of_lookup in He' as [r' He'].
        destruct (decide (r' = r)) as [ -> | Hne ].
        -- rewrite list_lookup_insert_eq in He' by (by eapply lookup_lt_Some).
           simplify_eq. simpl in *.
           apply elem_of_app in Hx as [ Hx | ->%list_elem_of_singleton ]; [ | by right ].
           destruct (Hcov e x) as [ ? | ? ]; auto.
           by eapply list_elem_of_lookup_2.
        -- rewrite list_lookup_insert_ne in He' by done.
           destruct (Hcov e' x) as [ ? | ? ]; auto.
           by eapply list_elem_of_lookup_2.
      * destruct (Hcov e' x) as [ ? | ? ]; auto.
    + destruct (recordPath_fresh st p d (index + 1) Href) as (own & seen & -> & _).
      intros e' x He' Hx. simpl in *. rewrite !elem_of_app.
      apply elem_of_app in He' as [ He' | ->%list_elem_of_singleton ].
      * destruct (Hcov e' x) as [ ? | ? ]; auto.
      * simpl in Hx. auto.
  - destruct (processLine_other st line index c Hdecl)
      as (st1 & Hst1 & Hents & _ & _ & extra & Hiss & _).
    rewrite Hst1 in Hstep. simplify_eq.
    intros e x He Hx. rewrite Hents in He. rewrite Hiss, elem_of_app.
    destruct (Hcov e x) as [ ? | ? ]; auto.
Qed.

Lemma initialState_noResolved lines : noResolved (st_issues (initialState lines)).
Proof.
  unfold initialState. simpl. destruct (MAX_LINES <? _).
  - intros x ->%list_elem_of_singleton. discriminate.
  - by intros x ?%elem_of_nil.
Qed.

Lemma initialState_refsValid lines : refsValid (initialState lines).
Proof. split; intros ? ?; simpl; [ by rewrite lookup_empty | by rewrite lookup_nil ]. Qed.

(** What holds of the state when the loop starts and is preserved by
    every line holds of the state [processPaths] builds its result from. *)
Lemma processPaths_invariant (P : nat → PState → Prop) input :
  P 0%nat (initialState (split NEWLINE input)) →
  (∀ k line s s' d d', P k s → split NEWLINE input !! k = Some line →
     processLine s line k d = Returned s' d' → P (S k) s') →
  ∃ r c st,
    run (processPaths input) = Returned r c
    ∧ entries r = st_entries st ∧ issues r = st_issues st
    ∧ P (length (split NEWLINE input)) st.
Proof.
  intros H0 Hstep.
  destruct (processPaths_unfold input []) as (st & Hloop & Hres).
  unfold run. rewrite Hres. eexists _, _, st. split; [ reflexivity | ].
  split; [ done | ]. split; [ done | ].
  unfold forEach in Hloop.
  by eapply (forEach_from_ind P (split NEWLINE input) 0 (initialState (split NEWLINE input))
               _ st _ H0 Hstep).
Qed.

(** C4, as the code has it. Every issue attached to a final entry is in
    the top-level list as well, except the issue an entry receives when a
    later line turns it into a directory: that one is pushed onto the
    entry alone, and no issue of the top-level list carries its message. *)
Theorem entry_issues_in_top_level input :
  ∃ r c,
    run (processPaths input) = Returned r c
    ∧ (∀ e x, e ∈ entries r → x ∈ entry_issues e →
              x ∈ issues r ∨ x = resolvedIssue (entry_path e) (entry_originalLine e))
    ∧ (∀ x, x ∈ issues r → issue_message x ≠ str "Resolved: treating as directory").
Proof.
  destruct (processPaths_invariant
              (λ _ s, refsValid s ∧ issuesCovered s ∧ noResolved (st_issues s)) input)
    as (r & c & st & Hr & Hents & Hiss & _ & Hcov & Hno).
  - split_and!.
    + apply initialState_refsValid.
    + by intros e x ?%elem_of_nil.
    + apply initialState_noResolved.
  - intros k line s s' d d' (Hv & Hc & Hn) _ Hstep. split_and!.
    + by eapply processLine_refsValid.
    + by eapply processLine_issuesCovered.
    + by eapply processLine_noResolved.
  - exists r, c. rewrite Hents, Hiss. by split_and!.
Qed.

(** C4 as stated fails when a file is declared a directory later on: the
    issue of the resolution is on the entry and not in the top-level
    list. *)
Lemma entry_issues_in_top_level_counterexample :
  ∃ r e x,
    run (processPaths file_then_directory) = Returned r []
    ∧ e ∈ entries r ∧ x ∈ entry_issues e
    ∧ x = resolvedIssue (str "src/components") 1
    ∧ x ∉ issues r.
Proof.
  eexists _, _, _. split; [ by vm_compute | ].
  split; [ apply list_elem_of_here | ].
  split; [ apply list_elem_of_here | ].
  split; [ by vm_compute | ].
  intros Hin. apply list_elem_of_In in Hin. vm_compute in Hin.
  destruct Hin as [ Hin | [ Hin | [] ] ]; discriminate.
Qed.

Lemma recordPath_pathToEntry_ne st p q d L :
  q ≠ p → pathToEntry (recordPath st q d L) !! p = pathToEntry st !! p.
Proof.
  intros Hne. destruct (pathToEntry st !! q) as [ r | ] eqn:Href.
  - destruct (st_entries st !! r) as [ e | ] eqn:He.
    + by destruct (recordPath_existing st q d L r e Href He) as (own & seen & -> & _).
    + destruct (recordPath_dangling st q d L r Href He)
        as (own & seen & ents & pte & -> & _ & _ & [ -> | -> ]); simpl; [ done | ].
      by rewrite lookup_insert_ne.
  - destruct (recordPath_fresh st q d L Href) as (own & seen & -> & _). simpl.
    by rewrite lookup_insert_ne.
Qed.

Lemma resolutionPhase_step p i j li lj (lines : list JSString) k line s s' c c' :
  lines !! i = Some li → declares li = Some (p, false) →
  (∀ k lk d, (k < i)%nat → lines !! k = Some lk → declares lk ≠ Some (p, d)) →
  (i < j)%nat → lines !! j = Some lj → declares lj = Some (p, true) →
  refsValid s → resolutionPhase p i j k s →
  lines !! k = Some line → processLine s line k c = Returned s' c' →
  resolutionPhase p i j (S k) s'.
Proof.
  intros Hi Hdi Hfirst Hij Hj Hdj Hv [Hbefore Hafter] Hk Hstep.
  destruct (declares line) as [ [q d] | ] eqn:Hdecl.
  - rewrite (processLine_declares _ _ _ _ _ _ Hdecl) in Hstep. simplify_eq.
    destruct (decide (q = p)) as [ -> | Hne ].
    + (* the line declares [p] *)
      destruct (decide (k < i)%nat) as [ Hlt | Hge ]; [ by edestruct Hfirst | ].
      destruct (decide (k = i)) as [ -> | Hki ].
      * (* the first declaration *)
        simplify_eq.
        destruct (recordPath_fresh s p false (i + 1) (Hbefore (le_n _)))
          as (own & seen & -> & _).
        split; simpl; [ lia | ]. intros _.
        eexists _, _. rewrite lookup_insert_eq. split; [ done | ].
        rewrite lookup_app_r, Nat.sub_diag by done. split; [ done | ].
        split_and!; [ done | done | lia ].
      * (* a later declaration *)
        destruct Hafter as (r & e & Href & He & Horig & Hres & Hdir); [ lia | ].
        destruct (recordPath_existing s p d (k + 1) r e Href He) as (own & seen & -> & _).
        split; simpl; [ lia | ]. intros _.
        assert (r < length (st_entries s))%nat by (by eapply lookup_lt_Some).
        destruct (d && negb (entry_isDirectory e)) eqn:Hup.
        -- exists r, (upgraded e p). rewrite list_lookup_insert_eq by done.
           split_and!; try done; simpl.
           intros _. rewrite Horig. apply elem_of_app. right. apply list_elem_of_here.
        -- exists r, e. split_and!; try done.
           intros Hjk. destruct (decide (j = k)) as [ -> | ? ]; [ | apply Hdir; lia ].
           simplify_eq. simpl in Hup. by destruct (entry_isDirectory e).
    + (* the line declares another path *)
      pose proof (recordPath_pathToEntry_ne s p q d (k + 1) Hne) as Hpte.
      split.
      * intros Hle. rewrite Hpte. apply Hbefore. lia.
      * intros Hlt.
        assert (k ≠ i) as Hki by (intros ->; simplify_eq).
        assert (k ≠ j) as Hkj by (intros ->; simplify_eq).
        destruct Hafter as (r & e & Href & He & Horig & Hres & Hdir); [ lia | ].
        exists r, e. rewrite Hpte. split; [ done | ].
        split; [ | split_and!; try done; intros ?; apply Hdir; lia ].
        destruct (pathToEntry s !! q) as [ r' | ] eqn:Hq.
        -- destruct (proj1 Hv _ _ Hq) as (e' & He' & Hpath').
           destruct (recordPath_existing s q d (k + 1) r' e' Hq He') as (own & seen & -> & _).
           simpl. destruct (_ && _); [ | done ].
           rewrite list_lookup_insert_ne; [ done | ]. intros ->.
           destruct (proj1 Hv _ _ Href) as (e2 & He2 & Hpath2). by simplify_eq.
        -- destruct (recordPath_fresh s q d (k + 1) Hq) as (own & seen & -> & _).
           simpl. by apply lookup_app_l_Some.
  - destruct (processLine_other s line k c Hdecl) as (s1 & Hs1 & Hents & Hpte & _).
    rewrite Hs1 in Hstep. simplify_eq.
    assert (k ≠ i) as Hki by (intros ->; simplify_eq).
    assert (k ≠ j) as Hkj by (intros ->; simplify_eq).
    split; rewrite Hpte.
    + intros ?. apply Hbefore. lia.
    + intros ?. destruct Hafter as (r & e & Href & He & Horig & Hres & Hdir); [ lia | ].
      exists r, e. rewrite Hents. split_and!; try done. intros ?. apply Hdir. lia.
Qed.

(** C1. When a path is declared first as a file, on line [i], and as a
    directory on a later line [j], the entries [processPaths] returns hold
    exactly one entry for the path; it is the entry of line [i], now a
    directory, and it carries the issue of the resolution with its own
    line number. The line that declares the directory adds no entry. *)
Theorem file_then_directory_resolved input i j li lj p :
  split NEWLINE input !! i = Some li → declares li = Some (p, false) →
  (∀ k lk d, (k < i)%nat → split NEWLINE input !! k = Some lk → declares lk ≠ Some (p, d)) →
  (i < j)%nat →
  split NEWLINE input !! j = Some lj → declares lj = Some (p, true) →
  ∃ r c idx e,
    run (processPaths input) = Returned r c
    ∧ entries r !! idx = Some e
    ∧ entry_path e = p ∧ entry_isDirectory e = true
    ∧ entry_originalLine e = (i + 1)%nat
    ∧ resolvedIssue p (i + 1) ∈ entry_issues e
    ∧ (∀ idx' e', entries r !! idx' = Some e' → entry_path e' = p → idx' = idx).
Proof.
  intros Hi Hdi Hfirst Hij Hj Hdj.
  destruct (processPaths_invariant (λ k s, refsValid s ∧ resolutionPhase p i j k s) input)
    as (r & c & st & Hr & Hents & _ & Hv & _ & Hafter).
  - split; [ apply initialState_refsValid | ].
    split; [ done | lia ].
  - intros k line s s' d d' [Hv Hphase] Hk Hstep. split.
    + by eapply processLine_refsValid.
    + by eapply (resolutionPhase_step p i j li lj (split NEWLINE input)).
  - assert (j < length (split NEWLINE input))%nat as Hlen by (by eapply lookup_lt_Some).
    destruct Hafter as (idx & e & Href & He & Horig & Hres & Hdir); [ lia | ].
    destruct (proj1 Hv _ _ Href) as (e' & He' & Hpath). simplify_eq.
    exists r, c, idx, e. rewrite Hents. split_and!; try done.
    + apply Hdir. lia.
    + apply Hres, Hdir. lia.
    + intros idx' e' He' Hpath'. apply (proj2 Hv) in He'. rewrite Hpath' in He'.
      by simplify_eq.
Qed.

Lemma file_then_directory_resolved_witness :
  ∃ r c idx e,
    run (processPaths file_then_directory) = Returned r c
    ∧ entries r !! idx = Some e
    ∧ entry_path e = str "src/components" ∧ entry_isDirectory e = true
    ∧ entry_originalLine e = 1%nat
    ∧ resolvedIssue (str "src/components") 1 ∈ entry_issues e
    ∧ (∀ idx' e', entries r !! idx' = Some e' → entry_path e' = str "src/components"
                  → idx' = idx).
Proof.
  apply (file_then_directory_resolved file_then_directory 0 1
           (str "src/components") (str "src/components/") (str "src/components")).
  - reflexivity.
  - reflexivity.
  - intros k lk d Hk. lia.
  - lia.
  - reflexivity.
  - reflexivity.
Defined.

(** * Properties of the tree builder *)

(** ** Sorting *)

Section SortProperties.
Context {A : Type} (compare : A → A → Z).

Lemma insertSorted_Permutation x l : insertSorted compare x l ≡ₚ x :: l.
Proof.
  induction l as [ | y l IH ]; simpl; [ done | ].
  destruct (compare x y <=? 0)%Z; [ done | ].
  rewrite IH. apply Permutation_swap.
Qed.

Lemma sortArray_Permutation l : sortArray compare l ≡ₚ l.
Proof.
  induction l as [ | x l IH ]; simpl; [ done | ].
  by rewrite insertSorted_Permutation, IH.
Qed.

Lemma sortArray_ext (compare' : A → A → Z) l :
  (∀ a b, compare a b = compare' a b) → sortArray compare l = sortArray compare' l.
Proof.
  intros Hext. induction l as [ | x l IH ]; simpl; [ done | ].
  rewrite IH. generalize (sortArray compare' l). intros l'.
  induction l' as [ | y l' IH' ]; simpl; [ done | ].
  by rewrite Hext, IH'.
Qed.

Hypothesis compare_total : ∀ a b, (compare a b ≤ 0 ∨ compare b a ≤ 0)%Z.
Hypothesis compare_trans : ∀ a b c, (compare a b ≤ 0 → compare b c ≤ 0 → compare a c ≤ 0)%Z.

Lemma insertSorted_StronglySorted x l :
  StronglySorted (λ a b, (compare a b ≤ 0)%Z) l →
  StronglySorted (λ a b, (compare a b ≤ 0)%Z) (insertSorted compare x l).
Proof.
  induction l as [ | y l IH ]; simpl; intros Hs.
  - by repeat constructor.
  - apply StronglySorted_inv in Hs as [Hl Hy].
    destruct (compare x y <=? 0)%Z eqn:Hxy.
    + apply Z.leb_le in Hxy. constructor; [ by constructor | ].
      constructor; [ done | ]. eapply Forall_impl; [ exact Hy | ].
      intros z Hz. by eapply compare_trans.
    + apply Z.leb_gt in Hxy. constructor; [ by apply IH | ].
      rewrite insertSorted_Permutation. constructor; [ | done ].
      destruct (compare_total x y); [ lia | done ].
Qed.

Lemma sortArray_StronglySorted l :
  StronglySorted (λ a b, (compare a b ≤ 0)%Z) (sortArray compare l).
Proof.
  induction l as [ | x l IH ]; simpl; [ constructor | ].
  by apply insertSorted_StronglySorted.
Qed.
End SortProperties.

Lemma StronglySorted_impl {A} (R R' : A → A → Prop) l :
  (∀ a b, R a b → R' a b) → StronglySorted R l → StronglySorted R' l.
Proof.
  intros Himpl. induction 1 as [ | x l Hs IH Hx ]; constructor; [ done | ].
  eapply Forall_impl; [ exact Hx | ]. auto.
Qed.

Lemma StronglySorted_lookup {A} (R : A → A → Prop) l i j a b :
  StronglySorted R l → l !! i = Some a → l !! j = Some b → (i < j)%nat → R a b.
Proof.
  intros Hs. revert i j. induction Hs as [ | x l Hs IH Hx ]; intros i j Hi Hj Hij.
  - by rewrite lookup_nil in Hi.
  - destruct j as [ | j ]; [ lia | ]. simpl in Hj.
    destruct i as [ | i ]; simpl in Hi.
    + simplify_eq. rewrite Forall_forall in Hx. apply Hx.
      by eapply list_elem_of_lookup_2.
    + eapply IH; [ done | done | lia ].
Qed.

(** Comparison by code units is a consistent comparator. *)
Lemma codeUnitCompare_total a : ∀ b,
  (codeUnitCompare a b ≤ 0 ∨ codeUnitCompare b a ≤ 0)%Z.
Proof.
  induction a as [ | x a IH ]; intros [ | y b ]; simpl; try lia.
  destruct (x <? y) eqn:Hxy, (y <? x) eqn:Hyx; try lia. apply IH.
Qed.

Lemma codeUnitCompare_trans a : ∀ b c,
  (codeUnitCompare a b ≤ 0 → codeUnitCompare b c ≤ 0 → codeUnitCompare a c ≤ 0)%Z.
Proof.
  induction a as [ | x a IH ]; intros [ | y b ] [ | z c ]; simpl; try lia.
  destruct (x <? y) eqn:Hxy, (y <? x) eqn:Hyx, (y <? z) eqn:Hyz, (z <? y) eqn:Hzy,
    (x <? z) eqn:Hxz, (z <? x) eqn:Hzx;
    rewrite ?N.ltb_lt, ?N.ltb_ge in *; try lia.
  apply IH.
Qed.

(** ** The shape of the tree *)

Lemma segmentPathOf_length cur part :
  part ≠ [] → (length cur < length (segmentPathOf cur part))%nat.
Proof.
  intros Hpart. unfold segmentPathOf. destruct cur as [ | c cur ]; simpl.
  - destruct part; [ done | simpl; lia ].
  - rewrite length_app. simpl. lia.
Qed.

Lemma segmentPathOf_nonempty cur part : part ≠ [] → segmentPathOf cur part ≠ [].
Proof.
  intros Hpart Heq. pose proof (segmentPathOf_length cur part Hpart) as Hlen.
  rewrite Heq in Hlen. simpl in Hlen. lia.
Qed.

Lemma sameShape_lookup m m' k n' :
  sameShape m m' → m' !! k = Some n' →
  ∃ n, m !! k = Some n ∧ node_name n' = node_name n ∧ node_path n' = node_path n
       ∧ node_isDirectory n' = node_isDirectory n ∧ children n' ≡ₚ children n.
Proof.
  intros Hs Hk. specialize (Hs k). rewrite Hk in Hs.
  destruct (m !! k) as [ n | ]; [ by exists n | done ].
Qed.

Lemma sameShape_lookup_inv m m' k n :
  sameShape m m' → m !! k = Some n →
  ∃ n', m' !! k = Some n' ∧ node_name n' = node_name n ∧ node_path n' = node_path n
        ∧ node_isDirectory n' = node_isDirectory n ∧ children n' ≡ₚ children n.
Proof.
  intros Hs Hk. specialize (Hs k). rewrite Hk in Hs.
  destruct (m' !! k) as [ n' | ]; [ by exists n' | done ].
Qed.

Lemma rearranged_sameShape m m' : rearranged m m' → sameShape m m'.
Proof.
  intros Hr k. specialize (Hr k). destruct (m !! k), (m' !! k); try done.
  by destruct Hr as (? & ? & ? & ? & ?).
Qed.

Lemma treeShaped_sameShape m m' : sameShape m m' → treeShaped m → treeShaped m'.
Proof.
  intros Hs (Hroot & Hpath & Hchild & Hnodup & Hparent). split_and!.
  - destruct Hroot as (r & Hr & Hname & Hdir).
    destruct (sameShape_lookup_inv _ _ _ _ Hs Hr) as (r' & Hr' & Hn' & _ & Hd' & _).
    exists r'. by rewrite Hn', Hd'.
  - intros k n' Hk. destruct (sameShape_lookup _ _ _ _ Hs Hk) as (n & Hn & _ & Hp' & _).
    rewrite Hp'. by eapply Hpath.
  - intros k n' c Hk Hc.
    destruct (sameShape_lookup _ _ _ _ Hs Hk) as (n & Hn & _ & _ & _ & Hperm).
    rewrite Hperm in Hc. destruct (Hchild _ _ _ Hn Hc) as (nc & Hnc & Hne & Heq).
    destruct (sameShape_lookup_inv _ _ _ _ Hs Hnc) as (nc' & Hnc' & Hname & _).
    exists nc'. by rewrite Hname.
  - intros k n' Hk. destruct (sameShape_lookup _ _ _ _ Hs Hk) as (n & Hn & _ & _ & _ & Hperm).
    rewrite Hperm. by eapply Hnodup.
  - intros k n' Hk Hne. destruct (sameShape_lookup _ _ _ _ Hs Hk) as (n & Hn & _).
    destruct (Hparent _ _ Hn Hne) as (p & np & Hp & Hin).
    destruct (sameShape_lookup_inv _ _ _ _ Hs Hp) as (np' & Hnp' & _ & _ & _ & Hperm).
    exists p, np'. by rewrite Hperm.
Qed.

Lemma pushIssues_sameShape k iss m : sameShape m (pushIssues k iss m).
Proof.
  intros j. unfold pushIssues. rewrite lookup_alter.
  destruct (decide (k = j)) as [ -> | ]; destruct (m !! j); simpl; done.
Qed.

(** A new node under [cur]. *)
Lemma addNode_treeShaped m cur part node :
  treeShaped m → is_Some (m !! cur) → part ≠ [] →
  m !! segmentPathOf cur part = None →
  node_name node = part → node_path node = segmentPathOf cur part → children node = [] →
  treeShaped (pushChild cur (segmentPathOf cur part) (<[segmentPathOf cur part := node]> m)).
Proof.
  set (sp := segmentPathOf cur part).
  intros (Hroot & Hpath & Hchild & Hnodup & Hparent) [ncur Hcur] Hpart Hnone Hname Hnpath Hnil.
  assert (sp ≠ cur) as Hne by (intros Heq; rewrite Heq, Hcur in Hnone; done).
  assert (sp ≠ []) as Hsp by (by apply segmentPathOf_nonempty).
  assert (∀ j, pushChild cur sp (<[sp := node]> m) !! j
               = if decide (j = sp) then Some node
                 else if decide (j = cur)
                      then Some (mkNode (node_name ncur) (node_path ncur) (node_isDirectory ncur)
                                   (children ncur ++ [sp]) (node_issues ncur))
                      else m !! j) as Hlook.
  { intros j. unfold pushChild. rewrite lookup_alter.
    destruct (decide (cur = j)) as [ <- | Hcj ].
    - rewrite lookup_insert_ne by done. rewrite Hcur. simpl.
      rewrite decide_False by done. by rewrite decide_True.
    - destruct (decide (j = sp)) as [ -> | Hjs ].
      + by rewrite lookup_insert_eq.
      + rewrite lookup_insert_ne by done. by rewrite decide_False. }
  assert (∀ j n, m !! j = Some n →
                 ∃ n', pushChild cur sp (<[sp := node]> m) !! j = Some n'
                       ∧ node_name n' = node_name n
                       ∧ (∀ c, c ∈ children n → c ∈ children n')) as Hkeep.
  { intros j n Hj. rewrite Hlook.
    rewrite decide_False by (intros ->; rewrite Hnone in Hj; done).
    destruct (decide (j = cur)) as [ -> | ].
    - simplify_eq. eexists. split; [ done | ]. split; [ done | ].
      intros c Hc. simpl. apply elem_of_app. by left.
    - eauto. }
  split_and!.
  - destruct Hroot as (r & Hr & Hrname & Hrdir). rewrite Hlook.
    rewrite decide_False by done.
    destruct (decide ([] = cur)) as [ <- | ]; [ | by exists r ].
    simplify_eq. eexists. split; [ done | ]. by split.
  - intros j n. rewrite Hlook. destruct (decide (j = sp)) as [ -> | ].
    + by intros [= <-].
    + destruct (decide (j = cur)) as [ -> | ].
      * intros [= <-]. simpl. by eapply Hpath.
      * apply Hpath.
  - intros j n c. rewrite Hlook. destruct (decide (j = sp)) as [ -> | ].
    + intros [= <-]. rewrite Hnil. by intros ?%elem_of_nil.
    + destruct (decide (j = cur)) as [ -> | ].
      * intros [= <-]. simpl. intros [ Hc | ->%list_elem_of_singleton ]%elem_of_app.
        -- destruct (Hchild _ _ _ Hcur Hc) as (nc & Hnc & Hncne & Heq).
           destruct (Hkeep _ _ Hnc) as (nc' & Hnc' & Hname' & _).
           exists nc'. by rewrite Hname'.
        -- exists node. rewrite Hlook, decide_True by done. by rewrite Hname.
      * intros Hj Hc. destruct (Hchild _ _ _ Hj Hc) as (nc & Hnc & Hncne & Heq).
        destruct (Hkeep _ _ Hnc) as (nc' & Hnc' & Hname' & _).
        exists nc'. by rewrite Hname'.
  - intros j n. rewrite Hlook. destruct (decide (j = sp)) as [ -> | ].
    + intros [= <-]. rewrite Hnil. constructor.
    + destruct (decide (j = cur)) as [ -> | ].
      * intros [= <-]. simpl. apply NoDup_app. split_and!.
        -- by eapply Hnodup.
        -- intros c Hc ->%list_elem_of_singleton.
           destruct (Hchild _ _ _ Hcur Hc) as (nc & Hnc & _). by rewrite Hnone in Hnc.
        -- apply NoDup_singleton.
      * apply Hnodup.
  - intros j n. rewrite Hlook. destruct (decide (j = sp)) as [ -> | ].
    + intros [= <-] _. eexists cur, _. rewrite Hlook.
      rewrite decide_False, decide_True by done. split; [ done | ].
      simpl. apply elem_of_app. right. apply list_elem_of_here.
    + intros Hj Hjne.
      assert (∃ old, m !! j = Some old) as [old Hold].
      { destruct (decide (j = cur)) as [ -> | ]; eauto. }
      destruct (Hparent _ _ Hold Hjne) as (p & np & Hp & Hin).
      destruct (Hkeep _ _ Hp) as (np' & Hnp' & _ & Hsub).
      exists p, np'. split; [ done | by apply Hsub ].
Qed.

Lemma descendant_snoc m k p np j :
  descendant m k p → m !! p = Some np → j ∈ children np → descendant m k j.
Proof.
  induction 1 as [ k | k n c p Hk Hc Hd IH ]; intros Hp Hj.
  - eapply descendant_child; [ done | done | constructor ].
  - eapply descendant_child; [ done | done | by apply IH ].
Qed.

(** Every node of a tree is the root or below it. *)
Lemma descendant_root m j :
  treeShaped m → is_Some (m !! j) → descendant m [] j.
Proof.
  intros Hm. remember (length j) as len eqn:Hlen.
  revert j Hlen. induction (lt_wf len) as [ len _ IH ]. intros j -> [n Hj].
  destruct (decide (j = [])) as [ -> | Hne ]; [ constructor | ].
  destruct Hm as (Hroot & Hpath & Hchild & Hnodup & Hparent).
  destruct (Hparent _ _ Hj Hne) as (p & np & Hp & Hin).
  destruct (Hchild _ _ _ Hp Hin) as (nc & Hnc & Hname & Heq).
  pose proof (segmentPathOf_length p (node_name nc) Hname) as Hlt.
  rewrite <- Heq in Hlt.
  apply (descendant_snoc m [] p np j); [ | done | done ].
  apply (IH _ Hlt p eq_refl). by eexists.
Qed.

Lemma rearranged_refl m : rearranged m m.
Proof. intros k. by destruct (m !! k). Qed.

Lemma enoughFuel_bound m k n : m !! k = Some n → (length k < enoughFuel m)%nat.
Proof.
  intros Hk. apply elem_of_map_to_list in Hk. unfold enoughFuel.
  induction (map_to_list m) as [ | kv l IH ]; [ by apply elem_of_nil in Hk | ].
  apply elem_of_cons in Hk as [ <- | Hk ]; simpl in *.
  - lia.
  - specialize (IH Hk). lia.
Qed.

Section TreeProperties.
Variable localeCompare : JSString → JSString → Z.

Lemma walk_treeShaped entry parts : ∀ cur m,
  treeShaped m → is_Some (m !! cur) → Forall (λ p, p ≠ []) parts →
  treeShaped (walk entry parts cur cur m).
Proof.
  induction parts as [ | part rest IH ]; intros cur m Hm Hcur Hparts; simpl; [ done | ].
  apply Forall_cons in Hparts as [Hpart Hrest].
  destruct (m !! segmentPathOf cur part) as [ node | ] eqn:Hsp.
  - apply IH; [ | | done ].
    + destruct (_ && _); [ | done ].
      eapply treeShaped_sameShape; [ apply pushIssues_sameShape | done ].
    + destruct (_ && _); [ | by eexists ].
      unfold pushIssues. rewrite lookup_alter_eq, Hsp. by eexists.
  - destruct (_ || _).
    + apply IH; [ by apply addNode_treeShaped | | done ].
      unfold pushChild. rewrite lookup_alter.
      destruct (decide (cur = segmentPathOf cur part)) as [ <- | ];
        rewrite lookup_insert_eq; by eexists.
    + by apply addNode_treeShaped.
Qed.

Lemma entryParts_nonempty e : Forall (λ p, p ≠ []) (entryParts e).
Proof.
  unfold entryParts. apply Forall_forall. intros p [Hp _]%list_elem_of_filter.
  by destruct p.
Qed.

Lemma insertEntry_treeShaped m e : treeShaped m → treeShaped (insertEntry m e).
Proof.
  intros Hm. unfold insertEntry. apply walk_treeShaped; [ done | | ].
  - destruct Hm as ((r & Hr & _) & _). by eexists.
  - apply entryParts_nonempty.
Qed.

Lemma buildNodes_treeShaped entries : treeShaped (buildNodes localeCompare entries).
Proof.
  unfold buildNodes. generalize (sortArray (compareEntries localeCompare) entries).
  intros sorted.
  assert (treeShaped (<[[] := root]> ∅)) as Hinit.
  { split_and!.
    - exists root. by rewrite lookup_insert_eq.
    - intros k n [ [<- <-] | [_ Hn] ]%lookup_insert_Some; [ done | ].
      by rewrite lookup_empty in Hn.
    - intros k n c [ [<- <-] | [_ Hn] ]%lookup_insert_Some.
      + by intros ?%elem_of_nil.
      + by rewrite lookup_empty in Hn.
    - intros k n [ [<- <-] | [_ Hn] ]%lookup_insert_Some; [ constructor | ].
      by rewrite lookup_empty in Hn.
    - intros k n [ [<- <-] | [_ Hn] ]%lookup_insert_Some; [ done | ].
      by rewrite lookup_empty in Hn. }
  revert Hinit. generalize (<[[] := root]> (∅ : gmap JSString TreeNode)).
  induction sorted as [ | e sorted IH ]; intros m Hm; simpl; [ done | ].
  apply IH. by apply insertEntry_treeShaped.
Qed.

(** [sortTree] on a tree [m0], for a property [Q] that sorted lists of
    children have. *)
Section SortTree.
Variable m0 : gmap JSString TreeNode.
Hypothesis m0_shaped : treeShaped m0.
Variable Q : list JSString → Prop.
Hypothesis Q_sorted :
  ∀ l, Q (sortArray (λ a b, compareNodes localeCompare (m0 !!! a) (m0 !!! b)) l).
Variable bound : nat.
Hypothesis bound_ok : ∀ k n, m0 !! k = Some n → (length k < bound)%nat.

Lemma compareNodes_rearranged m a b :
  rearranged m0 m →
  compareNodes localeCompare (m !!! a) (m !!! b)
  = compareNodes localeCompare (m0 !!! a) (m0 !!! b).
Proof.
  intros Hr. rewrite !lookup_total_alt.
  pose proof (Hr a) as Ha. pose proof (Hr b) as Hb.
  unfold compareNodes.
  destruct (m0 !! a) as [ na0 | ], (m !! a) as [ na | ]; try done;
    destruct (m0 !! b) as [ nb0 | ], (m !! b) as [ nb | ]; try done; simpl;
    repeat match goal with
           | H : _ ∧ _ |- _ => destruct H as (? & ? & ? & ? & ?)
           end;
    repeat match goal with
           | H : node_name _ = _ |- _ => rewrite H; clear H
           | H : node_isDirectory _ = _ |- _ => rewrite H; clear H
           end; done.
Qed.

Lemma sortTree_spec fuel : ∀ k m,
  rearranged m0 m → is_Some (m0 !! k) → (bound ≤ fuel + length k)%nat →
  ∃ m', sortTree localeCompare fuel k m = Some m'
        ∧ rearranged m0 m'
        ∧ (∀ j n', m' !! j = Some n' → m !! j = Some n' ∨ Q (children n'))
        ∧ (∀ j n', descendant m0 k j → m' !! j = Some n' → Q (children n')).
Proof.
  induction fuel as [ | fuel IH ]; intros k m Hr [n0 Hk] Hb.
  { apply bound_ok in Hk. lia. }
  simpl. pose proof (Hr k) as Hrk. rewrite Hk in Hrk.
  destruct (m !! k) as [ n | ] eqn:Hmk; [ | done ].
  destruct Hrk as (Hname & Hpath & Hdir & Hiss & Hperm).
  rewrite (sortArray_ext _ (λ a b, compareNodes localeCompare (m0 !!! a) (m0 !!! b)))
    by (intros a b; by apply compareNodes_rearranged).
  set (sorted := sortArray _ (children n)).
  set (m1 := <[k := _]> m).
  assert (sorted ≡ₚ children n0) as Hsorted.
  { unfold sorted. by rewrite sortArray_Permutation. }
  assert (rearranged m0 m1) as Hr1.
  { intros j. unfold m1. destruct (decide (k = j)) as [ <- | Hne ].
    - rewrite lookup_insert_eq, Hk. by simpl.
    - rewrite lookup_insert_ne by done. apply Hr. }
  assert (∀ j n', m1 !! j = Some n' → m !! j = Some n' ∨ Q (children n')) as Hp1.
  { intros j n'. unfold m1. destruct (decide (k = j)) as [ <- | Hne ].
    - rewrite lookup_insert_eq. intros [= <-]. right. apply Q_sorted.
    - rewrite lookup_insert_ne by done. auto. }
  assert (∀ cs m1,
            rearranged m0 m1 → (∀ c, c ∈ cs → c ∈ children n0) →
            ∃ m', foldl (λ acc child, acc ≫= sortTree localeCompare fuel child)
                    (Some m1) cs = Some m'
                  ∧ rearranged m0 m'
                  ∧ (∀ j n', m' !! j = Some n' → m1 !! j = Some n' ∨ Q (children n'))
                  ∧ (∀ c j n', c ∈ cs → descendant m0 c j → m' !! j = Some n' →
                               Q (children n'))) as Hfold.
  { clear m1 Hr1 Hp1. induction cs as [ | c cs IHcs ]; intros m1 Hr1 Hcs.
    - exists m1. split_and!; auto. intros c j n' Hc. by apply elem_of_nil in Hc.
    - simpl.
      destruct m0_shaped as (_ & _ & Hchild & _).
      destruct (Hchild _ _ c Hk) as (nc & Hnc & Hncname & Hceq).
      { apply Hcs. apply list_elem_of_here. }
      destruct (IH c m1 Hr1) as (m2 & Hm2 & Hr2 & Hp2 & Hd2); [ by eexists | | ].
      { pose proof (segmentPathOf_length k (node_name nc) Hncname) as Hlen.
        rewrite <- Hceq in Hlen. lia. }
      rewrite Hm2.
      destruct (IHcs m2 Hr2) as (m' & Hm' & Hr' & Hp' & Hd').
      { intros c' Hc'. apply Hcs. by apply list_elem_of_further. }
      exists m'. split_and!; try done.
      + intros j n' Hj. destruct (Hp' _ _ Hj) as [ Hj2 | ? ]; [ | by right ].
        by apply Hp2.
      + intros c' j n' [ -> | Hc' ]%elem_of_cons Hdesc Hj.
        * destruct (Hp' _ _ Hj) as [ Hj2 | ? ]; [ | done ]. by eapply Hd2.
        * by eapply Hd'. }
  destruct (Hfold sorted m1 Hr1) as (m' & Hm' & Hr' & Hp' & Hd').
  { intros c Hc. by rewrite <- Hsorted. }
  exists m'. split_and!; try done.
  - intros j n' Hj. destruct (Hp' _ _ Hj) as [ Hj1 | ? ]; [ | by right ].
    by apply Hp1.
  - intros j n' Hdesc Hj. inversion Hdesc as [ | ? nk c ? Hnk Hc Hcj ]; subst.
    + destruct (Hp' _ _ Hj) as [ Hj1 | ? ]; [ | done ].
      unfold m1 in Hj1. rewrite lookup_insert_eq in Hj1. simplify_eq.
      apply Q_sorted.
    + simplify_eq. eapply Hd'; [ | done | done ]. by rewrite Hsorted.
Qed.
End SortTree.

(** [buildTree] returns: the fuel it gives [sortTree] is enough. The tree
    returned has the nodes built from the entries, and what holds of
    every sorted list holds of the children of each. *)
Lemma buildTree_spec entries (Q : list JSString → Prop) :
  (∀ l, Q (sortArray (λ a b, compareNodes localeCompare
                               (buildNodes localeCompare entries !!! a)
                               (buildNodes localeCompare entries !!! b)) l)) →
  ∃ t, buildTree localeCompare entries = Some t
       ∧ rearranged (buildNodes localeCompare entries) t
       ∧ ∀ k n, t !! k = Some n → Q (children n).
Proof.
  intros HQ. unfold buildTree.
  set (m0 := buildNodes localeCompare entries) in *.
  pose proof (buildNodes_treeShaped entries) as Hm0. fold m0 in Hm0.
  destruct (sortTree_spec m0 Hm0 Q HQ (enoughFuel m0) (enoughFuel_bound m0)
              (enoughFuel m0) [] m0) as (t & Ht & Hr & _ & Hd).
  - apply rearranged_refl.
  - destruct Hm0 as ((r & Hr & _) & _). by eexists.
  - lia.
  - exists t. split_and!; try done. intros k n Hk. eapply Hd; [ | done ].
    apply descendant_root; [ done | ].
    specialize (Hr k). rewrite Hk in Hr. by destruct (m0 !! k).
Qed.
(** ** The issues of the nodes *)

Lemma join_segment (a p : JSString) ps :
  join [SLASH] ((a ++ [SLASH] ++ p) :: ps) = a ++ [SLASH] ++ join [SLASH] (p :: ps).
Proof. destruct ps; simpl; [ done | ]. by rewrite <- !app_assoc. Qed.

Lemma foldl_segmentPathOf parts : ∀ cur,
  cur ≠ [] → foldl segmentPathOf cur parts = join [SLASH] (cur :: parts).
Proof.
  induction parts as [ | p ps IH ]; intros cur Hcur; [ done | ].
  cbn [foldl]. unfold segmentPathOf at 2. destruct cur as [ | c cur ]; [ done | ].
  cbn [truthy]. rewrite IH by done. rewrite join_segment. by destruct ps.
Qed.

Lemma foldl_segmentPathOf_root parts :
  Forall (λ p, p ≠ []) parts → foldl segmentPathOf [] parts = join [SLASH] parts.
Proof.
  destruct parts as [ | p ps ]; [ done | ]. intros [Hp _]%Forall_cons.
  cbn [foldl]. by apply foldl_segmentPathOf.
Qed.

Lemma issuesOf_pushChild cur c m j : issuesOf (pushChild cur c m) j = issuesOf m j.
Proof.
  unfold issuesOf, pushChild. rewrite lookup_alter.
  destruct (decide (cur = j)) as [ -> | ]; [ | done ]. by destruct (m !! j).
Qed.

Lemma issuesOf_insert sp node m j :
  issuesOf (<[sp := node]> m) j = if decide (sp = j) then node_issues node else issuesOf m j.
Proof.
  unfold issuesOf. destruct (decide (sp = j)) as [ -> | ].
  - by rewrite lookup_insert_eq.
  - by rewrite lookup_insert_ne.
Qed.

(** What the walk of an entry does to the issues of the nodes: those of
    a file entry are added at the node its walk ends at. *)
Lemma walk_issues entry parts j : ∀ cur m,
  issuesOf (walk entry parts cur cur m) j
  = issuesOf m j
    ++ (if decide (entry_isDirectory entry = false ∧ parts ≠ []
                   ∧ foldl segmentPathOf cur parts = j)
        then entry_issues entry else []).
Proof.
  induction parts as [ | part rest IH ]; intros cur m.
  { simpl. rewrite decide_False by (by intros (_ & ? & _)). by rewrite app_nil_r. }
  cbn [walk foldl]. set (sp := segmentPathOf cur part).
  destruct (m !! sp) as [ node | ] eqn:Hsp.
  - rewrite IH. destruct rest as [ | part' rest ]; cbn [andb foldl].
    + rewrite (decide_False (P := _ ∧ [] ≠ [] ∧ _)) by (by intros (_ & ? & _)).
      rewrite app_nil_r. destruct (entry_isDirectory entry) eqn:Hdir; cbn [negb].
      * rewrite decide_False by (by intros (? & _)). by rewrite app_nil_r.
      * unfold issuesOf, pushIssues. rewrite lookup_alter.
        destruct (decide (sp = j)) as [ <- | Hne ].
        -- rewrite Hsp. simpl. by rewrite decide_True.
        -- rewrite decide_False by (by intros (_ & _ & ?)). by rewrite app_nil_r.
    + cbn [andb]. f_equal.
      destruct (decide (_ ∧ part' :: rest ≠ [] ∧ _)) as [ (? & _ & ?) | Hn ].
      * by rewrite decide_True.
      * rewrite decide_False; [ done | ]. intros (? & _ & ?). by apply Hn.
  - assert (issuesOf m sp = []) as Hnone by (unfold issuesOf; by rewrite Hsp).
    destruct rest as [ | part' rest ]; cbn [negb orb foldl].
    + destruct (entry_isDirectory entry) eqn:Hdir.
      * cbn [walk]. rewrite issuesOf_pushChild, issuesOf_insert. cbn [node_issues].
        rewrite (decide_False (P := _ ∧ _ ∧ _)) by (by intros (? & _)).
        rewrite app_nil_r.
        destruct (decide (sp = j)) as [ <- | ]; [ by rewrite Hnone | done ].
      * rewrite issuesOf_pushChild, issuesOf_insert. cbn [node_issues].
        destruct (decide (sp = j)) as [ <- | Hne ].
        -- rewrite Hnone, decide_True; done.
        -- rewrite decide_False by (by intros (_ & _ & ?)). by rewrite app_nil_r.
    + rewrite IH, issuesOf_pushChild, issuesOf_insert. cbn [node_issues].
      assert ((if decide (sp = j) then [] else issuesOf m j) = issuesOf m j) as ->.
      { destruct (decide (sp = j)) as [ <- | ]; [ by rewrite Hnone | done ]. }
      f_equal.
      destruct (decide (_ ∧ part' :: rest ≠ [] ∧ _)) as [ (? & _ & ?) | Hn ].
      * by rewrite decide_True.
      * rewrite decide_False; [ done | ]. intros (? & _ & ?). by apply Hn.
Qed.

Lemma insertEntry_issues m e j :
  issuesOf (insertEntry m e) j
  = issuesOf m j ++ (if decide (fileAt j e) then entry_issues e else []).
Proof.
  unfold insertEntry. fold (entryParts e). rewrite walk_issues.
  rewrite (foldl_segmentPathOf_root _ (entryParts_nonempty e)).
  reflexivity.
Qed.

Lemma fileIssuesAt_snoc es e j :
  fileIssuesAt (es ++ [e]) j
  = fileIssuesAt es j ++ (if decide (fileAt j e) then entry_issues e else []).
Proof.
  unfold fileIssuesAt. rewrite filter_app, map_app, concat_app. f_equal.
  rewrite filter_cons, filter_nil. destruct (decide (fileAt j e)); simpl; [ | done ].
  by rewrite app_nil_r.
Qed.

Lemma foldl_insertEntry_issues es : ∀ done m,
  (∀ j, issuesOf m j = fileIssuesAt done j) →
  ∀ j, issuesOf (foldl insertEntry m es) j = fileIssuesAt (done ++ es) j.
Proof.
  induction es as [ | e es IH ]; intros done m Hm j; simpl.
  - by rewrite app_nil_r.
  - rewrite (IH (done ++ [e])); [ by rewrite <- app_assoc | ].
    intros j'. by rewrite insertEntry_issues, fileIssuesAt_snoc, Hm.
Qed.

Lemma buildNodes_issues entries j :
  issuesOf (buildNodes localeCompare entries) j
  = fileIssuesAt (sortArray (compareEntries localeCompare) entries) j.
Proof.
  unfold buildNodes. apply (foldl_insertEntry_issues _ []).
  intros j'. rewrite issuesOf_insert. by destruct (decide _).
Qed.
End TreeProperties.

(** ** The tree returned *)

Lemma compareNodes_total localeCompare :
  (∀ a b, (localeCompare a b ≤ 0 ∨ localeCompare b a ≤ 0)%Z) →
  ∀ a b, (compareNodes localeCompare a b ≤ 0 ∨ compareNodes localeCompare b a ≤ 0)%Z.
Proof.
  intros Htotal a b. unfold compareNodes.
  destruct (node_isDirectory a), (node_isDirectory b); simpl; try lia; apply Htotal.
Qed.

Lemma compareNodes_trans localeCompare :
  (∀ a b c, (localeCompare a b ≤ 0 → localeCompare b c ≤ 0 → localeCompare a c ≤ 0)%Z) →
  ∀ a b c, (compareNodes localeCompare a b ≤ 0 → compareNodes localeCompare b c ≤ 0 →
            compareNodes localeCompare a c ≤ 0)%Z.
Proof.
  intros Htrans a b c. unfold compareNodes.
  destruct (node_isDirectory a), (node_isDirectory b), (node_isDirectory c); simpl;
    try lia; apply Htrans.
Qed.

(** C7. With a [localeCompare] that is a consistent comparator (any two
    names compare one way or the other, and transitively), [buildTree]
    returns a tree in which the children of every node are sorted: a child
    that comes before another one compares at most equal to it, so that no
    file child comes before a directory child, and children of the same
    kind are in the order of their names. In particular a directory child
    comes before every file child of the same node, whatever their names
    and the order of the entries. *)
Theorem buildTree_children_sorted localeCompare entries :
  (∀ a b, (localeCompare a b ≤ 0 ∨ localeCompare b a ≤ 0)%Z) →
  (∀ a b c, (localeCompare a b ≤ 0 → localeCompare b c ≤ 0 → localeCompare a c ≤ 0)%Z) →
  ∃ t, buildTree localeCompare entries = Some t
       ∧ ∀ k n, t !! k = Some n →
           StronglySorted (λ a b, (compareNodes localeCompare (t !!! a) (t !!! b) ≤ 0)%Z)
             (children n)
           ∧ ∀ i j a b, children n !! i = Some a → children n !! j = Some b →
               ((i < j)%nat →
                (node_isDirectory (t !!! b) = true → node_isDirectory (t !!! a) = true)
                ∧ (node_isDirectory (t !!! a) = node_isDirectory (t !!! b) →
                   (localeCompare (node_name (t !!! a)) (node_name (t !!! b)) ≤ 0)%Z))
               ∧ (node_isDirectory (t !!! a) = true → node_isDirectory (t !!! b) = false →
                  (i < j)%nat).
Proof.
  intros Htotal Htrans.
  set (m0 := buildNodes localeCompare entries).
  destruct (buildTree_spec localeCompare entries
              (StronglySorted (λ a b, (compareNodes localeCompare (m0 !!! a) (m0 !!! b) ≤ 0)%Z)))
    as (t & Ht & Hr & Hsorted).
  { intros l.
    apply (sortArray_StronglySorted
             (λ a b, compareNodes localeCompare (m0 !!! a) (m0 !!! b))).
    - intros a b. by apply compareNodes_total.
    - intros a b c. by apply compareNodes_trans. }
  exists t. split; [ done | ]. intros k n Hk.
  assert (StronglySorted (λ a b, (compareNodes localeCompare (t !!! a) (t !!! b) ≤ 0)%Z)
            (children n)) as Hs.
  { eapply StronglySorted_impl; [ | by eapply Hsorted ].
    intros a b. simpl. by rewrite (compareNodes_rearranged localeCompare m0 t a b Hr). }
  split; [ done | ].
  assert (∀ i j a b, children n !! i = Some a → children n !! j = Some b → (i < j)%nat →
                     (compareNodes localeCompare (t !!! a) (t !!! b) ≤ 0)%Z) as Hle.
  { intros i j a b Hi Hj Hij.
    by apply (StronglySorted_lookup _ (children n) i j a b Hs). }
  intros i j a b Hi Hj. split.
  - intros Hij. specialize (Hle i j a b Hi Hj Hij). unfold compareNodes in Hle.
    destruct (node_isDirectory (t !!! a)), (node_isDirectory (t !!! b));
      simpl in Hle; split; intros; try done; lia.
  - intros Ha Hb. destruct (decide (i < j)%nat) as [ | Hge ]; [ done | ].
    destruct (decide (i = j)) as [ -> | Hne ]; [ simplify_eq; congruence | ].
    assert (j < i)%nat as Hji by lia.
    specialize (Hle j i b a Hj Hi Hji). unfold compareNodes in Hle.
    rewrite Ha, Hb in Hle. simpl in Hle. lia.
Qed.

Lemma buildTree_children_sorted_witness :
  ∃ t, buildTree codeUnitCompare file_a_dir_b = Some t
       ∧ ∀ k n, t !! k = Some n →
           StronglySorted (λ a b, (compareNodes codeUnitCompare (t !!! a) (t !!! b) ≤ 0)%Z)
             (children n)
           ∧ ∀ i j a b, children n !! i = Some a → children n !! j = Some b →
               ((i < j)%nat →
                (node_isDirectory (t !!! b) = true → node_isDirectory (t !!! a) = true)
                ∧ (node_isDirectory (t !!! a) = node_isDirectory (t !!! b) →
                   (codeUnitCompare (node_name (t !!! a)) (node_name (t !!! b)) ≤ 0)%Z))
               ∧ (node_isDirectory (t !!! a) = true → node_isDirectory (t !!! b) = false →
                  (i < j)%nat).
Proof.
  apply (buildTree_children_sorted codeUnitCompare file_a_dir_b).
  - intros a b. apply codeUnitCompare_total.
  - intros a b c. apply codeUnitCompare_trans.
Defined.

(** The directory [b] comes before the file [a], in whichever order the
    two entries are given. *)
Example directory_b_before_file_a :
  (children <$> (buildTree codeUnitCompare file_a_dir_b ≫= (.!! [])))
  = Some [str "b"; str "a"]
  ∧ (children <$> (buildTree codeUnitCompare (rev file_a_dir_b) ≫= (.!! [])))
    = Some [str "b"; str "a"].
Proof. by vm_compute. Qed.

(** C9. The tree [buildTree] returns has one root, the node of empty path
    and name, which is the child of no node; every other node is the
    child of a node, and below the root; the children of a node have
    distinct names; and the path of a child is the path of its parent, a
    slash and its own name, or its name alone under the root. *)
Theorem buildTree_structure localeCompare entries :
  ∃ t, buildTree localeCompare entries = Some t
       ∧ (∃ r, t !! [] = Some r ∧ node_path r = [] ∧ node_name r = [])
       ∧ (∀ k n, t !! k = Some n → node_path n = k)
       ∧ (∀ k n, t !! k = Some n → node_path n = [] → k = [])
       ∧ (∀ k n, t !! k = Some n → [] ∉ children n)
       ∧ (∀ k n, t !! k = Some n → k ≠ [] →
            ∃ p np, t !! p = Some np ∧ k ∈ children np)
       ∧ (∀ k, is_Some (t !! k) → descendant t [] k)
       ∧ (∀ k n, t !! k = Some n →
            NoDup ((λ c, node_name (t !!! c)) <$> children n))
       ∧ (∀ k n c, t !! k = Some n → c ∈ children n →
            ∃ nc, t !! c = Some nc
                  ∧ node_path nc
                    = match node_path n with
                      | [] => node_name nc
                      | _ :: _ => node_path n ++ [SLASH] ++ node_name nc
                      end).
Proof.
  destruct (buildTree_spec localeCompare entries (λ _, True)) as (t & Ht & Hr & _);
    [ done | ].
  exists t. split; [ done | ].
  pose proof (treeShaped_sameShape _ _ (rearranged_sameShape _ _ Hr)
                (buildNodes_treeShaped localeCompare entries)) as Hshaped.
  pose proof Hshaped as (Hroot & Hpath & Hchild & Hnodup & Hparent).
  split_and!.
  - destruct Hroot as (r & Hr0 & Hname & _). exists r. split_and!; try done.
    by eapply Hpath.
  - done.
  - intros k n Hk Hnil. by rewrite <- (Hpath _ _ Hk).
  - intros k n Hk Hin. destruct (Hchild _ _ _ Hk Hin) as (nc & _ & Hname & Heq).
    symmetry in Heq. by apply segmentPathOf_nonempty in Heq.
  - done.
  - intros k Hk. by apply descendant_root.
  - intros k n Hk. apply NoDup_fmap_2_strong; [ | by eapply Hnodup ].
    intros c1 c2 Hc1 Hc2 Heq.
    destruct (Hchild _ _ _ Hk Hc1) as (n1 & Hn1 & _ & ->).
    destruct (Hchild _ _ _ Hk Hc2) as (n2 & Hn2 & _ & ->).
    rewrite (lookup_total_correct _ _ _ Hn1), (lookup_total_correct _ _ _ Hn2) in Heq.
    by rewrite Heq.
  - intros k n c Hk Hc. destruct (Hchild _ _ _ Hk Hc) as (nc & Hnc & _ & Heq).
    exists nc. split; [ done | ].
    rewrite (Hpath _ _ Hnc), (Hpath _ _ Hk). rewrite Heq at 1.
    unfold segmentPathOf. by destruct k.
Qed.

(** C8, as the code has it. The issues of a node are those of the file
    entries whose walk ends at the node, in the order in which the entries
    are inserted. The issues of a directory entry are attached to no node:
    a node that no file entry names, be it the node of a directory entry
    or an intermediate directory, has no issues. *)
Theorem buildTree_issues localeCompare entries :
  ∃ t, buildTree localeCompare entries = Some t
       ∧ ∀ k n, t !! k = Some n →
           node_issues n = fileIssuesAt (sortArray (compareEntries localeCompare) entries) k
           ∧ ((∀ e, e ∈ entries → ¬ fileAt k e) → node_issues n = []).
Proof.
  destruct (buildTree_spec localeCompare entries (λ _, True)) as (t & Ht & Hr & _);
    [ done | ].
  exists t. split; [ done | ]. intros k n Hk.
  assert (node_issues n = fileIssuesAt (sortArray (compareEntries localeCompare) entries) k)
    as Hissues.
  { rewrite <- buildNodes_issues. unfold issuesOf.
    specialize (Hr k). rewrite Hk in Hr.
    destruct (buildNodes localeCompare entries !! k); [ | done ].
    by destruct Hr as (_ & _ & _ & ? & _). }
  split; [ done | ]. intros Hnone. rewrite Hissues. unfold fileIssuesAt.
  destruct (filter (fileAt k) (sortArray (compareEntries localeCompare) entries))
    as [ | e l ] eqn:Hfilter; [ done | ].
  assert (e ∈ filter (fileAt k) (sortArray (compareEntries localeCompare) entries)) as Hin
    by (rewrite Hfilter; apply list_elem_of_here).
  apply list_elem_of_filter in Hin as [Hfile Hin].
  rewrite sortArray_Permutation in Hin. by destruct (Hnone e Hin).
Qed.

(** C8 as stated fails on the directory entry that [processPaths] makes of
    the line [CON/]: the entry has an issue, its name being reserved, and
    its node has none. *)
Lemma buildTree_issues_counterexample :
  ∃ r e t n,
    run (processPaths (str "CON/")) = Returned r []
    ∧ entries r = [e]
    ∧ map issue_type (entry_issues e) = [reserved]
    ∧ buildTree codeUnitCompare (entries r) = Some t
    ∧ t !! entry_path e = Some n
    ∧ node_issues n = []
    ∧ node_issues n ≠ entry_issues e.
Proof.
  eexists _, _, _, _. split; [ by vm_compute | ].
  split; [ reflexivity | ]. split; [ by vm_compute | ].
  split; [ by vm_compute | ]. split; [ by vm_compute | ].
  split; [ reflexivity | ]. by vm_compute.
Qed.

(** * Properties of [normalizePath] *)

(** ** Cutting and joining strings *)

Lemma split_nonempty sep s : split sep s ≠ [].
Proof.
  destruct s as [ | c s ]; simpl; [ done | ].
  destruct (c =? sep); [ done | ]. by destruct (split sep s).
Qed.

Lemma split_cons_eq sep s : split sep (sep :: s) = [] :: split sep s.
Proof. simpl. by rewrite N.eqb_refl. Qed.

Lemma split_cons_ne sep c s :
  c ≠ sep → split sep (c :: s) = (c :: hd [] (split sep s)) :: tl (split sep s).
Proof.
  intros Hne. simpl. apply N.eqb_neq in Hne. rewrite Hne.
  pose proof (split_nonempty sep s). by destruct (split sep s).
Qed.

Lemma split_hd_tl sep s : split sep s = hd [] (split sep s) :: tl (split sep s).
Proof. pose proof (split_nonempty sep s). by destruct (split sep s). Qed.

Lemma split_no_sep sep s : Forall (λ seg, sep ∉ seg) (split sep s).
Proof.
  induction s as [ | c s IH ]; simpl.
  - repeat constructor. by intros ?%elem_of_nil.
  - destruct (c =? sep) eqn:Hc.
    + constructor; [ by intros ?%elem_of_nil | done ].
    + apply N.eqb_neq in Hc. destruct (split sep s) as [ | seg segs ].
      * repeat constructor. intros [ -> | ?%elem_of_nil ]%elem_of_cons; done.
      * apply Forall_cons in IH as [Hseg Hsegs]. constructor; [ | done ].
        intros [ -> | ? ]%elem_of_cons; done.
Qed.

Lemma split_sep_free sep s : sep ∉ s → split sep s = [s].
Proof.
  induction s as [ | c s IH ]; intros Hs; [ done | ].
  apply not_elem_of_cons in Hs as [Hc Hs].
  rewrite split_cons_ne by done. by rewrite IH.
Qed.

Lemma split_app_sep sep a b : split sep (a ++ sep :: b) = split sep a ++ split sep b.
Proof.
  induction a as [ | c a IH ].
  - simpl. by rewrite N.eqb_refl.
  - cbn [app]. destruct (decide (c = sep)) as [ -> | Hne ].
    + rewrite !split_cons_eq, IH. done.
    + rewrite !split_cons_ne by done. rewrite IH.
      rewrite (split_hd_tl sep a). done.
Qed.

Lemma join_cons sep x l : l ≠ [] → join sep (x :: l) = x ++ sep ++ join sep l.
Proof. by destruct l. Qed.

Lemma join_split sep s : join [sep] (split sep s) = s.
Proof.
  induction s as [ | c s IH ]; [ done | ].
  destruct (decide (c = sep)) as [ -> | Hne ].
  - rewrite split_cons_eq, join_cons by apply split_nonempty. by rewrite IH.
  - rewrite split_cons_ne by done. pose proof (split_nonempty sep s) as Hs.
    destruct (split sep s) as [ | seg [ | seg' segs ] ]; [ done | | ];
      simpl in *; congruence.
Qed.

Lemma split_join sep parts :
  parts ≠ [] → Forall (λ seg, sep ∉ seg) parts → split sep (join [sep] parts) = parts.
Proof.
  induction parts as [ | p parts IH ]; [ done | ]. intros _ [Hp Hparts]%Forall_cons.
  destruct parts as [ | q parts ].
  - simpl. by apply split_sep_free.
  - rewrite join_cons by done. cbn [app]. rewrite split_app_sep.
    rewrite split_sep_free by done. by rewrite IH.
Qed.

(** ** The slash handling of [normalizePath] *)

Lemma segments_cons_slash s : segments (SLASH :: s) = segments s.
Proof. unfold segments. rewrite split_cons_eq. by rewrite filter_cons_False by auto. Qed.

Lemma segments_hd_tl s :
  segments s = filter (λ x, x ≠ []) (hd [] (split SLASH s) :: tl (split SLASH s)).
Proof. unfold segments. by rewrite <- split_hd_tl. Qed.

Lemma collapseSlashes_segments s :
  (hd [] (split SLASH (collapseSlashes false s)) = hd [] (split SLASH s)
   ∧ filter (λ x, x ≠ []) (tl (split SLASH (collapseSlashes false s)))
     = filter (λ x, x ≠ []) (tl (split SLASH s)))
  ∧ segments (collapseSlashes true s) = segments s.
Proof.
  induction s as [ | c s [[IHh IHt] IHs] ]; [ done | ].
  destruct (decide (c = SLASH)) as [ -> | Hne ].
  - cbn [collapseSlashes]. rewrite N.eqb_refl. split; [ | by rewrite segments_cons_slash ].
    rewrite !split_cons_eq. cbn [hd tl]. split; [ done | ]. apply IHs.
  - assert (∀ b, collapseSlashes b (c :: s) = c :: collapseSlashes false s) as Hc.
    { intros b. cbn [collapseSlashes]. apply N.eqb_neq in Hne. by rewrite Hne. }
    rewrite !Hc. rewrite !segments_hd_tl, !split_cons_ne by done. cbn [hd tl].
    rewrite !filter_cons, IHh, IHt. done.
Qed.

Lemma dropSlashes_segments s : segments (dropSlashes s) = segments s.
Proof.
  induction s as [ | c s IH ]; [ done | ]. cbn [dropSlashes].
  destruct (c =? SLASH) eqn:Hc; [ | done ].
  apply N.eqb_eq in Hc as ->. by rewrite segments_cons_slash.
Qed.

Lemma dropSlashes_snoc a c :
  dropSlashes (a ++ [c])
  = match dropSlashes a with
    | [] => dropSlashes [c]
    | d => d ++ [c]
    end.
Proof.
  induction a as [ | x a IH ]; [ done | ]. cbn [app dropSlashes].
  destruct (x =? SLASH); [ done | ]. done.
Qed.

(** Dropping the slashes at the end, from the left. *)
Lemma dropTrailing_cons c s :
  rev (dropSlashes (rev (c :: s)))
  = match rev (dropSlashes (rev s)) with
    | [] => if c =? SLASH then [] else [c]
    | t => c :: t
    end.
Proof.
  cbn [rev]. rewrite dropSlashes_snoc.
  destruct (dropSlashes (rev s)) as [ | d ds ] eqn:Hd.
  - simpl. by destruct (c =? SLASH).
  - rewrite rev_app_distr. cbn [rev app].
    destruct (rev ds ++ [d]) eqn:Hr; [ by destruct (rev ds) | done ].
Qed.

Lemma dropTrailing_segments s :
  hd [] (split SLASH (rev (dropSlashes (rev s)))) = hd [] (split SLASH s)
  ∧ filter (λ x, x ≠ []) (tl (split SLASH (rev (dropSlashes (rev s)))))
    = filter (λ x, x ≠ []) (tl (split SLASH s)).
Proof.
  induction s as [ | c s [IHh IHt] ]; [ done | ].
  rewrite dropTrailing_cons.
  destruct (rev (dropSlashes (rev s))) as [ | x t ] eqn:Ht.
  - simpl in IHh, IHt. destruct (decide (c = SLASH)) as [ -> | Hne ].
    + rewrite N.eqb_refl, split_cons_eq. cbn [hd tl]. split; [ done | ].
      rewrite (split_hd_tl SLASH s), <- IHh. rewrite filter_cons_False by auto. done.
    + rewrite (proj2 (N.eqb_neq _ _) Hne).
      rewrite (split_cons_ne SLASH c s), (split_cons_ne SLASH c []) by done.
      cbn [hd tl split]. by rewrite <- IHh, <- IHt.
  - destruct (decide (c = SLASH)) as [ -> | Hne ].
    + rewrite !split_cons_eq. cbn [hd tl]. split; [ done | ].
      rewrite (split_hd_tl SLASH (x :: t)), (split_hd_tl SLASH s).
      rewrite !filter_cons. by rewrite IHh, IHt.
    + rewrite (split_cons_ne SLASH c s), (split_cons_ne SLASH c (x :: t)) by done.
      cbn [hd tl]. by rewrite IHh, IHt.
Qed.

Lemma segments_eq s t :
  hd [] (split SLASH t) = hd [] (split SLASH s) →
  filter (λ x, x ≠ []) (tl (split SLASH t)) = filter (λ x, x ≠ []) (tl (split SLASH s)) →
  segments t = segments s.
Proof.
  intros Hh Ht. rewrite (segments_hd_tl s), (segments_hd_tl t), !filter_cons.
  by rewrite Hh, Ht.
Qed.

Lemma stripSlashes_collapse_segments s :
  segments (stripSlashes (collapseSlashes false s)) = segments s.
Proof.
  unfold stripSlashes.
  destruct (dropTrailing_segments (dropSlashes (collapseSlashes false s))) as [Hh Ht].
  rewrite (segments_eq _ _ Hh Ht), dropSlashes_segments.
  destruct (collapseSlashes_segments s) as [[Hh' Ht'] _].
  by apply segments_eq.
Qed.

Lemma collapseSlashes_doubleFree s : ∀ b, doubleFree b (collapseSlashes b s) = true.
Proof.
  induction s as [ | c s IH ]; intros b; [ done | ]. cbn [collapseSlashes].
  destruct (c =? SLASH) eqn:Hc.
  - destruct b; [ apply IH | ]. cbn [doubleFree]. rewrite N.eqb_refl. simpl. apply IH.
  - cbn [doubleFree]. rewrite Hc. apply IH.
Qed.

Lemma dropSlashes_doubleFree s : ∀ b,
  doubleFree b s = true → doubleFree true (dropSlashes s) = true.
Proof.
  induction s as [ | c s IH ]; intros b; [ done | ]. cbn [dropSlashes doubleFree].
  destruct (c =? SLASH) eqn:Hc.
  - intros [_ H]%andb_prop. by eapply IH.
  - intros H. cbn [doubleFree]. by rewrite Hc.
Qed.

Lemma dropTrailing_tidy s : ∀ b,
  doubleFree b s = true →
  rev (dropSlashes (rev s)) = [] ∨ tidy b (rev (dropSlashes (rev s))) = true.
Proof.
  induction s as [ | c s IH ]; intros b; [ by left | ].
  rewrite dropTrailing_cons. cbn [doubleFree].
  destruct (c =? SLASH) eqn:Hc.
  - intros [Hb H]%andb_prop. destruct (IH true H) as [ -> | Ht ]; [ by left | ].
    right. destruct (rev (dropSlashes (rev s))) as [ | x t ]; [ done | ].
    cbn [tidy]. rewrite Hc, Hb. simpl. exact Ht.
  - intros H. right. destruct (IH false H) as [ -> | Ht ].
    + cbn [tidy]. by rewrite Hc.
    + destruct (rev (dropSlashes (rev s))) as [ | x t ]; cbn [tidy]; by rewrite Hc.
Qed.

Lemma tidy_split s :
  (tidy true s = true → Forall (λ x, x ≠ []) (split SLASH s))
  ∧ (tidy false s = true → Forall (λ x, x ≠ []) (tl (split SLASH s))).
Proof.
  induction s as [ | c s [IH1 IH2] ]; [ split; [ done | constructor ] | ].
  cbn [tidy]. destruct (c =? SLASH) eqn:Hc.
  - apply N.eqb_eq in Hc as ->. rewrite split_cons_eq. cbn [tl negb andb].
    split; [ done | exact IH1 ].
  - apply N.eqb_neq in Hc. rewrite split_cons_ne by done. cbn [tl].
    split; [ | exact IH2 ]. intros H. constructor; [ done | by apply IH2 ].
Qed.

(** The string left by the slash handling is cut into the non-empty
    segments of the one it was made from. *)
Lemma split_stripSlashes_collapse s :
  split SLASH (stripSlashes (collapseSlashes false s))
  = match segments s with [] => [[]] | l => l end.
Proof.
  pose proof (stripSlashes_collapse_segments s) as Hseg.
  unfold stripSlashes in *.
  destruct (dropTrailing_tidy (dropSlashes (collapseSlashes false s)) true) as [ Ht | Ht ].
  { eapply dropSlashes_doubleFree, collapseSlashes_doubleFree. }
  - rewrite Ht in *. by rewrite <- Hseg.
  - apply tidy_split in Ht. rewrite <- Hseg. unfold segments.
    assert (∀ l : list JSString, Forall (λ x, x ≠ []) l → filter (λ x, x ≠ []) l = l) as Hall.
    { induction 1 as [ | x l Hx Hl IH ]; [ done | ]. by rewrite filter_cons_True, IH. }
    rewrite (Hall _ Ht).
    pose proof (split_nonempty SLASH (rev (dropSlashes (rev (dropSlashes (collapseSlashes false s)))))).
    by destruct (split SLASH _).
Qed.

Lemma filter_all {A} (P : A → Prop) `{∀ x, Decision (P x)} (l : list A) :
  Forall P l → filter P l = l.
Proof. induction 1 as [ | x l Hx Hl IH ]; [ done | ]. by rewrite filter_cons_True, IH. Qed.

Lemma existsb_dotdot (l : list JSString) :
  existsb (λ p, bool_decide (p = str "..")) l = bool_decide (str ".." ∈ l).
Proof.
  induction l as [ | x l IH ].
  - rewrite bool_decide_eq_false_2; [ done | by intros ?%elem_of_nil ].
  - cbn [existsb]. rewrite IH. destruct (decide (x = str "..")) as [ -> | Hne ].
    + rewrite bool_decide_eq_true_2 by done. cbn [orb]. symmetry.
      apply bool_decide_eq_true_2. apply list_elem_of_here.
    + rewrite (bool_decide_eq_false_2 (x = str "..")) by done. cbn [orb].
      apply bool_decide_ext. rewrite elem_of_cons.
      split; [ by right | intros [ ? | ? ]; [ congruence | done ] ].
Qed.

Lemma normalizeParts_segments p :
  normalizeParts p
  = filter (λ x, x ≠ str ".")
      (match segments (backslashesToSlashes p) with [] => [[]] | l => l end).
Proof. unfold normalizeParts. by rewrite split_stripSlashes_collapse. Qed.

Lemma normalizeParts_join p :
  join [SLASH] (normalizeParts p)
  = join [SLASH] (filter (λ x, x ≠ [] ∧ x ≠ str ".")
                    (split SLASH (backslashesToSlashes p))).
Proof.
  rewrite normalizeParts_segments.
  assert (filter (λ x, x ≠ [] ∧ x ≠ str ".") (split SLASH (backslashesToSlashes p))
          = filter (λ x, x ≠ str ".") (segments (backslashesToSlashes p))) as ->.
  { unfold segments. rewrite list_filter_filter. apply list_filter_iff. tauto. }
  destruct (segments (backslashesToSlashes p)); [ | done ].
  by rewrite filter_cons_True, filter_nil.
Qed.

Lemma normalizeParts_dotdot p :
  str ".." ∈ normalizeParts p ↔ str ".." ∈ split SLASH (backslashesToSlashes p).
Proof.
  rewrite normalizeParts_segments, list_elem_of_filter.
  assert (str ".." ∈ segments (backslashesToSlashes p)
          ↔ str ".." ∈ split SLASH (backslashesToSlashes p)) as <-.
  { unfold segments. rewrite list_elem_of_filter. split; [ tauto | ]. by split. }
  destruct (segments (backslashesToSlashes p)) as [ | x l ].
  - split; [ | by intros ?%elem_of_nil ].
    intros [_ [ ? | ?%elem_of_nil ]%elem_of_cons]; done.
  - split; [ tauto | by split ].
Qed.

(** X1. [normalizePath] in terms of the segments of its argument: with the
    backslashes read as slashes, it throws exactly when a segment is [..],
    and otherwise returns the segments that are neither empty nor [.],
    joined by slashes. *)
Theorem normalizePath_segments p c :
  normalizePath p c
  = if bool_decide (str ".." ∈ split SLASH (backslashesToSlashes p))
    then Thrown (Error (str "Parent directory references (..) are not allowed")) c
    else Returned (join [SLASH] (filter (λ x, x ≠ [] ∧ x ≠ str ".")
                                   (split SLASH (backslashesToSlashes p)))) c.
Proof.
  unfold normalizePath. rewrite existsb_dotdot, normalizeParts_join.
  rewrite (bool_decide_ext _ _ (normalizeParts_dotdot p)).
  by destruct (bool_decide _).
Qed.

Lemma split_elem sep s seg x : seg ∈ split sep s → x ∈ seg → x ∈ s.
Proof.
  revert seg. induction s as [ | c s IH ]; intros seg.
  - simpl. by intros ->%list_elem_of_singleton.
  - destruct (decide (c = sep)) as [ -> | Hne ].
    + rewrite split_cons_eq. intros [ -> | Hseg ]%elem_of_cons Hx.
      * by apply elem_of_nil in Hx.
      * right. by eapply IH.
    + rewrite split_cons_ne by done. intros [ -> | Hseg ]%elem_of_cons Hx.
      * apply elem_of_cons in Hx as [ -> | Hx ]; [ left | right ].
        eapply IH; [ | done ]. rewrite (split_hd_tl sep s). apply list_elem_of_here.
      * right. eapply IH; [ | done ]. rewrite (split_hd_tl sep s). by right.
Qed.

Lemma join_elem sep parts x :
  x ∈ join [sep] parts → x = sep ∨ ∃ seg, seg ∈ parts ∧ x ∈ seg.
Proof.
  induction parts as [ | p parts IH ]; [ by intros ?%elem_of_nil | ].
  destruct parts as [ | q parts ].
  - simpl. intros Hx. right. exists p. split; [ apply list_elem_of_here | done ].
  - rewrite join_cons by done. cbn [app].
    intros [ Hx | [ -> | Hx ]%elem_of_cons ]%elem_of_app.
    + right. exists p. split; [ apply list_elem_of_here | done ].
    + by left.
    + destruct (IH Hx) as [ ? | (seg & Hseg & Hin) ]; [ by left | ].
      right. exists seg. split; [ by right | done ].
Qed.

Lemma backslashesToSlashes_free p : BACKSLASH ∉ backslashesToSlashes p.
Proof.
  unfold backslashesToSlashes. intros Hin. apply list_elem_of_In, in_map_iff in Hin
    as (c & Hc & _).
  destruct (c =? BACKSLASH) eqn:Heq; [ done | ]. apply N.eqb_neq in Heq. done.
Qed.

Lemma backslashesToSlashes_id q : BACKSLASH ∉ q → backslashesToSlashes q = q.
Proof.
  unfold backslashesToSlashes. induction q as [ | c q IH ]; [ done | ].
  intros [Hc Hq]%not_elem_of_cons. simpl. rewrite IH by done.
  destruct (c =? BACKSLASH) eqn:Heq; [ | done ]. apply N.eqb_eq in Heq. done.
Qed.

Lemma normalizePath_returns p c q c' :
  normalizePath p c = Returned q c'
  ↔ (str ".." ∉ split SLASH (backslashesToSlashes p))
    ∧ q = join [SLASH] (filter (λ x, x ≠ [] ∧ x ≠ str ".")
                          (split SLASH (backslashesToSlashes p)))
    ∧ c' = c.
Proof.
  unfold normalizePath, ret, throw. rewrite existsb_dotdot, normalizeParts_join.
  rewrite (bool_decide_ext _ _ (normalizeParts_dotdot p)).
  case_bool_decide as Hdd.
  - split; [ done | by intros [? _] ].
  - split; [ by intros [= <- <-] | by intros (_ & -> & ->) ].
Qed.

(** Without its empty and [.] segments, a path that has no [..] segment
    is canonical. *)
Lemma filtered_canonical p :
  str ".." ∉ split SLASH (backslashesToSlashes p) →
  canonicalPath (join [SLASH] (filter (λ x, x ≠ [] ∧ x ≠ str ".")
                                 (split SLASH (backslashesToSlashes p)))).
Proof.
  intros Hdd. set (parts := filter _ _).
  assert (Forall (λ x, x ≠ [] ∧ x ≠ str "." ∧ x ≠ str ".."
                       ∧ (SLASH ∉ x) ∧ (BACKSLASH ∉ x)) parts) as Hparts.
  { apply Forall_forall. intros x [[Hne Hdot] Hx]%list_elem_of_filter. split_and!; try done.
    - by intros ->.
    - pose proof (split_no_sep SLASH (backslashesToSlashes p)) as Hfree.
      rewrite Forall_forall in Hfree. by apply Hfree.
    - intros Hb. eapply backslashesToSlashes_free, split_elem; done. }
  split.
  - intros [ ? | (seg & Hseg & Hin) ]%join_elem; [ done | ].
    rewrite Forall_forall in Hparts. by destruct (Hparts _ Hseg) as (_ & _ & _ & _ & ?).
  - destruct parts as [ | x l ] eqn:Hp; [ by left | right ].
    rewrite split_join; [ | done | ].
    + eapply Forall_impl; [ exact Hparts | ]. by intros y (? & ? & ? & _).
    + eapply Forall_impl; [ exact Hparts | ]. by intros y (_ & _ & _ & ? & _).
Qed.

Lemma canonicalPath_fixed q c : canonicalPath q → normalizePath q c = Returned q c.
Proof.
  intros [Hb Hq]. apply normalizePath_returns. rewrite backslashesToSlashes_id by done.
  destruct Hq as [ -> | Hq ]; [ split_and!; try done | ].
  { by intros ?%list_elem_of_singleton. }
  split_and!; [ | | done ].
  - intros Hin. rewrite Forall_forall in Hq. by destruct (Hq _ Hin) as (_ & _ & ?).
  - rewrite filter_all; [ by rewrite join_split | ].
    eapply Forall_impl; [ exact Hq | ]. by intros y (? & ? & _).
Qed.

(** X2. What [normalizePath] returns is canonical: it holds no backslash,
    and it is empty or made of segments none of which is empty, [.] or
    [..]; so it neither starts nor ends with a slash. *)
Theorem normalizePath_canonical p c q c' :
  normalizePath p c = Returned q c' → canonicalPath q.
Proof.
  intros (Hdd & -> & _)%normalizePath_returns. by apply filtered_canonical.
Qed.

Lemma normalizePath_canonical_witness : canonicalPath (str "src/components").
Proof.
  apply (normalizePath_canonical (str ".\src//components/") [] (str "src/components") []).
  by vm_compute.
Defined.

(** X3. A canonical path is a fixed point of [normalizePath], and only
    canonical paths are; so [normalizePath] is idempotent. *)
Theorem normalizePath_fixed q c :
  (canonicalPath q ↔ normalizePath q c = Returned q c)
  ∧ ∀ p, normalizePath p c = Returned q c → normalizePath q c = Returned q c.
Proof.
  assert (∀ p, normalizePath p c = Returned q c → canonicalPath q) as Hcan.
  { intros p (Hdd & -> & _)%normalizePath_returns. by apply filtered_canonical. }
  split; [ split; [ apply canonicalPath_fixed | apply Hcan ] | ].
  intros p Hp. by eapply canonicalPath_fixed, Hcan.
Qed.

(** * More properties of [processPaths] *)

Lemma declares_normalizePath line p d c :
  declares line = Some (p, d) →
  p ≠ []
  ∧ normalizePath (if endsWith (trim line) SLASH then slice_0_m1 (trim line) else trim line) c
    = Returned p c.
Proof.
  unfold declares, normalizePath, ret, throw.
  destruct (truthy (trim line)); [ | done ].
  destruct (existsb _ _); [ done | ]. cbn [negb andb].
  destruct (truthy (join _ _)) eqn:Hp; [ | done ].
  intros [= <- <-]. split; [ | done ]. by destruct (join _ _).
Qed.

Lemma declares_canonical line p d :
  declares line = Some (p, d) → p ≠ [] ∧ canonicalPath p.
Proof.
  intros Hd. destruct (declares_normalizePath line p d [] Hd) as [Hne Hn].
  split; [ done | ]. apply normalizePath_returns in Hn as (Hdd & -> & _).
  by apply filtered_canonical.
Qed.

Lemma length_filter_bool {A} (f : A → bool) (l : list A) :
  (length (filter (λ x, f x = true) l) + length (filter (λ x, f x = false) l))%nat
  = length l.
Proof.
  induction l as [ | x l IH ]; [ done | ]. rewrite !filter_cons.
  destruct (f x) eqn:Hx; simpl; lia.
Qed.

(** X4. The two counts [processPaths] returns add up to the number of
    entries. *)
Theorem processPaths_counts input :
  ∃ r c, run (processPaths input) = Returned r c
         ∧ (folderCount r + fileCount r)%nat = length (entries r).
Proof.
  destruct (processPaths_unfold input []) as (st & _ & Hres).
  unfold run. rewrite Hres. eexists _, _. split; [ done | ].
  simpl. apply length_filter_bool.
Qed.

Lemma refsValid_NoDup st : refsValid st → NoDup (entry_path <$> st_entries st).
Proof.
  intros [_ Hv]. apply NoDup_alt. intros i j p.
  rewrite !list_lookup_fmap. 
  destruct (st_entries st !! i) as [ e | ] eqn:Hi; [ | done ].
  destruct (st_entries st !! j) as [ e' | ] eqn:Hj; [ | done ].
  simpl. intros [= <-] [= Heq]. apply Hv in Hi, Hj. rewrite Heq in Hj. by simplify_eq.
Qed.

Lemma processLine_entriesCanonical st line index c st' c' :
  refsValid st → entriesCanonical st → processLine st line index c = Returned st' c' →
  entriesCanonical st'.
Proof.
  intros Hv Hcan Hstep. destruct (declares line) as [ [p d] | ] eqn:Hdecl.
  - rewrite (processLine_declares _ _ _ _ _ _ Hdecl) in Hstep. simplify_eq.
    destruct (pathToEntry st !! p) as [ r | ] eqn:Href.
    + destruct (proj1 Hv _ _ Href) as (e & He & Hpath).
      destruct (recordPath_existing st p d (index + 1) r e Href He) as (own & seen & -> & _).
      simpl. destruct (_ && _); [ | done ].
      intros e' [idx He']%list_elem_of_lookup. cbn [st_entries] in He'.
      destruct (decide (r = idx)) as [ <- | Hne ].
      * rewrite list_lookup_insert_eq in He' by (by eapply lookup_lt_Some).
        simplify_eq. simpl. apply Hcan. by eapply list_elem_of_lookup_2.
      * rewrite list_lookup_insert_ne in He' by done.
        apply Hcan. by eapply list_elem_of_lookup_2.
    + destruct (recordPath_fresh st p d (index + 1) Href) as (own & seen & -> & _).
      simpl. intros e' [ He' | ->%list_elem_of_singleton ]%elem_of_app; [ by apply Hcan | ].
      simpl. by eapply declares_canonical.
  - destruct (processLine_other st line index c Hdecl) as (st1 & Hst1 & Hents & _).
    rewrite Hst1 in Hstep. simplify_eq. unfold entriesCanonical. by rewrite Hents.
Qed.

Lemma processPaths_entriesCanonical input :
  ∃ r c st, run (processPaths input) = Returned r c
            ∧ entries r = st_entries st ∧ refsValid st ∧ entriesCanonical st.
Proof.
  destruct (processPaths_invariant (λ _ s, refsValid s ∧ entriesCanonical s) input)
    as (r & c & st & Hr & Hents & _ & Hv & Hcan).
  - split; [ apply initialState_refsValid | ]. by intros e ?%elem_of_nil.
  - intros k line s s' d d' [Hv Hcan] _ Hstep. split.
    + by eapply processLine_refsValid.
    + by eapply processLine_entriesCanonical.
  - by exists r, c, st.
Qed.

(** X5. The entries [processPaths] returns have distinct paths, and each
    path is canonical and not empty: no backslash, no empty segment, no
    [.] and no [..] segment. *)
Theorem processPaths_entry_paths input :
  ∃ r c, run (processPaths input) = Returned r c
         ∧ NoDup (entry_path <$> entries r)
         ∧ ∀ e, e ∈ entries r → entry_path e ≠ [] ∧ canonicalPath (entry_path e).
Proof.
  destruct (processPaths_entriesCanonical input) as (r & c & st & Hr & Hents & Hv & Hcan).
  exists r, c. rewrite Hents. split_and!; [ done | by apply refsValid_NoDup | done ].
Qed.

Lemma forEach_from_blank ls i s c :
  Forall (λ l, trim l = []) ls → forEach_from processLine ls i s c = Returned s c.
Proof.
  intros Hblank. revert i. induction Hblank as [ | l ls Hl Hls IH ]; intros i; [ done | ].
  simpl. unfold bind at 1. unfold processLine at 1. rewrite Hl. simpl. apply IH.
Qed.

Lemma processPaths_of_blank input :
  Forall (λ l, trim l = []) (split NEWLINE input) →
  ∃ c, run (processPaths input)
       = Returned (mkProcessed [] (st_issues (initialState (split NEWLINE input))) 0 0) c.
Proof.
  intros Hblank.
  destruct (processPaths_unfold input []) as (st & Hloop & Hres).
  unfold run. rewrite Hres. eexists. simpl in Hloop. unfold forEach in Hloop.
  rewrite (forEach_from_blank _ _ _ _ Hblank) in Hloop. by injection Hloop as <-.
Qed.

(** X6. On an input of blank lines only, [processPaths] returns no entry,
    counts of zero, and no issue but the one about the number of lines,
    when there are more than 5000. *)
Theorem processPaths_blank input :
  Forall (λ l, trim l = []) (split NEWLINE input) →
  ∃ r c, run (processPaths input) = Returned r c
         ∧ entries r = [] ∧ folderCount r = 0%nat ∧ fileCount r = 0%nat
         ∧ issues r = st_issues (initialState (split NEWLINE input))
         ∧ ((length (split NEWLINE input) ≤ 5000)%nat → issues r = []).
Proof.
  intros Hblank. destruct (processPaths_of_blank input Hblank) as [c Hrun].
  eexists _, c. split; [ exact Hrun | ]. simpl. split_and!; try done.
  intros Hle. destruct (MAX_LINES <? _) eqn:Hlt; [ | done ].
  apply N.ltb_lt in Hlt. unfold MAX_LINES in Hlt. lia.
Qed.

Lemma processPaths_blank_witness :
  ∃ r c, run (processPaths blank_lines) = Returned r c
         ∧ entries r = [] ∧ folderCount r = 0%nat ∧ fileCount r = 0%nat
         ∧ issues r = st_issues (initialState (split NEWLINE blank_lines))
         ∧ ((length (split NEWLINE blank_lines) ≤ 5000)%nat → issues r = []).
Proof.
  apply (processPaths_blank blank_lines). vm_compute. by repeat constructor.
Defined.

Lemma processLine_entriesSummary lines k line st c st' c' :
  refsValid st → entriesSummary lines k st → lines !! k = Some line →
  processLine st line k c = Returned st' c' →
  entriesSummary lines (S k) st'.
Proof.
  intros [Hv1 Hv2] (Hnone & Hsome & Hord) Hline Hstep.
  destruct (declares line) as [ [p d] | ] eqn:Hdecl.
  - rewrite (processLine_declares _ _ _ _ _ _ Hdecl) in Hstep. simplify_eq.
    destruct (pathToEntry st !! p) as [ r | ] eqn:Href.
    + destruct (Hv1 _ _ Href) as (e & He & Hpath).
      destruct (recordPath_existing st p d (k + 1) r e Href He) as (own & seen & -> & _).
      assert (r < length (st_entries st))%nat as Hlt by (by eapply lookup_lt_Some).
      assert (∀ idx e', (if d && negb (entry_isDirectory e)
                         then <[r := upgraded e p]> (st_entries st) else st_entries st) !! idx
                        = Some e' →
                ∃ e0, st_entries st !! idx = Some e0
                      ∧ entry_path e' = entry_path e0
                      ∧ entry_originalLine e' = entry_originalLine e0
                      ∧ (entry_isDirectory e' = true
                         ↔ entry_isDirectory e0 = true ∨ (idx = r ∧ d = true))) as Hold.
      { intros idx e' He'. destruct (d && negb (entry_isDirectory e)) eqn:Hup.
        - destruct (decide (r = idx)) as [ <- | Hne ].
          + rewrite list_lookup_insert_eq in He' by done. simplify_eq.
            exists e. apply andb_prop in Hup as [-> _]. simpl.
            split_and!; try done. split; [ by right | done ].
          + rewrite list_lookup_insert_ne in He' by done. exists e'.
            split_and!; try done. split; [ by left | ]. by intros [ ? | [-> _] ].
        - exists e'. split_and!; try done. split; [ by left | ].
          intros [ ? | [-> ->] ]; [ done | ]. simplify_eq. simpl in Hup.
          by destruct (entry_isDirectory e). }
      split_and!; simpl.
      * intros q Hq i l d0 Hi Hl Hd0.
        destruct (decide (i = k)) as [ -> | Hne ].
        -- simplify_eq. 
        -- eapply (Hnone q Hq i); [ lia | done | done ].
      * intros idx e' He'. destruct (Hold _ _ He') as (e0 & He0 & Hp0 & Hl0 & Hd0).
        destruct (Hsome _ _ He0) as (i & l & d1 & HL & Hi & Hl & Hd1 & Hfirst & Hdir).
        exists i, l, d1. rewrite Hp0, Hl0. split_and!; try done; [ lia | ].
        rewrite Hd0, Hdir. split.
        -- intros [ (j & lj & Hj & Hlj & Hdj) | [-> ->] ].
           ++ exists j, lj. split_and!; [ lia | done | done ].
           ++ exists k, line. simplify_eq. split_and!; [ lia | done | done ].
        -- intros (j & lj & Hj & Hlj & Hdj).
           destruct (decide (j = k)) as [ -> | Hne ].
           ++ right. apply Hv2 in He0. split; congruence.
           ++ left. exists j, lj. split_and!; [ lia | done | done ].
      * intros idx idx' e1 e2 Hlti H1 H2.
        destruct (Hold _ _ H1) as (e01 & He01 & _ & -> & _).
        destruct (Hold _ _ H2) as (e02 & He02 & _ & -> & _).
        by eapply Hord.
    + destruct (recordPath_fresh st p d (k + 1) Href) as (own & seen & -> & _).
      split_and!; simpl.
      * intros q Hq i l d0 Hi Hl Hd0.
        apply lookup_insert_None in Hq as [Hq Hne].
        destruct (decide (i = k)) as [ -> | Hnk ].
        -- simplify_eq.
        -- eapply (Hnone q Hq i); [ lia | done | done ].
      * intros idx e' He'. apply lookup_app_Some in He' as [ He' | [Hge He'] ].
        -- destruct (Hsome _ _ He') as (i & l & d1 & HL & Hi & Hl & Hd1 & Hfirst & Hdir).
           exists i, l, d1. split_and!; try done; [ lia | ].
           rewrite Hdir. split.
           ++ intros (j & lj & Hj & Hlj & Hdj). exists j, lj. split_and!; [ lia | done | done ].
           ++ intros (j & lj & Hj & Hlj & Hdj). exists j, lj. split_and!; try done.
              destruct (decide (j = k)) as [ -> | Hne ]; [ | lia ].
              apply Hv2 in He'. congruence.
        -- apply list_lookup_singleton_Some in He' as [_ <-]. simpl.
           exists k, line, d. split_and!; try done; [ lia | | ].
           ++ intros i' l' d' Hi' Hl'. by eapply Hnone.
           ++ split.
              ** intros ->. exists k, line. split_and!; [ lia | done | done ].
              ** intros (j & lj & Hj & Hlj & Hdj).
                 destruct (decide (j = k)) as [ -> | Hne ]; [ by simplify_eq | ].
                 exfalso. eapply (Hnone p Href j); [ lia | done | done ].
      * intros idx idx' e1 e2 Hlti H1 H2.
        apply lookup_app_Some in H2 as [ H2 | [Hge H2] ].
        -- apply lookup_app_Some in H1 as [ H1 | [Hge1 _] ]; [ by eapply Hord | ].
           apply lookup_lt_Some in H2. lia.
        -- apply list_lookup_singleton_Some in H2 as [Hidx' <-]. simpl.
           apply lookup_app_Some in H1 as [ H1 | [Hge1 H1] ].
           ++ destruct (Hsome _ _ H1) as (i & _ & _ & -> & Hi & _). lia.
           ++ apply list_lookup_singleton_Some in H1 as [? _]. lia.
  - destruct (processLine_other st line k c Hdecl) as (st1 & Hst1 & Hents & Hpte & _).
    rewrite Hst1 in Hstep. simplify_eq. unfold entriesSummary. rewrite Hents, Hpte.
    split_and!.
    + intros q Hq i l d0 Hi Hl Hd0.
      destruct (decide (i = k)) as [ -> | Hne ]; [ by simplify_eq | ].
      eapply (Hnone q Hq i); [ lia | done | done ].
    + intros idx e He.
      destruct (Hsome _ _ He) as (i & l & d1 & HL & Hi & Hl & Hd1 & Hfirst & Hdir).
      exists i, l, d1. split_and!; try done; [ lia | ].
      rewrite Hdir. split.
      * intros (j & lj & Hj & Hlj & Hdj). exists j, lj. split_and!; [ lia | done | done ].
      * intros (j & lj & Hj & Hlj & Hdj). exists j, lj. split_and!; try done.
        destruct (decide (j = k)) as [ -> | Hne ]; [ by simplify_eq | lia ].
    + done.
Qed.

Lemma processPaths_entriesSummary input :
  ∃ r c st, run (processPaths input) = Returned r c
    ∧ entries r = st_entries st ∧ refsValid st
    ∧ entriesSummary (split NEWLINE input) (length (split NEWLINE input)) st.
Proof.
  destruct (processPaths_invariant
              (λ k s, refsValid s ∧ entriesSummary (split NEWLINE input) k s) input)
    as (r & c & st & Hr & Hents & _ & Hv & Hsum).
  - split; [ apply initialState_refsValid | ]. split_and!.
    + intros ?????. lia.
    + intros idx e He. simpl in He. by rewrite lookup_nil in He.
    + intros idx idx' e e' _ He. simpl in He. by rewrite lookup_nil in He.
  - intros k line s s' d d' [Hv Hsum] Hl Hstep. split.
    + by eapply processLine_refsValid.
    + by eapply processLine_entriesSummary.
  - by exists r, c, st.
Qed.

Lemma StronglySorted_of_lookup {A} (R : A → A → Prop) (l : list A) :
  (∀ i j x y, (i < j)%nat → l !! i = Some x → l !! j = Some y → R x y) →
  StronglySorted R l.
Proof.
  induction l as [ | a l IH ]; intros H; constructor.
  - apply IH. intros i j x y Hlt Hi Hj. apply (H (S i) (S j)); [ lia | done | done ].
  - apply Forall_forall. intros y [j Hj]%list_elem_of_lookup.
    apply (H 0%nat (S j)); [ lia | done | done ].
Qed.

(** X7. Every entry [processPaths] returns carries the number of the first
    line that declares its path, and the entries are in the order of these
    lines. *)
Theorem processPaths_first_declaration input :
  ∃ r c, run (processPaths input) = Returned r c
    ∧ (∀ e, e ∈ entries r →
         ∃ i l d, entry_originalLine e = (i + 1)%nat
                  ∧ split NEWLINE input !! i = Some l ∧ declares l = Some (entry_path e, d)
                  ∧ ∀ i' l' d', (i' < i)%nat → split NEWLINE input !! i' = Some l' →
                                declares l' ≠ Some (entry_path e, d'))
    ∧ StronglySorted lt (entry_originalLine <$> entries r).
Proof.
  destruct (processPaths_entriesSummary input) as (r & c & st & Hr & Hents & _ & _ & Hsome & Hord).
  exists r, c. rewrite Hents. split_and!; [ done | | ].
  - intros e [idx He]%list_elem_of_lookup.
    destruct (Hsome _ _ He) as (i & l & d & HL & _ & Hl & Hd & Hfirst & _).
    by exists i, l, d.
  - apply StronglySorted_of_lookup. intros i j x y Hlt.
    rewrite !list_lookup_fmap.
    destruct (st_entries st !! i) as [ e | ] eqn:Hi; [ | done ].
    destruct (st_entries st !! j) as [ e' | ] eqn:Hj; [ | done ].
    simpl. intros [= <-] [= <-]. by eapply Hord.
Qed.

(** X8. A path has an entry exactly when some line declares it, and the
    entry is a directory exactly when some line declares the path as a
    directory, whether that line comes before or after a line that
    declares it as a file. *)
Theorem processPaths_directory_wins input :
  ∃ r c, run (processPaths input) = Returned r c
    ∧ (∀ p, p ∈ entry_path <$> entries r ↔ ∃ l d, l ∈ split NEWLINE input ∧ declares l = Some (p, d))
    ∧ (∀ e, e ∈ entries r →
         entry_isDirectory e = true
         ↔ ∃ l, l ∈ split NEWLINE input ∧ declares l = Some (entry_path e, true)).
Proof.
  destruct (processPaths_entriesSummary input)
    as (r & c & st & Hr & Hents & [Hv1 Hv2] & Hnone & Hsome & _).
  exists r, c. rewrite Hents. split_and!; [ done | | ].
  - intros p. split.
    + intros (e & -> & [idx He]%list_elem_of_lookup)%list_elem_of_fmap.
      destruct (Hsome _ _ He) as (i & l & d & _ & _ & Hl & Hd & _).
      exists l, d. split; [ by eapply list_elem_of_lookup_2 | done ].
    + intros (l & d & [i Hl]%list_elem_of_lookup & Hd).
      destruct (pathToEntry st !! p) as [ idx | ] eqn:Href.
      * destruct (Hv1 _ _ Href) as (e & He & <-).
        apply list_elem_of_fmap. exists e. split; [ done | by eapply list_elem_of_lookup_2 ].
      * exfalso. eapply (Hnone p Href i); [ by eapply lookup_lt_Some | done | done ].
  - intros e [idx He]%list_elem_of_lookup.
    destruct (Hsome _ _ He) as (_ & _ & _ & _ & _ & _ & _ & _ & ->). split.
    + intros (j & lj & _ & Hlj & Hdj). exists lj. split; [ by eapply list_elem_of_lookup_2 | done ].
    + intros (l & [j Hl]%list_elem_of_lookup & Hd). exists j, l.
      split_and!; [ by eapply lookup_lt_Some | done | done ].
Qed.

(** * The nodes of the tree *)

Lemma join_nonempty (parts : list JSString) :
  parts ≠ [] → Forall (λ p, p ≠ []) parts → join [SLASH] parts ≠ [].
Proof.
  destruct parts as [ | p parts ]; [ done | ]. intros _ [Hp _]%Forall_cons.
  destruct parts; simpl; [ done | ]. by destruct p.
Qed.

Lemma join_snoc (pre : list JSString) part :
  Forall (λ p, p ≠ []) pre →
  segmentPathOf (join [SLASH] pre) part = join [SLASH] (pre ++ [part]).
Proof.
  induction pre as [ | p pre IH ]; intros Hpre; [ done | ].
  apply Forall_cons in Hpre as [Hp Hpre]. specialize (IH Hpre).
  destruct pre as [ | q pre ].
  - simpl. unfold segmentPathOf. by destruct p.
  - rewrite join_cons by done. cbn [app]. rewrite (join_cons _ p) by done.
    change (q :: pre ++ [part]) with ((q :: pre) ++ [part]).
    rewrite <- IH. unfold segmentPathOf.
    assert (join [SLASH] (q :: pre) ≠ []) as Hne by (by apply join_nonempty).
    destruct (join [SLASH] (q :: pre)) eqn:Hj; [ done | ].
    destruct p; [ done | ]. simpl. by rewrite <- !app_assoc.
Qed.

Lemma kindOf_pushChild cur c m k : kindOf (pushChild cur c m) k = kindOf m k.
Proof.
  unfold kindOf, pushChild. rewrite lookup_alter.
  destruct (decide (cur = k)) as [ -> | ]; [ | done ]. by destruct (m !! k).
Qed.

Lemma kindOf_pushIssues node issues m k : kindOf (pushIssues node issues m) k = kindOf m k.
Proof.
  unfold kindOf, pushIssues. rewrite lookup_alter.
  destruct (decide (node = k)) as [ -> | ]; [ | done ]. by destruct (m !! k).
Qed.

Lemma kindOf_insert sp node m k :
  kindOf (<[sp := node]> m) k
  = if decide (sp = k) then Some (node_name node, node_isDirectory node) else kindOf m k.
Proof.
  unfold kindOf. destruct (decide (sp = k)) as [ -> | ].
  - by rewrite lookup_insert_eq.
  - by rewrite lookup_insert_ne.
Qed.

Lemma kindOf_is_Some m k : is_Some (kindOf m k) ↔ is_Some (m !! k).
Proof. unfold kindOf. by rewrite fmap_is_Some. Qed.

(** What the walk of an entry makes of the nodes, the segments [pre]
    being behind it: the nodes there were keep their name and kind, and
    the remaining prefixes of the path get a node, made by the entry where
    there was none. *)
Lemma walk_nodes entry parts : ∀ pre m,
  entryParts entry = pre ++ parts →
  let m' := walk entry parts (join [SLASH] pre) (join [SLASH] pre) m in
  (∀ k x, kindOf m k = Some x → kindOf m' k = Some x)
  ∧ (∀ k x, kindOf m' k = Some x →
       kindOf m k = Some x
       ∨ ∃ i, (length pre < i)%nat ∧ madeBy entry i k x)
  ∧ (∀ i, (length pre < i ≤ length (entryParts entry))%nat →
       is_Some (m' !! prefixAt entry i)).
Proof.
  induction parts as [ | part rest IH ]; intros pre m Hall; cbn zeta.
  { simpl. split_and!; [ done | by left | ].
    intros i Hi. rewrite Hall, app_nil_r in Hi. lia. }
  pose proof (entryParts_nonempty entry) as Hne. rewrite Hall in Hne.
  apply Forall_app in Hne as [Hpre Hrest].
  assert (entryParts entry = (pre ++ [part]) ++ rest) as Hall'
    by (by rewrite <- app_assoc).
  assert (prefixAt entry (S (length pre)) = join [SLASH] (pre ++ [part])) as Hsp.
  { unfold prefixAt. rewrite Hall'. rewrite take_app_length'; [ done | ].
    rewrite length_app. simpl. lia. }
  assert (entryParts entry !! length pre = Some part) as Hpart.
  { rewrite Hall. by rewrite list_lookup_middle. }
  assert (length (entryParts entry) = (length pre + S (length rest))%nat) as Hlen.
  { rewrite Hall, length_app. done. }
  assert (length (pre ++ [part]) = S (length pre)) as Hlen'.
  { rewrite length_app. simpl. lia. }
  cbn [walk]. rewrite (join_snoc pre part Hpre).
  set (sp := join [SLASH] (pre ++ [part])) in *.
  destruct (m !! sp) as [ node | ] eqn:Hnode.
  - set (m1 := if _ && _ then _ else m).
    assert (∀ k, kindOf m1 k = kindOf m k) as Hm1.
    { intros k. subst m1. destruct (_ && _); [ apply kindOf_pushIssues | done ]. }
    destruct (IH (pre ++ [part]) m1 Hall') as (HA & HB & HC). cbn zeta in *.
    fold sp in HA, HB, HC. split_and!.
    + intros k x Hk. apply HA. by rewrite Hm1.
    + intros k x Hk. destruct (HB k x Hk) as [ Hold | (i & Hi & Hmade) ].
      * left. by rewrite <- Hm1.
      * right. exists i. split; [ lia | done ].
    + intros i Hi. destruct (decide (i = S (length pre))) as [ -> | Hni ].
      * rewrite Hsp. apply kindOf_is_Some.
        assert (is_Some (kindOf m sp)) as [x Hx] by (apply kindOf_is_Some; by eexists).
        exists x. apply HA. by rewrite Hm1.
      * apply HC. lia.
  - destruct (negb _ || entry_isDirectory entry) eqn:Hbranch.
    + set (m1 := pushChild _ _ _).
      assert (∀ k, kindOf m1 k = if decide (sp = k) then Some (part, true) else kindOf m k)
        as Hm1.
      { intros k. subst m1. by rewrite kindOf_pushChild, kindOf_insert. }
      destruct (IH (pre ++ [part]) m1 Hall') as (HA & HB & HC). cbn zeta in *.
      fold sp in HA, HB, HC. split_and!.
      * intros k x Hk. apply HA. rewrite Hm1.
        destruct (decide (sp = k)) as [ <- | ]; [ | done ].
        unfold kindOf in Hk. by rewrite Hnode in Hk.
      * intros k x Hk. destruct (HB k x Hk) as [ Hold | (i & Hi & Hmade) ].
        -- rewrite Hm1 in Hold. destruct (decide (sp = k)) as [ <- | ]; [ | by left ].
           right. exists (S (length pre)). split; [ lia | ]. simplify_eq.
           split_and!; [ lia | lia | done | | ].
           ++ simpl. by rewrite Nat.sub_0_r.
           ++ simpl. symmetry. rewrite <- Hbranch. f_equal.
              destruct rest as [ | r rest ]; simpl.
              ** apply Nat.ltb_ge. rewrite Hlen. simpl. lia.
              ** apply Nat.ltb_lt. rewrite Hlen. simpl. lia.
        -- right. exists i. split; [ lia | done ].
      * intros i Hi. destruct (decide (i = S (length pre))) as [ -> | Hni ].
        -- rewrite Hsp. apply kindOf_is_Some. exists (part, true). apply HA.
           rewrite Hm1. by rewrite decide_True.
        -- apply HC. lia.
    + apply orb_false_iff in Hbranch as [Hlast Hfile].
      destruct rest as [ | r rest ]; [ | done ].
      assert (∀ k, kindOf (pushChild (join [SLASH] pre) sp
                             (<[sp := mkNode part sp false [] (entry_issues entry)]> m)) k
                   = if decide (sp = k) then Some (part, false) else kindOf m k) as Hm1.
      { intros k. by rewrite kindOf_pushChild, kindOf_insert. }
      split_and!.
      * intros k x Hk. rewrite Hm1. destruct (decide (sp = k)) as [ <- | ]; [ | done ].
        unfold kindOf in Hk. by rewrite Hnode in Hk.
      * intros k x Hk. rewrite Hm1 in Hk.
        destruct (decide (sp = k)) as [ <- | ]; [ | by left ].
        right. exists (S (length pre)). split; [ lia | ]. simplify_eq.
        split_and!; [ lia | lia | done | | ].
        -- simpl. by rewrite Nat.sub_0_r.
        -- simpl. rewrite Hfile, orb_false_r. symmetry. apply Nat.ltb_ge.
           rewrite Hlen. simpl. lia.
      * intros i Hi. assert (i = S (length pre)) as -> by (simpl in Hlen; lia).
        rewrite Hsp. apply kindOf_is_Some. exists (part, false).
        rewrite Hm1. by rewrite decide_True.
Qed.

Lemma insertEntry_nodes m e :
  (∀ k x, kindOf m k = Some x → kindOf (insertEntry m e) k = Some x)
  ∧ (∀ k x, kindOf (insertEntry m e) k = Some x →
       kindOf m k = Some x ∨ ∃ i, madeBy e i k x)
  ∧ (∀ i, (0 < i ≤ length (entryParts e))%nat → is_Some (insertEntry m e !! prefixAt e i)).
Proof.
  destruct (walk_nodes e (entryParts e) [] m eq_refl) as (HA & HB & HC).
  cbn zeta in *. split_and!; [ done | | done ].
  intros k x Hk. destruct (HB k x Hk) as [ ? | (i & _ & ?) ]; [ by left | right; by exists i ].
Qed.

Lemma foldl_insertEntry_nodes es : ∀ m,
  (∀ k x, kindOf m k = Some x → kindOf (foldl insertEntry m es) k = Some x)
  ∧ (∀ k x, kindOf (foldl insertEntry m es) k = Some x →
       kindOf m k = Some x ∨ ∃ e i, e ∈ es ∧ madeBy e i k x)
  ∧ (∀ e i, e ∈ es → (0 < i ≤ length (entryParts e))%nat →
       is_Some (foldl insertEntry m es !! prefixAt e i)).
Proof.
  induction es as [ | e es IH ]; intros m.
  { simpl. split_and!; [ done | by left | by intros ?? ?%elem_of_nil ]. }
  destruct (insertEntry_nodes m e) as (HA1 & HB1 & HC1).
  destruct (IH (insertEntry m e)) as (HA & HB & HC). cbn [foldl]. split_and!.
  - intros k x Hk. by apply HA, HA1.
  - intros k x Hk. destruct (HB k x Hk) as [ Hmid | (e' & i & He' & Hmade) ].
    + destruct (HB1 k x Hmid) as [ ? | (i & Hmade) ]; [ by left | ].
      right. exists e, i. split; [ apply list_elem_of_here | done ].
    + right. exists e', i. split; [ by apply list_elem_of_further | done ].
  - intros e' i [ -> | He' ]%elem_of_cons Hi.
    + destruct (HC1 i Hi) as [n Hn]. apply kindOf_is_Some.
      assert (is_Some (kindOf (insertEntry m e) (prefixAt e i))) as [x Hx]
        by (apply kindOf_is_Some; by eexists).
      exists x. by apply HA.
    + by apply HC.
Qed.

Lemma kindOf_root k x :
  kindOf (<[[] := root]> ∅) k = Some x ↔ k = [] ∧ x = ([], true).
Proof.
  rewrite kindOf_insert. destruct (decide ([] = k)) as [ <- | Hne ].
  - simpl. split; [ by intros [= <-] | by intros [_ ->] ].
  - unfold kindOf. rewrite lookup_empty. simpl. split; [ done | ]. by intros [? _].
Qed.

Lemma prefixAt_nonempty e i : (0 < i ≤ length (entryParts e))%nat → prefixAt e i ≠ [].
Proof.
  intros Hi. unfold prefixAt. apply join_nonempty.
  - destruct (entryParts e); [ simpl in Hi; lia | ]. destruct i; [ lia | done ].
  - apply Forall_take, entryParts_nonempty.
Qed.

Lemma kindOf_rearranged m t k : rearranged m t → kindOf t k = kindOf m k.
Proof.
  intros Hr. specialize (Hr k). unfold kindOf.
  destruct (m !! k), (t !! k); try done. destruct Hr as (Hn & _ & Hd & _). simpl.
  by rewrite Hn, Hd.
Qed.

(** Sorting with [compareEntries] puts the directory entries before the
    file entries, whatever [localeCompare] answers. *)
Lemma insertSorted_directories_first localeCompare x ds fs :
  Forall (λ e, entry_isDirectory e = true) ds →
  Forall (λ e, entry_isDirectory e = false) fs →
  ∃ ds' fs', insertSorted (compareEntries localeCompare) x (ds ++ fs) = ds' ++ fs'
             ∧ Forall (λ e, entry_isDirectory e = true) ds'
             ∧ Forall (λ e, entry_isDirectory e = false) fs'.
Proof.
  intros Hds Hfs. induction Hds as [ | d ds Hd Hds IH ].
  - destruct (entry_isDirectory x) eqn:Hx.
    + exists [x], fs. split_and!; [ | by repeat constructor | done ].
      destruct fs as [ | f fs ]; [ done | ]. apply Forall_cons in Hfs as [Hf _].
      simpl. unfold compareEntries. by rewrite Hx, Hf.
    + exists [], (insertSorted (compareEntries localeCompare) x fs).
      split_and!; [ done | constructor | ].
      rewrite insertSorted_Permutation. by constructor.
  - cbn [app insertSorted]. destruct (_ <=? 0)%Z eqn:Hcmp.
    + destruct (entry_isDirectory x) eqn:Hx.
      * exists (x :: d :: ds), fs. split_and!; [ done | by repeat constructor | done ].
      * unfold compareEntries in Hcmp. by rewrite Hx, Hd in Hcmp.
    + destruct IH as (ds' & fs' & -> & Hds' & Hfs').
      exists (d :: ds'), fs'. split_and!; [ done | by constructor | done ].
Qed.

Lemma sortArray_directories_first localeCompare es :
  ∃ ds fs, sortArray (compareEntries localeCompare) es = ds ++ fs
           ∧ Forall (λ e, entry_isDirectory e = true) ds
           ∧ Forall (λ e, entry_isDirectory e = false) fs.
Proof.
  induction es as [ | e es (ds & fs & Heq & Hds & Hfs) ].
  - exists [], []. by split_and!.
  - simpl. rewrite Heq. by apply insertSorted_directories_first.
Qed.

Section TreeNodes.
Variable localeCompare : JSString → JSString → Z.

Lemma buildNodes_nodes entries :
  nodesOf entries (buildNodes localeCompare entries).
Proof.
  unfold buildNodes.
  destruct (foldl_insertEntry_nodes (sortArray (compareEntries localeCompare) entries)
              (<[[] := root]> ∅)) as (HA & HB & HC).
  split_and!.
  - apply HA. by apply kindOf_root.
  - intros k x Hk Hne. destruct (HB k x Hk) as [ [? _]%kindOf_root | (e & i & He & Hmade) ].
    + done.
    + exists e, i. split; [ | done ]. by rewrite sortArray_Permutation in He.
  - intros e i He Hi. apply HC; [ | done ]. by rewrite sortArray_Permutation.
Qed.

End TreeNodes.

Lemma buildNodes_directory_prefixes localeCompare entries e i :
  e ∈ entries → entry_isDirectory e = true → (0 < i ≤ length (entryParts e))%nat →
  ∃ name, kindOf (buildNodes localeCompare entries) (prefixAt e i) = Some (name, true).
Proof.
  intros He Hdir Hi. unfold buildNodes.
  destruct (sortArray_directories_first localeCompare entries) as (ds & fs & Heq & Hds & Hfs).
  assert (e ∈ ds) as Heds.
  { rewrite <- (sortArray_Permutation (compareEntries localeCompare)), Heq in He.
    apply elem_of_app in He as [ ? | Hf ]; [ done | ].
    rewrite Forall_forall in Hfs. apply Hfs in Hf. congruence. }
  rewrite Heq, foldl_app.
  destruct (foldl_insertEntry_nodes ds (<[[] := root]> ∅)) as (_ & HB & HC).
  destruct (foldl_insertEntry_nodes fs (foldl insertEntry (<[[] := root]> ∅) ds))
    as (HA & _ & _).
  destruct (HC e i Heds Hi) as [n Hn].
  exists (node_name n). apply HA.
  assert (kindOf (foldl insertEntry (<[[] := root]> ∅) ds) (prefixAt e i)
          = Some (node_name n, node_isDirectory n)) as Hk
    by (unfold kindOf; by rewrite Hn).
  rewrite Hk. do 2 f_equal.
  destruct (HB _ _ Hk) as [ [_ [= _ ->]]%kindOf_root | (e' & i' & He' & _ & _ & _ & Hkind) ];
    [ done | ].
  simpl in Hkind. rewrite Hkind. rewrite Forall_forall in Hds.
  rewrite (Hds e' He'). apply orb_true_r.
Qed.

Lemma buildTree_treeShaped localeCompare entries :
  ∃ t, buildTree localeCompare entries = Some t ∧ treeShaped t
       ∧ rearranged (buildNodes localeCompare entries) t.
Proof.
  destruct (buildTree_spec localeCompare entries (λ _, True)) as (t & Ht & Hr & _);
    [ done | ].
  exists t. split_and!; [ done | | done ].
  apply (treeShaped_sameShape _ _ (rearranged_sameShape _ _ Hr)
           (buildNodes_treeShaped localeCompare entries)).
Qed.

(** What is known of the tree [buildTree] returns. *)
Lemma buildTree_summary localeCompare entries :
  ∃ t, buildTree localeCompare entries = Some t
    ∧ treeShaped t
    ∧ (∀ k, kindOf t k = kindOf (buildNodes localeCompare entries) k)
    ∧ (∀ k n, t !! k = Some n → k ≠ [] →
         ∃ e i, e ∈ entries ∧ madeBy e i k (node_name n, node_isDirectory n))
    ∧ (∀ e i, e ∈ entries → (0 < i ≤ length (entryParts e))%nat →
         is_Some (t !! prefixAt e i))
    ∧ (∀ k n, t !! k = Some n → node_isDirectory n = false →
         ∃ e, e ∈ entries ∧ fileAt k e)
    ∧ (∀ k n, t !! k = Some n →
         node_issues n = fileIssuesAt (sortArray (compareEntries localeCompare) entries) k).
Proof.
  destruct (buildTree_treeShaped localeCompare entries) as (t & Ht & Hshaped & Hr).
  destruct (buildNodes_nodes localeCompare entries) as (Hroot & Hmade & Hall).
  assert (∀ k n, t !! k = Some n → k ≠ [] →
            ∃ e i, e ∈ entries ∧ madeBy e i k (node_name n, node_isDirectory n)) as Hmade'.
  { intros k n Hk Hne. apply Hmade; [ | done ].
    rewrite <- (kindOf_rearranged _ t k Hr). unfold kindOf. by rewrite Hk. }
  exists t. split_and!; [ done | done | | done | | | ].
  - intros k. by apply kindOf_rearranged.
  - intros e i He Hi. apply kindOf_is_Some. rewrite (kindOf_rearranged _ t _ Hr).
    apply kindOf_is_Some. by apply Hall.
  - intros k n Hk Hfile. destruct (decide (k = [])) as [ -> | Hne ].
    + rewrite <- (kindOf_rearranged _ t [] Hr) in Hroot. unfold kindOf in Hroot.
      rewrite Hk in Hroot. simpl in Hroot. congruence.
    + destruct (Hmade' k n Hk Hne) as (e & i & He & Hi & -> & _ & Hkind).
      simpl in Hkind. rewrite Hfile in Hkind. symmetry in Hkind.
      apply orb_false_iff in Hkind as [Hlast Hdir]. apply Nat.ltb_ge in Hlast.
      assert (i = length (entryParts e)) as -> by lia.
      exists e. split; [ done | ]. unfold fileAt, prefixAt. rewrite firstn_all.
      split_and!; [ done | | done ]. destruct (entryParts e); [ simpl in Hi; lia | done ].
  - intros k n Hk. rewrite <- buildNodes_issues. unfold issuesOf.
    specialize (Hr k). rewrite Hk in Hr.
    destruct (buildNodes localeCompare entries !! k); [ | done ].
    by destruct Hr as (_ & _ & _ & -> & _).
Qed.

(** The node at each prefix of the path of a directory entry is a
    directory. *)
Lemma buildTree_directory_prefixes localeCompare entries t e i :
  buildTree localeCompare entries = Some t →
  e ∈ entries → entry_isDirectory e = true → (0 < i ≤ length (entryParts e))%nat →
  ∃ n, t !! prefixAt e i = Some n ∧ node_isDirectory n = true.
Proof.
  intros Ht He Hdir Hi.
  destruct (buildTree_summary localeCompare entries) as (t' & Ht' & _ & Hkinds & _).
  rewrite Ht in Ht'. injection Ht' as <-.
  destruct (buildNodes_directory_prefixes localeCompare entries e i He Hdir Hi)
    as [name Hk].
  rewrite <- Hkinds in Hk. unfold kindOf in Hk.
  destruct (t !! prefixAt e i) as [ n | ]; [ | done ].
  exists n. split; [ done | ]. simpl in Hk. congruence.
Qed.

(** X9. The nodes of the tree [buildTree] returns are the root and one
    node for every prefix of the path of every entry, and no other. A node
    is named by the last segment of its path, and it is a file only at the
    end of the path of a file entry. *)
Theorem buildTree_nodes localeCompare entries :
  ∃ t, buildTree localeCompare entries = Some t
    ∧ (∀ k, is_Some (t !! k)
            ↔ k = [] ∨ ∃ e i, e ∈ entries ∧ (0 < i ≤ length (entryParts e))%nat
                              ∧ k = prefixAt e i)
    ∧ (∀ k n, t !! k = Some n → k ≠ [] →
         ∃ e i, e ∈ entries ∧ madeBy e i k (node_name n, node_isDirectory n))
    ∧ (∀ k n, t !! k = Some n → node_isDirectory n = false →
         ∃ e, e ∈ entries ∧ fileAt k e).
Proof.
  destruct (buildTree_summary localeCompare entries)
    as (t & Ht & ((r & Hr & _) & _) & _ & Hmade & Hall & Hfile & _).
  exists t. split_and!; [ done | | done | done ].
  intros k. split.
  - intros [n Hn]. destruct (decide (k = [])) as [ | Hne ]; [ by left | right ].
    destruct (Hmade k n Hn Hne) as (e & i & He & Hi & Hk & _). by exists e, i.
  - intros [ -> | (e & i & He & Hi & ->) ]; [ by eexists | by apply Hall ].
Qed.

(** X10. Whatever [localeCompare] answers, the node at the path of a
    directory entry is a directory, also when a file entry has the same
    path or comes before it in the list. *)
Theorem buildTree_directory_entries localeCompare entries e :
  e ∈ entries → entry_isDirectory e = true → entryParts e ≠ [] →
  ∃ t n, buildTree localeCompare entries = Some t
         ∧ t !! join [SLASH] (entryParts e) = Some n ∧ node_isDirectory n = true.
Proof.
  intros He Hdir Hparts.
  destruct (buildTree_treeShaped localeCompare entries) as (t & Ht & _).
  destruct (buildTree_directory_prefixes localeCompare entries t e
              (length (entryParts e)) Ht He Hdir) as (n & Hn & Hd).
  { destruct (entryParts e); [ done | simpl; lia ]. }
  unfold prefixAt in Hn. rewrite firstn_all in Hn. by exists t, n.
Qed.

Lemma buildTree_directory_entries_witness :
  ∃ t n, buildTree codeUnitCompare file_and_directory_a = Some t
         ∧ t !! join [SLASH] (entryParts (mkEntry (str "a") true 2 [])) = Some n
         ∧ node_isDirectory n = true.
Proof.
  apply (buildTree_directory_entries codeUnitCompare file_and_directory_a
           (mkEntry (str "a") true 2 [])).
  - apply list_elem_of_further, list_elem_of_here.
  - reflexivity.
  - by vm_compute.
Defined.

(** * Properties of [generateZip] *)

Lemma throughDirectories_descendant nodes k j :
  throughDirectories nodes k j → descendant nodes k j.
Proof. induction 1; [ constructor | by econstructor ]. Qed.

Section Below.
Variable nodes : gmap JSString TreeNode.
Hypothesis shaped : treeShaped nodes.

Lemma child_length k n c :
  nodes !! k = Some n → c ∈ children n → (length k < length c)%nat.
Proof.
  intros Hk Hc. destruct shaped as (_ & _ & Hchild & _).
  destruct (Hchild k n c Hk Hc) as (nc & _ & Hname & ->).
  by apply segmentPathOf_length.
Qed.

Lemma descendant_length k j : descendant nodes k j → k = j ∨ (length k < length j)%nat.
Proof.
  induction 1 as [ | k n c j Hk Hc _ IH ]; [ by left | right ].
  pose proof (child_length k n c Hk Hc). destruct IH as [ <- | ]; lia.
Qed.

Lemma parent_unique p np p' np' k :
  nodes !! p = Some np → k ∈ children np →
  nodes !! p' = Some np' → k ∈ children np' → p = p'.
Proof.
  intros Hp Hk Hp' Hk'. destruct shaped as (_ & _ & Hchild & _).
  destruct (Hchild p np k Hp Hk) as (nk & Hnk & Hname & Heq).
  destruct (Hchild p' np' k Hp' Hk') as (nk' & Hnk' & _ & Heq').
  rewrite Hnk in Hnk'. injection Hnk' as <-. rewrite Heq in Heq'.
  unfold segmentPathOf in Heq'.
  destruct p as [ | a p ], p' as [ | a' p' ]; simpl in Heq'; try done.
  - apply (f_equal length) in Heq'. simpl in Heq'. rewrite length_app in Heq'.
    simpl in Heq'. lia.
  - apply (f_equal length) in Heq'. simpl in Heq'. rewrite length_app in Heq'.
    simpl in Heq'. lia.
  - injection Heq' as -> Heq'. f_equal.
    change (p ++ ([SLASH] ++ node_name nk) = p' ++ ([SLASH] ++ node_name nk)) in Heq'.
    by apply app_inv_tail in Heq'.
Qed.

Lemma descendant_parent a j :
  descendant nodes a j → a ≠ j →
  ∃ p np, nodes !! p = Some np ∧ j ∈ children np ∧ descendant nodes a p.
Proof.
  induction 1 as [ | k n c j Hk Hc Hcj IH ]; intros Hne; [ done | ].
  destruct (decide (c = j)) as [ -> | Hcne ].
  - exists k, n. split_and!; [ done | done | constructor ].
  - destruct (IH Hcne) as (p & np & Hp & Hj & Hcp). exists p, np.
    split_and!; [ done | done | by econstructor ].
Qed.

Lemma descendant_comparable a b j :
  descendant nodes a j → descendant nodes b j →
  descendant nodes a b ∨ descendant nodes b a.
Proof.
  remember (length j) as len eqn:Hlen. revert j Hlen a b.
  induction (lt_wf len) as [ len _ IH ]. intros j -> a b Ha Hb.
  destruct (decide (a = j)) as [ -> | Hna ]; [ by right | ].
  destruct (decide (b = j)) as [ -> | Hnb ]; [ by left | ].
  destruct (descendant_parent a j Ha Hna) as (p & np & Hp & Hj & Hap).
  destruct (descendant_parent b j Hb Hnb) as (p' & np' & Hp' & Hj' & Hbp).
  rewrite <- (parent_unique p np p' np' j Hp Hj Hp' Hj') in Hbp.
  apply (IH (length p) (child_length p np j Hp Hj) p eq_refl a b Hap Hbp).
Qed.

(** Two children of a node have no descendant in common. *)
Lemma siblings_disjoint k n c1 c2 j :
  nodes !! k = Some n → c1 ∈ children n → c2 ∈ children n →
  descendant nodes c1 j → descendant nodes c2 j → c1 = c2.
Proof.
  intros Hk Hc1 Hc2 H1 H2.
  assert (∀ a b, a ∈ children n → b ∈ children n → descendant nodes a b → a = b) as Hup.
  { intros a b Ha Hb Hab. destruct (decide (a = b)) as [ | Hne ]; [ done | ].
    destruct (descendant_parent a b Hab Hne) as (p & np & Hp & Hbp & Hap).
    rewrite <- (parent_unique k n p np b Hk Hb Hp Hbp) in Hap.
    pose proof (child_length k n a Hk Ha).
    destruct (descendant_length a k Hap) as [ -> | ]; lia. }
  destruct (descendant_comparable c1 c2 j H1 H2) as [ H | H ].
  - by apply Hup.
  - symmetry. by apply Hup.
Qed.

Lemma fileBelow_file k n j :
  nodes !! k = Some n → node_isDirectory n = false → fileBelow nodes k j ↔ j = k.
Proof.
  intros Hk Hfile. split.
  - intros [Hthrough _]. inversion Hthrough; [ done | congruence ].
  - intros ->. split; [ constructor | by exists n ].
Qed.

Lemma fileBelow_directory k n j :
  nodes !! k = Some n → node_isDirectory n = true →
  fileBelow nodes k j ↔ ∃ c, c ∈ children n ∧ fileBelow nodes c j.
Proof.
  intros Hk Hdir. split.
  - intros [Hthrough (nj & Hj & Hfile)]. inversion Hthrough as [ | k' n' c j' Hk' _ Hc Hcj ]; subst.
    + congruence.
    + rewrite Hk in Hk'. injection Hk' as <-. exists c. split; [ done | ].
      split; [ done | by exists nj ].
  - intros (c & Hc & Hcj & Hfile). split; [ by econstructor | done ].
Qed.

Section Fuel.
Variable bound : nat.
Hypothesis bound_ok : ∀ k n, nodes !! k = Some n → (length k < bound)%nat.

Lemma addNode_spec fuel : ∀ k n zipPath zip,
  nodes !! k = Some n → segmentPathOf zipPath (node_name n) = k ∨ k = [] →
  (bound ≤ fuel + length k)%nat →
  ∃ fs, addNode fuel nodes k zipPath zip = Some (zip ++ fs)
        ∧ NoDup fs ∧ ∀ j, j ∈ fs ↔ fileBelow nodes k j.
Proof.
  induction fuel as [ | fuel IH ]; intros k n zipPath zip Hk Hpath Hb.
  { apply bound_ok in Hk. lia. }
  pose proof shaped as ((r & Hr & Hrname & Hrdir) & Hpaths & Hchild & Hnodup & _).
  assert (∀ cur cs zip, (cur = k ∧ k ≠ [] ∨ cur = [] ∧ k = []) →
            cs ⊆ children n → NoDup cs →
            ∃ fs, foldl (λ acc child, acc ≫= addNode fuel nodes child cur) (Some zip) cs
                  = Some (zip ++ fs)
                  ∧ NoDup fs ∧ ∀ j, j ∈ fs ↔ ∃ c, c ∈ cs ∧ fileBelow nodes c j) as Hloop.
  { intros cur cs. induction cs as [ | c cs IHcs ] using rev_ind; intros zip' Hcur Hsub Hnd.
    - exists []. rewrite app_nil_r. split_and!; [ done | constructor | ].
      intros j. split; [ by intros ?%elem_of_nil | by intros (? & ?%elem_of_nil & _) ].
    - apply NoDup_app in Hnd as (Hnd & Hfresh & _).
      destruct (IHcs zip' Hcur) as (fs & Hfs & Hndfs & Hin); [ | done | ].
      { intros x Hx. apply Hsub, elem_of_app. by left. }
      rewrite foldl_app. cbn [foldl]. rewrite Hfs. cbn [mbind option_bind].
      assert (c ∈ children n) as Hc.
      { apply Hsub, elem_of_app. right. apply list_elem_of_here. }
      destruct (Hchild k n c Hk Hc) as (nc & Hnc & Hname & Hceq).
      destruct (IH c nc cur (zip' ++ fs) Hnc) as (fc & Hfc & Hndfc & Hinc).
      { left. destruct Hcur as [ [-> _] | [-> ->] ]; done. }
      { pose proof (child_length k n c Hk Hc). lia. }
      exists (fs ++ fc). rewrite Hfc, <- app_assoc. split_and!; [ done | | ].
      + apply NoDup_app. split_and!; [ done | | done ].
        intros j Hj Hj'. apply Hin in Hj as (c' & Hc' & Hbelow' & _).
        apply Hinc in Hj' as [Hbelow _].
        assert (c' = c) as ->.
        { apply (siblings_disjoint k n c' c j Hk); [ | done | | ].
          - apply Hsub, elem_of_app. by left.
          - by apply throughDirectories_descendant.
          - by apply throughDirectories_descendant. }
        apply (Hfresh c Hc'), list_elem_of_here.
      + intros j. rewrite elem_of_app, Hin, Hinc. split.
        * intros [ (c' & Hc' & ?) | ? ]; [ exists c' | exists c ];
            (split; [ apply elem_of_app | done ]); [ by left | right; apply list_elem_of_here ].
        * intros (c' & [ Hc' | ->%list_elem_of_singleton ]%elem_of_app & ?);
            [ left; by exists c' | by right ]. }
  cbn [addNode]. rewrite Hk. rewrite (Hpaths k n Hk).
  destruct k as [ | a k ]; cbn [truthy negb].
  - rewrite Hr in Hk. injection Hk as <-.
    destruct (Hloop [] (children r) zip) as (fs & Hfs & Hnd & Hin);
      [ by right | done | by eapply Hnodup | ].
    exists fs. split_and!; [ done | done | ].
    intros j. rewrite Hin. symmetry. by apply (fileBelow_directory [] r).
  - destruct Hpath as [ Hpath | ? ]; [ | done ]. unfold segmentPathOf in Hpath.
    rewrite Hpath. destruct (node_isDirectory n) eqn:Hdir.
    + destruct (Hloop (a :: k) (children n) zip) as (fs & Hfs & Hnd & Hin);
        [ by left | done | by eapply Hnodup | ].
      exists fs. split_and!; [ done | done | ].
      intros j. rewrite Hin. symmetry. by apply (fileBelow_directory (a :: k) n).
    + exists [a :: k]. split_and!; [ done | apply NoDup_singleton | ].
      intros j. rewrite list_elem_of_singleton. symmetry. by apply (fileBelow_file (a :: k) n).
Qed.
End Fuel.

Lemma generateZip_spec :
  ∃ files, generateZip (enoughFuel nodes) nodes = Some files
           ∧ NoDup files ∧ ∀ j, j ∈ files ↔ fileBelow nodes [] j.
Proof.
  destruct shaped as ((r & Hr & _) & _).
  destruct (addNode_spec (enoughFuel nodes) (enoughFuel_bound nodes)
              (enoughFuel nodes) [] r [] [] Hr) as (fs & Hfs & Hnd & Hin);
    [ by right | lia | ].
  exists fs. by split_and!.
Qed.
End Below.

Lemma entryParts_slash_free e : Forall (λ p, SLASH ∉ p) (entryParts e).
Proof.
  unfold entryParts. apply Forall_forall. intros p [_ Hp]%list_elem_of_filter.
  pose proof (split_no_sep SLASH (entry_path e)) as Hfree.
  rewrite Forall_forall in Hfree. by apply Hfree.
Qed.

Lemma join_inj (l1 l2 : list JSString) :
  Forall (λ p, p ≠ [] ∧ SLASH ∉ p) l1 → Forall (λ p, p ≠ [] ∧ SLASH ∉ p) l2 →
  join [SLASH] l1 = join [SLASH] l2 → l1 = l2.
Proof.
  intros H1 H2 Heq.
  destruct (decide (l1 = [])) as [ -> | Hne1 ].
  { destruct (decide (l2 = [])) as [ -> | Hne2 ]; [ done | ].
    symmetry in Heq. apply join_nonempty in Heq; [ done | done | ].
    eapply Forall_impl; [ exact H2 | ]. by intros ? [? _]. }
  destruct (decide (l2 = [])) as [ -> | Hne2 ].
  { apply join_nonempty in Heq; [ done | done | ].
    eapply Forall_impl; [ exact H1 | ]. by intros ? [? _]. }
  rewrite <- (split_join SLASH l1), <- (split_join SLASH l2), Heq; [ done | done | | done | ].
  - eapply Forall_impl; [ exact H2 | ]. by intros ? [_ ?].
  - eapply Forall_impl; [ exact H1 | ]. by intros ? [_ ?].
Qed.

Lemma entryParts_segments e : Forall (λ p, p ≠ [] ∧ SLASH ∉ p) (entryParts e).
Proof.
  pose proof (entryParts_nonempty e) as H1. pose proof (entryParts_slash_free e) as H2.
  rewrite Forall_forall in *. intros p Hp. split; [ by apply H1 | by apply H2 ].
Qed.

(** X11. [generateZip] on the tree [buildTree] returns adds each file at
    most once, under the path of its node; the files added are the file
    nodes that have directories only above them, each of them the end of
    the path of a file entry; nothing is added for a directory, so that
    directory entries alone give an empty archive. *)
Theorem generateZip_buildTree localeCompare entries :
  ∃ t files, buildTree localeCompare entries = Some t
    ∧ generateZip (enoughFuel t) t = Some files
    ∧ NoDup files
    ∧ (∀ j, j ∈ files ↔ fileBelow t [] j)
    ∧ (∀ j, j ∈ files → ∃ e, e ∈ entries ∧ fileAt j e)
    ∧ ((∀ e, e ∈ entries → entry_isDirectory e = true) → files = []).
Proof.
  destruct (buildTree_summary localeCompare entries)
    as (t & Ht & Hshaped & _ & _ & _ & Hfile & _).
  destruct (generateZip_spec t Hshaped) as (files & Hfiles & Hnd & Hin).
  assert (∀ j, j ∈ files → ∃ e, e ∈ entries ∧ fileAt j e) as Hentries.
  { intros j (_ & n & Hn & Hf)%Hin. by eapply Hfile. }
  exists t, files. split_and!; try done.
  intros Hdirs. destruct files as [ | j files ]; [ done | ].
  destruct (Hentries j) as (e & He & Hf & _); [ apply list_elem_of_here | ].
  rewrite (Hdirs e He) in Hf. done.
Qed.

Lemma throughDirectories_snoc nodes a p np j :
  throughDirectories nodes a p → nodes !! p = Some np → node_isDirectory np = true →
  j ∈ children np → throughDirectories nodes a j.
Proof.
  induction 1 as [ k | k nk c p Hk Hdir Hck _ IH ]; intros Hp Hd Hj.
  - eapply through_child; [ done | done | done | constructor ].
  - eapply through_child; [ done | done | done | by apply IH ].
Qed.

Section Complete.
Variable localeCompare : JSString → JSString → Z.
Variable entries : list PathEntry.
Hypothesis files_are_leaves : ∀ e e',
  e ∈ entries → e' ∈ entries → entry_isDirectory e = false →
  entryParts e `prefix_of` entryParts e' →
  entryParts e' = entryParts e ∧ entry_isDirectory e' = false.

Variable t : gmap JSString TreeNode.
Hypothesis shaped : treeShaped t.
Hypothesis made : ∀ k n, t !! k = Some n → k ≠ [] →
  ∃ e i, e ∈ entries ∧ madeBy e i k (node_name n, node_isDirectory n).

Lemma parent_is_directory p np j :
  t !! p = Some np → j ∈ children np → node_isDirectory np = true.
Proof.
  intros Hp Hj. destruct (node_isDirectory np) eqn:Hkind; [ done | exfalso ].
  pose proof shaped as ((r & Hr & _ & Hrdir) & _ & Hchild & _).
  destruct (decide (p = [])) as [ -> | Hne ]; [ congruence | ].
  destruct (made p np Hp Hne) as (e0 & i0 & He0 & Hi0 & Hp0 & _ & Hk0).
  simpl in Hk0. rewrite Hkind in Hk0. symmetry in Hk0.
  apply orb_false_iff in Hk0 as [Hlast Hfile]. apply Nat.ltb_ge in Hlast.
  assert (i0 = length (entryParts e0)) as -> by lia.
  unfold prefixAt in Hp0. rewrite firstn_all in Hp0.
  destruct (Hchild p np j Hp Hj) as (nj & Hnj & Hname & Hjeq).
  assert (j ≠ []) as Hjne by (rewrite Hjeq; by apply segmentPathOf_nonempty).
  destruct (made j nj Hnj Hjne) as (e & i & He & Hi & Hje & Hn & _). simpl in Hn.
  assert (take i (entryParts e) = take (i - 1) (entryParts e) ++ [node_name nj]) as Htake.
  { replace i with (S (i - 1)) at 1 by lia. by apply take_S_r. }
  unfold prefixAt in Hje. rewrite Htake in Hje.
  rewrite <- join_snoc in Hje by (apply Forall_take, entryParts_nonempty).
  rewrite Hjeq in Hje. unfold segmentPathOf in Hje.
  destruct p as [ | a p ]; [ done | ]. cbn [truthy] in Hje.
  destruct (join [SLASH] (take (i - 1) (entryParts e))) as [ | b q ] eqn:Hq.
  { cbn [truthy] in Hje. apply (f_equal length) in Hje. simpl in Hje.
    rewrite length_app in Hje. simpl in Hje. lia. }
  cbn [truthy] in Hje. apply app_inv_tail in Hje. rewrite Hp0, <- Hq in Hje.
  apply join_inj in Hje;
    [ | apply entryParts_segments | apply Forall_take, entryParts_segments ].
  destruct (files_are_leaves e0 e He0 He Hfile) as [Hsame _].
  { rewrite Hje. apply prefix_take. }
  rewrite Hsame in Hje, Hi. apply (f_equal length) in Hje. rewrite length_take in Hje. lia.
Qed.

Lemma throughDirectories_root j : is_Some (t !! j) → throughDirectories t [] j.
Proof.
  remember (length j) as len eqn:Hlen. revert j Hlen.
  induction (lt_wf len) as [ len _ IH ]. intros j -> [n Hj].
  destruct (decide (j = [])) as [ -> | Hne ]; [ constructor | ].
  pose proof shaped as (_ & _ & _ & _ & Hparent).
  destruct (Hparent j n Hj Hne) as (p & np & Hp & Hc).
  apply (throughDirectories_snoc t [] p np j); [ | done | by eapply parent_is_directory | done ].
  apply (IH (length p)); [ | done | by eexists ]. by eapply child_length.
Qed.
End Complete.

(** X12. When no file entry has a path that another entry continues or
    declares as a directory, [generateZip] adds exactly the paths of the
    file entries. *)
Theorem generateZip_file_entries localeCompare entries :
  (∀ e e', e ∈ entries → e' ∈ entries → entry_isDirectory e = false →
           entryParts e `prefix_of` entryParts e' →
           entryParts e' = entryParts e ∧ entry_isDirectory e' = false) →
  ∃ t files, buildTree localeCompare entries = Some t
    ∧ generateZip (enoughFuel t) t = Some files
    ∧ ∀ j, j ∈ files ↔ ∃ e, e ∈ entries ∧ fileAt j e.
Proof.
  intros Hleaves.
  destruct (buildTree_summary localeCompare entries)
    as (t & Ht & Hshaped & _ & Hmade & Hall & Hfile & _).
  destruct (generateZip_spec t Hshaped) as (files & Hfiles & Hnd & Hin).
  exists t, files. split_and!; [ done | done | ]. intros j. rewrite Hin. split.
  - intros (_ & n & Hn & Hf). by eapply Hfile.
  - intros (e & He & Hf & Hparts & Hj).
    assert (is_Some (t !! j)) as [n Hn].
    { rewrite <- Hj, <- (firstn_all (entryParts e)). apply Hall; [ done | ].
      destruct (entryParts e); [ done | simpl; lia ]. }
    split; [ apply (throughDirectories_root entries Hleaves t Hshaped Hmade); by eexists | ].
    exists n. split; [ done | ].
    assert (j ≠ []) as Hjne.
    { rewrite <- Hj. apply join_nonempty; [ done | apply entryParts_nonempty ]. }
    destruct (Hmade j n Hn Hjne) as (e' & i & He' & Hi & Hje & _ & Hkind).
    simpl in Hkind. unfold prefixAt in Hje. rewrite <- Hj in Hje.
    apply join_inj in Hje;
      [ | apply entryParts_segments | apply Forall_take, entryParts_segments ].
    destruct (Hleaves e e' He He' Hf) as [Hsame Hf'].
    { rewrite Hje. apply prefix_take. }
    rewrite Hkind, Hf', orb_false_r. apply Nat.ltb_ge.
    rewrite Hsame in Hje. apply (f_equal length) in Hje. rewrite length_take in Hje.
    rewrite Hsame. lia.
Qed.

Lemma generateZip_file_entries_witness :
  ∃ t files, buildTree codeUnitCompare file_a_dir_b = Some t
    ∧ generateZip (enoughFuel t) t = Some files
    ∧ ∀ j, j ∈ files ↔ ∃ e, e ∈ file_a_dir_b ∧ fileAt j e.
Proof.
  apply (generateZip_file_entries codeUnitCompare file_a_dir_b).
  intros e e' He He' Hfile Hprefix.
  apply elem_of_cons in He as [ -> | He ].
  - apply elem_of_cons in He' as [ -> | He' ]; [ done | ].
    apply list_elem_of_singleton in He' as ->.
    destruct Hprefix as [k Hk]. vm_compute in Hk. discriminate.
  - apply list_elem_of_singleton in He as ->. discriminate.
Defined.

(** * Properties of [writeTreeToDirectory] *)

Section Count.
Variable nodes : gmap JSString TreeNode.
Hypothesis shaped : treeShaped nodes.
Variable bound : nat.
Hypothesis bound_ok : ∀ k n, nodes !! k = Some n → (length k < bound)%nat.

Lemma descendant_inv k n j :
  nodes !! k = Some n →
  descendant nodes k j ↔ j = k ∨ ∃ c, c ∈ children n ∧ descendant nodes c j.
Proof.
  intros Hk. split.
  - inversion 1 as [ | k' n' c j' Hk' Hc Hcj ]; subst; [ by left | right ].
    rewrite Hk in Hk'. injection Hk' as <-. by exists c.
  - intros [ -> | (c & Hc & Hcj) ]; [ constructor | by econstructor ].
Qed.

Lemma countNodes_spec fuel : ∀ k n,
  nodes !! k = Some n → (bound ≤ fuel + length k)%nat →
  ∃ ds, (∀ total, countNodes fuel nodes k total = Some (total + length ds)%nat)
        ∧ NoDup ds ∧ ∀ j, j ∈ ds ↔ descendant nodes k j.
Proof.
  induction fuel as [ | fuel IH ]; intros k n Hk Hb.
  { apply bound_ok in Hk. lia. }
  pose proof shaped as (_ & _ & Hchild & Hnodup & _).
  assert (∀ cs, cs ⊆ children n → NoDup cs →
            ∃ ds, (∀ total, foldl (λ acc child, acc ≫= countNodes fuel nodes child)
                              (Some total) cs = Some (total + length ds)%nat)
                  ∧ NoDup ds ∧ ∀ j, j ∈ ds ↔ ∃ c, c ∈ cs ∧ descendant nodes c j) as Hloop.
  { intros cs. induction cs as [ | c cs IHcs ] using rev_ind; intros Hsub Hnd.
    - exists []. split_and!; [ intros total; simpl; f_equal; lia | constructor | ].
      intros j. split; [ by intros ?%elem_of_nil | by intros (? & ?%elem_of_nil & _) ].
    - apply NoDup_app in Hnd as (Hnd & Hfresh & _).
      destruct IHcs as (ds & Hds & Hndds & Hin); [ | done | ].
      { intros x Hx. apply Hsub, elem_of_app. by left. }
      assert (c ∈ children n) as Hc.
      { apply Hsub, elem_of_app. right. apply list_elem_of_here. }
      destruct (Hchild k n c Hk Hc) as (nc & Hnc & Hname & Hceq).
      destruct (IH c nc Hnc) as (dc & Hdc & Hnddc & Hinc).
      { pose proof (child_length nodes shaped k n c Hk Hc). lia. }
      exists (ds ++ dc). split_and!.
      + intros total. rewrite foldl_app. cbn [foldl]. rewrite Hds. cbn [mbind option_bind].
        rewrite Hdc, length_app. f_equal. lia.
      + apply NoDup_app. split_and!; [ done | | done ].
        intros j Hj Hj'. apply Hin in Hj as (c' & Hc' & Hbelow').
        apply Hinc in Hj'.
        assert (c' = c) as ->.
        { apply (siblings_disjoint nodes shaped k n c' c j Hk); [ | done | done | done ].
          apply Hsub, elem_of_app. by left. }
        apply (Hfresh c Hc'), list_elem_of_here.
      + intros j. rewrite elem_of_app, Hin, Hinc. split.
        * intros [ (c' & Hc' & ?) | ? ]; [ exists c' | exists c ];
            (split; [ apply elem_of_app | done ]); [ by left | right; apply list_elem_of_here ].
        * intros (c' & [ Hc' | ->%list_elem_of_singleton ]%elem_of_app & ?);
            [ left; by exists c' | by right ]. }
  destruct (Hloop (children n)) as (ds & Hds & Hnd & Hin); [ done | by eapply Hnodup | ].
  exists (k :: ds). split_and!.
  - intros total. cbn [countNodes]. rewrite Hk, Hds. simpl. f_equal. lia.
  - constructor; [ | done ]. intros (c & Hc & Hck)%Hin.
    pose proof (child_length nodes shaped k n c Hk Hc).
    destruct (descendant_length nodes shaped c k Hck) as [ -> | ]; lia.
  - intros j. rewrite (descendant_inv k n j Hk), elem_of_cons, Hin. done.
Qed.
End Count.

Lemma last_cons_is_Some {A} (x : A) l : is_Some (last (x :: l)).
Proof. revert x. induction l as [ | y l IH ]; intros x; [ by eexists | apply IH ]. Qed.

Lemma progressCalls_app total first n m :
  progressCalls total first (n + m)
  = progressCalls total first n ++ progressCalls total (first + n) m.
Proof. unfold progressCalls. by rewrite seq_app, fmap_app. Qed.

Section WriterSpec.
Variable nodes : gmap JSString TreeNode.
Hypothesis shaped : treeShaped nodes.
Variable fs : FileSystem.
Variable reporting : bool.
Variable total : nat.

Lemma written_ext from from' st st' r vis :
  (∀ c, from c ↔ from' c) →
  written nodes fs reporting total from st st' r vis →
  written nodes fs reporting total from' st st' r vis.
Proof.
  intros Hext (Hcur & Hprog & Hnd & Hthrough & Hmade & Hall & Hfail).
  split_and!; try done.
  - intros j Hj. destruct (Hthrough j Hj) as (c & Hc & ?). exists c. by rewrite <- Hext.
  - intros Hr c j Hc. apply (Hall Hr c j). by rewrite Hext.
  - intros v Hv. destruct (Hfail v Hv) as (c & ks & ns & h & n & e & Hc & Hrest).
    exists c, ks, ns, h, n, e. by rewrite <- Hext.
Qed.

Lemma written_nothing st : written nodes fs reporting total (λ c, c ∈ []) st st None [].
Proof.
  unfold written. simpl. split_and!.
  - lia.
  - destruct reporting; by rewrite app_nil_r.
  - constructor.
  - by intros j ?%elem_of_nil.
  - exists []. by rewrite app_nil_r.
  - by intros _ c j ?%elem_of_nil.
  - done.
Qed.

Lemma written_throw from1 from2 st st1 v vis1 :
  written nodes fs reporting total from1 st st1 (Some v) vis1 →
  written nodes fs reporting total (λ c, from1 c ∨ from2 c) st st1 (Some v) vis1.
Proof.
  intros (Hcur & Hprog & Hnd & Hthrough & Hmade & Hall & Hfail).
  split_and!; try done.
  - intros j Hj. destruct (Hthrough j Hj) as (c & Hc & ?). exists c. by split; [ left | ].
  - intros v' Hv'. destruct (Hfail v' Hv') as (c & ks & ns & h & n & e & Hc & Hrest).
    exists c, ks, ns, h, n, e. by split; [ left | ].
Qed.

Lemma written_seq from1 from2 st st1 st2 r vis1 vis2 :
  written nodes fs reporting total from1 st st1 None vis1 →
  written nodes fs reporting total from2 st1 st2 r vis2 →
  (∀ j, j ∈ vis1 → j ∉ vis2) →
  written nodes fs reporting total (λ c, from1 c ∨ from2 c) st st2 r (vis1 ++ vis2).
Proof.
  intros (Hcur1 & Hprog1 & Hnd1 & Hthrough1 & (made1 & Hmade1 & Hkeys1 & Hkinds1) & Hall1 & _)
         (Hcur2 & Hprog2 & Hnd2 & Hthrough2 & (made2 & Hmade2 & Hkeys2 & Hkinds2) & Hall2 & Hfail2)
         Hdisj.
  split_and!.
  - rewrite Hcur2, Hcur1, length_app. lia.
  - rewrite Hprog2, Hprog1, Hcur1, length_app, <- app_assoc. f_equal.
    destruct reporting; [ | done ]. rewrite progressCalls_app. f_equal. 
  - apply NoDup_app. by split_and!.
  - intros j [ Hj | Hj ]%elem_of_app.
    + destruct (Hthrough1 j Hj) as (c & Hc & ?). exists c. by split; [ left | ].
    + destruct (Hthrough2 j Hj) as (c & Hc & ?). exists c. by split; [ right | ].
  - exists (made1 ++ made2). split_and!.
    + by rewrite Hmade2, Hmade1, app_assoc.
    + rewrite fmap_app, Hkeys1, Hkeys2. destruct r as [ v | ]; [ | done ].
      destruct (Hfail2 v eq_refl) as (c & ks & ns & h & n & e & _ & _ & _ & Hlast & _).
      destruct vis2 as [ | j vis2 ].
      * destruct (last_cons_is_Some c ks) as [? Hsome]. by rewrite Hlast in Hsome.
      * by rewrite removelast_app.
    + by apply Forall_app.
  - intros -> c j [ Hc | Hc ] Hj; apply elem_of_app; [ left | right ].
    + by apply (Hall1 eq_refl c).
    + by apply (Hall2 eq_refl c).
  - intros v Hv. destruct (Hfail2 v Hv) as (c & ks & ns & h & n & e & Hc & Hdesc & Hns
                                            & Hlast & Hn & Hjoin & Hrest).
    assert (vis2 ≠ []) as Hne.
    { intros ->. destruct (last_cons_is_Some c ks) as [? Hsome]. by rewrite Hlast in Hsome. }
    assert (last (vis1 ++ vis2) = last vis2) as Hl.
    { destruct vis2 as [ | j vis2 ] using rev_ind; [ done | ].
      by rewrite app_assoc, !last_snoc. }
    destruct Hrest as [Hfs Hmsg].
    exists c, ks, ns, h, n, e. rewrite Hl. split_and!; [ by right | done .. ].
Qed.

Lemma progressCalls_cons first n :
  progressCalls total first (S n) = (first, total) :: progressCalls total (S first) n.
Proof. done. Qed.

Lemma last_cons_cons {A} (x y : A) l : last (x :: y :: l) = last (y :: l).
Proof. done. Qed.

Lemma last_cons_nonempty {A} (x : A) l : l ≠ [] → last (x :: l) = last l.
Proof. by destruct l. Qed.

Lemma removelast_cons_nonempty {A} (x : A) l : l ≠ [] → removelast (x :: l) = x :: removelast l.
Proof. by destruct l. Qed.

Lemma node_name_nonempty k n : nodes !! k = Some n → k ≠ [] → node_name n ≠ [].
Proof.
  intros Hk Hne. destruct shaped as (_ & _ & Hchild & _ & Hparent).
  destruct (Hparent k n Hk Hne) as (p & np & Hp & Hc).
  destruct (Hchild p np k Hp Hc) as (nk & Hnk & Hname & _). congruence.
Qed.

Lemma written_visited from st st' v vis :
  written nodes fs reporting total from st st' (Some v) vis → vis ≠ [].
Proof.
  intros (_ & _ & _ & _ & _ & _ & Hfail) ->.
  destruct (Hfail v eq_refl) as (c & ks & _ & _ & _ & _ & _ & _ & _ & Hlast & _).
  destruct (last_cons_is_Some c ks) as [? Hsome]. by rewrite Hlast in Hsome.
Qed.

Section WriterFuel.
Variable bound : nat.
Hypothesis bound_ok : ∀ k n, nodes !! k = Some n → (length k < bound)%nat.

(** The loop over the children of a node, given what [writeNode] does on
    each of them. *)
Lemma forOf_spec fuel k n handle :
  (∀ c nc st, nodes !! c = Some nc → c ∈ children n →
     ∃ st' r vis, writeNode nodes fs reporting total fuel c handle st = Some (st', r)
                  ∧ written nodes fs reporting total (λ x, x = c) st st' r vis) →
  nodes !! k = Some n →
  ∀ cs st, cs ⊆ children n → NoDup cs →
    ∃ st' r vis,
      forOf (λ child, writeNode nodes fs reporting total fuel child handle) cs st = Some (st', r)
      ∧ written nodes fs reporting total (λ c, c ∈ cs) st st' r vis.
Proof.
  intros Hnode Hk. pose proof shaped as (_ & _ & Hchild & _).
  induction cs as [ | c cs IH ]; intros st Hsub Hnd.
  { exists st, None, []. split; [ done | apply written_nothing ]. }
  apply NoDup_cons in Hnd as [Hfresh Hnd].
  assert (c ∈ children n) as Hc by (apply Hsub, list_elem_of_here).
  destruct (Hchild k n c Hk Hc) as (nc & Hnc & _).
  destruct (Hnode c nc st Hnc Hc) as (st1 & r1 & vis1 & Hrun1 & Hw1).
  cbn [forOf]. rewrite Hrun1. destruct r1 as [ v | ].
  - exists st1, (Some v), vis1. split; [ done | ].
    eapply written_ext;
      [ | by apply (written_throw (λ x, x = c) (λ x, x ∈ cs) st st1 v vis1) ].
    intros x. simpl. rewrite elem_of_cons. done.
  - destruct (IH st1) as (st2 & r & vis2 & Hrun2 & Hw2); [ | done | ].
    { intros x Hx. by apply Hsub, list_elem_of_further. }
    exists st2, r, (vis1 ++ vis2). split; [ done | ].
    eapply written_ext;
      [ | apply (written_seq (λ x, x = c) (λ x, x ∈ cs) st st1 st2 r vis1 vis2 Hw1 Hw2) ].
    { intros x. simpl. rewrite elem_of_cons. done. }
    intros j Hj1 Hj2.
    destruct Hw1 as (_ & _ & _ & Hthrough1 & _). destruct Hw2 as (_ & _ & _ & Hthrough2 & _).
    destruct (Hthrough1 j Hj1) as (? & -> & Hcj).
    destruct (Hthrough2 j Hj2) as (c' & Hc' & Hcj').
    assert (c = c') as <-; [ | done ].
    apply (siblings_disjoint nodes shaped k n c c' j Hk); [ done | | | ].
    + by apply Hsub, list_elem_of_further.
    + by apply throughDirectories_descendant.
    + by apply throughDirectories_descendant.
Qed.

Lemma writeNode_spec fuel : ∀ k n handle st,
  nodes !! k = Some n → k ≠ [] →
  segmentPathOf (join [SLASH] handle) (node_name n) = k → Forall (λ p, p ≠ []) handle →
  (bound ≤ fuel + length k)%nat →
  ∃ st' r vis, writeNode nodes fs reporting total fuel k handle st = Some (st', r)
               ∧ written nodes fs reporting total (λ c, c = k) st st' r vis.
Proof.
  induction fuel as [ | fuel IH ]; intros k n handle st Hk Hne Hpath Hhandle Hb.
  { apply bound_ok in Hk. lia. }
  pose proof shaped as (_ & Hpaths & Hchild & Hnodup & _).
  cbn [writeNode]. rewrite Hk, (Hpaths k n Hk).
  destruct k as [ | a k' ] eqn:Hkeq; [ done | ]. cbn [truthy negb]. rewrite <- Hkeq in *.
  assert (join [SLASH] (handle ++ [node_name n]) = k) as Hjoin
    by (by rewrite <- join_snoc).
  set (st1 := reportProgress reporting total st).
  destruct (fs (ws_created st1) handle (node_name n) (node_isDirectory n)) as [ err | ] eqn:Hfs.
  { exists st1, (Some (Some (failureMessage n err))), [k]. split; [ done | ].
    split_and!.
    - simpl. lia.
    - simpl. destruct reporting; [ done | by rewrite app_nil_r ].
    - apply NoDup_singleton.
    - intros j ->%list_elem_of_singleton. exists k. split; [ done | constructor ].
    - exists []. simpl. split_and!; [ by rewrite app_nil_r | done | constructor ].
    - done.
    - intros v [= <-]. exists k, [], [n], handle, n, err. simpl.
      split_and!; try done. by repeat constructor. }
  set (st2 := mkWrite _ _ _).
  destruct (node_isDirectory n) eqn:Hdir; cycle 1.
  { exists st2, None, [k]. split; [ done | ].
    split_and!.
    - simpl. lia.
    - simpl. destruct reporting; [ done | by rewrite app_nil_r ].
    - apply NoDup_singleton.
    - intros j ->%list_elem_of_singleton. exists k. split; [ done | constructor ].
    - exists [(false, handle ++ [node_name n])]. simpl. rewrite Hjoin.
      split_and!; [ done | done | ]. repeat constructor. simpl. rewrite Hjoin. by exists n.
    - intros _ c j -> Hj. apply list_elem_of_singleton.
      inversion Hj; [ done | congruence ].
    - done. }
  destruct (forOf_spec fuel k n (handle ++ [node_name n])) with (cs := children n) (st := st2)
    as (st' & r & vis & Hrun & Hw); [ | done | done | by eapply Hnodup | ].
  { intros c nc st0 Hnc Hc. destruct (Hchild k n c Hk Hc) as (nc' & Hnc' & Hname & Hceq).
    rewrite Hnc in Hnc'. injection Hnc' as <-.
    apply (IH c nc); [ done | | | | ].
    - rewrite Hceq. by apply segmentPathOf_nonempty.
    - by rewrite Hjoin.
    - apply Forall_app. split; [ done | ]. repeat constructor.
      by apply (node_name_nonempty k).
    - pose proof (child_length nodes shaped k n c Hk Hc). lia. }
  rewrite Hrun.
  assert (k ∉ vis) as Hfresh.
  { intros Hin. destruct Hw as (_ & _ & _ & Hthrough & _).
    destruct (Hthrough k Hin) as (c & Hc & Hck%throughDirectories_descendant).
    pose proof (child_length nodes shaped k n c Hk Hc).
    destruct (descendant_length nodes shaped c k Hck) as [ -> | ]; lia. }
  exists st', (match r with Some e => Some (Some (failureMessage n e)) | None => None end),
    (k :: vis).
  split; [ by destruct r | ].
  assert (∀ v, r = Some v → vis ≠ []) as Hvis by (intros v ->; by eapply written_visited).
  destruct Hw as (Hcur & Hprog & Hnd & Hthrough & (made & Hmade & Hkeys & Hkinds) & Hall & Hfail).
  split_and!.
  - rewrite Hcur. simpl. lia.
  - rewrite Hprog. simpl. destruct reporting; [ | done ].
    by rewrite <- app_assoc, progressCalls_cons.
  - by constructor.
  - intros j [ -> | Hj ]%elem_of_cons.
    + exists k. split; [ done | constructor ].
    + destruct (Hthrough j Hj) as (c & Hc & Hcj). exists k. split; [ done | ].
      by eapply through_child.
  - exists ((true, handle ++ [node_name n]) :: made). split_and!.
    + rewrite Hmade. simpl. by rewrite <- app_assoc.
    + rewrite fmap_cons, Hkeys. simpl. rewrite Hjoin. destruct r as [ v | ]; [ | done ].
      pose proof (Hvis v eq_refl). by destruct vis.
    + constructor; [ | done ]. simpl. rewrite Hjoin. by exists n.
  - intros Hr c j -> Hj. destruct r; [ done | ].
    inversion Hj as [ | k0 n0 c j0 Hk0 _ Hc Hcj ]; subst; [ apply list_elem_of_here | ].
    rewrite Hk in Hk0. injection Hk0 as <-. apply list_elem_of_further.
    by apply (Hall eq_refl c).
  - intros v Hv. destruct r as [ e | ]; [ | done ]. injection Hv as <-.
    destruct (Hfail e eq_refl) as (c & ks & ns & h & nj & err & Hc & Hdesc & Hns & Hlast
                                   & Hlastn & Hjoinj & Hfsj & ->).
    pose proof (Hvis _ eq_refl) as Hvne.
    exists k, (c :: ks), (n :: ns), h, nj, err. split_and!; try done.
    + simpl. split; [ by exists n | done ].
    + by constructor.
    + rewrite last_cons_cons, Hlast. by rewrite (last_cons_nonempty k vis).
    + rewrite last_cons_nonempty; [ done | ]. intros ->. by apply Forall2_nil_inv_r in Hns.
    + by rewrite (last_cons_nonempty k vis).
Qed.
End WriterFuel.
End WriterSpec.

Section WriteTree.
Variable nodes : gmap JSString TreeNode.
Hypothesis shaped : treeShaped nodes.
Variable fs : FileSystem.
Variable reporting : bool.

Lemma descendant_is_Some k j :
  is_Some (nodes !! k) → descendant nodes k j → is_Some (nodes !! j).
Proof.
  intros Hk Hd. induction Hd as [ | k n c j Hn Hc _ IH ]; [ done | ].
  apply IH. destruct shaped as (_ & _ & Hchild & _).
  destruct (Hchild k n c Hn Hc) as (nc & Hnc & _). by eexists.
Qed.

Lemma countNodes_size :
  countNodes (enoughFuel nodes) nodes [] 0 = Some (size nodes).
Proof.
  pose proof shaped as ((r & Hr & _) & _).
  destruct (countNodes_spec nodes shaped (enoughFuel nodes) (enoughFuel_bound nodes)
              (enoughFuel nodes) [] r Hr) as (ds & Hds & Hnd & Hin); [ lia | ].
  rewrite Hds. f_equal. simpl.
  assert (ds ≡ₚ (map_to_list nodes).*1) as ->.
  { apply NoDup_Permutation; [ done | apply NoDup_fst_map_to_list | ].
    intros j. rewrite Hin, list_elem_of_fmap. split.
    - intros Hd. destruct (descendant_is_Some [] j) as [n Hn]; [ by eexists | done | ].
      exists (j, n). split; [ done | by apply elem_of_map_to_list ].
    - intros ([j' n] & -> & Hn%elem_of_map_to_list). apply descendant_root; [ done | by eexists ]. }
  by rewrite length_fmap, length_map_to_list.
Qed.

Lemma writeTreeToDirectory_spec :
  ∃ r st thrown visited,
    nodes !! [] = Some r
    ∧ writeTreeToDirectory (enoughFuel nodes) fs nodes reporting = Some (st, thrown)
    ∧ written nodes fs reporting (size nodes) (λ c, c ∈ children r)
        (mkWrite 0 [] []) st thrown visited
    ∧ (length visited < size nodes)%nat.
Proof.
  pose proof shaped as ((r & Hr & _ & Hrdir) & Hpaths & Hchild & Hnodup & _).
  unfold writeTreeToDirectory. rewrite countNodes_size. cbn [mbind option_bind].
  destruct (enoughFuel nodes) as [ | fuel ] eqn:Hfuel.
  { pose proof (enoughFuel_bound nodes [] r Hr). lia. }
  cbn [writeNode]. rewrite Hr, (Hpaths [] r Hr). cbn [truthy negb].
  destruct (forOf_spec nodes shaped fs reporting (size nodes) fuel [] r [])
    with (cs := children r) (st := mkWrite 0 [] [])
    as (st & thrown & vis & Hrun & Hw); [ | done | done | by eapply Hnodup | ].
  { intros c nc st0 Hnc Hc. destruct (Hchild [] r c Hr Hc) as (nc' & Hnc' & Hname & Hceq).
    rewrite Hnc in Hnc'. injection Hnc' as <-.
    apply (writeNode_spec nodes shaped fs reporting (size nodes) (enoughFuel nodes)
             (enoughFuel_bound nodes) fuel c nc); [ done | | done | constructor | ].
    - rewrite Hceq. by apply segmentPathOf_nonempty.
    - pose proof (child_length nodes shaped [] r c Hr Hc). simpl in *. lia. }
  exists r, st, thrown, vis. split_and!; [ done | done | done | ].
  destruct Hw as (_ & _ & Hnd & Hthrough & _).
  assert (NoDup ([] :: vis)) as Hnd'.
  { constructor; [ | done ]. intros (c & Hc & Hd%throughDirectories_descendant)%Hthrough.
    pose proof (child_length nodes shaped [] r c Hr Hc).
    destruct (descendant_length nodes shaped c [] Hd) as [ -> | ]; simpl in *; lia. }
  assert (([] :: vis) ⊆+ (map_to_list nodes).*1) as Hsub.
  { apply NoDup_submseteq; [ done | ]. intros j Hj. apply list_elem_of_fmap.
    assert (is_Some (nodes !! j)) as [n Hn].
    { apply elem_of_cons in Hj as [ -> | Hj ]; [ by eexists | ].
      destruct (Hthrough j Hj) as (c & Hc & Hd%throughDirectories_descendant).
      destruct (Hchild [] r c Hr Hc) as (nc & Hnc & _).
      apply (descendant_is_Some c j); [ by eexists | done ]. }
    exists (j, n). split; [ done | by apply elem_of_map_to_list ]. }
  apply submseteq_length in Hsub. rewrite length_fmap, length_map_to_list in Hsub.
  simpl in Hsub. lia.
Qed.
End WriteTree.

Lemma written_root nodes fs reporting total r st st' thrown visited j :
  treeShaped nodes → nodes !! [] = Some r →
  written nodes fs reporting total (λ c, c ∈ children r) st st' thrown visited →
  j ∈ visited → j ≠ [] ∧ throughDirectories nodes [] j.
Proof.
  intros Hshaped Hr (_ & _ & _ & Hthrough & _) Hj.
  destruct (Hthrough j Hj) as (c & Hc & Hcj). split.
  - intros ->. apply throughDirectories_descendant in Hcj.
    pose proof (child_length nodes Hshaped [] r c Hr Hc).
    destruct (descendant_length nodes Hshaped c [] Hcj) as [ -> | ]; simpl in *; lia.
  - destruct Hshaped as ((r' & Hr' & _ & Hdir) & _). rewrite Hr in Hr'. injection Hr' as <-.
    by eapply through_child.
Qed.

(** X13. [writeTreeToDirectory] on the tree [buildTree] returns comes to
    an end, whatever the file system does. The total it reports is the
    number of nodes of the tree, the root among them; the calls of
    [onProgress] are (1, total), (2, total) and so on, one for each node it
    comes to, the root not among them: the count reported stays below the
    total. Every node it comes to is created, but for the one at which the
    file system throws. *)
Theorem writeTreeToDirectory_progress localeCompare entries fs reporting :
  ∃ t st thrown,
    buildTree localeCompare entries = Some t
    ∧ writeTreeToDirectory (enoughFuel t) fs t reporting = Some (st, thrown)
    ∧ ws_progress st = (if reporting then progressCalls (size t) 1 (ws_current st) else [])
    ∧ (ws_current st < size t)%nat
    ∧ ws_current st
      = (length (ws_created st) + match thrown with None => 0 | Some _ => 1 end)%nat.
Proof.
  destruct (buildTree_treeShaped localeCompare entries) as (t & Ht & Hshaped & _).
  destruct (writeTreeToDirectory_spec t Hshaped fs reporting)
    as (r & st & thrown & vis & Hr & Hrun & Hw & Hlt).
  exists t, st, thrown. split_and!; [ done | done | | | ].
  - by destruct Hw as (-> & -> & _).
  - destruct Hw as (-> & _). simpl. lia.
  - pose proof Hw as (-> & _ & _ & _ & (made & -> & Hkeys & _) & _). simpl.
    apply (f_equal length) in Hkeys. rewrite length_fmap in Hkeys. rewrite Hkeys.
    destruct thrown as [ v | ]; [ | lia ].
    pose proof (written_visited _ _ _ _ _ _ _ _ _ Hw) as Hne.
    destruct vis as [ | j vis ] using rev_ind; [ done | ].
    rewrite removelast_last, length_app. simpl. lia.
Qed.

(** X14. What [writeTreeToDirectory] creates for the tree [buildTree]
    returns: nothing twice; only nodes of the tree other than the root,
    each with the kind of the node and under the handles named by its
    path, and with directories only above it; all of these when nothing
    is thrown, which is the case when the file system never throws. *)
Theorem writeTreeToDirectory_created localeCompare entries fs reporting :
  ∃ t st thrown,
    buildTree localeCompare entries = Some t
    ∧ writeTreeToDirectory (enoughFuel t) fs t reporting = Some (st, thrown)
    ∧ NoDup ((λ c, join [SLASH] c.2) <$> ws_created st)
    ∧ (∀ d handle, (d, handle) ∈ ws_created st →
         ∃ n, t !! join [SLASH] handle = Some n ∧ d = node_isDirectory n
              ∧ join [SLASH] handle ≠ [] ∧ throughDirectories t [] (join [SLASH] handle))
    ∧ (thrown = None →
       ∀ j n, t !! j = Some n → j ≠ [] → throughDirectories t [] j →
              ∃ handle, (node_isDirectory n, handle) ∈ ws_created st
                        ∧ join [SLASH] handle = j)
    ∧ ((∀ made handle name d, fs made handle name d = None) → thrown = None).
Proof.
  destruct (buildTree_treeShaped localeCompare entries) as (t & Ht & Hshaped & _).
  destruct (writeTreeToDirectory_spec t Hshaped fs reporting)
    as (r & st & thrown & vis & Hr & Hrun & Hw & Hlt).
  exists t, st, thrown. split_and!; [ done | done | | | | ].
  - destruct Hw as (_ & _ & Hnd & _ & (made & -> & Hkeys & _) & _). simpl. rewrite Hkeys.
    destruct thrown; [ | done ].
    destruct vis as [ | j vis ] using rev_ind; [ constructor | ].
    rewrite removelast_last. by apply NoDup_app in Hnd as (? & _).
  - intros d handle Hin.
    pose proof Hw as (_ & _ & _ & _ & (made & Hmade & Hkeys & Hkinds) & _).
    rewrite Hmade in Hin. simpl in Hin. rewrite Forall_forall in Hkinds.
    destruct (Hkinds _ Hin) as (n & Hn & Hd). simpl in Hn, Hd.
    assert (join [SLASH] handle ∈ vis) as Hvis.
    { assert (join [SLASH] handle ∈ (λ c, join [SLASH] c.2) <$> made) as Hk.
      { apply list_elem_of_fmap. by exists (d, handle). }
      rewrite Hkeys in Hk. destruct thrown; [ | done ].
      destruct vis as [ | j vis ] using rev_ind; [ by apply elem_of_nil in Hk | ].
      rewrite removelast_last in Hk. apply elem_of_app. by left. }
    destruct (written_root _ _ _ _ _ _ _ _ _ _ Hshaped Hr Hw Hvis) as [Hne Hthrough].
    by exists n.
  - intros -> j n Hn Hne Hthrough.
    pose proof Hw as (_ & _ & _ & _ & (made & Hmade & Hkeys & Hkinds) & Hall & _).
    assert (j ∈ vis) as Hvis.
    { inversion Hthrough as [ | k0 n0 c j0 Hk0 _ Hc Hcj ]; subst; [ done | ].
      rewrite Hr in Hk0. injection Hk0 as <-. by apply (Hall eq_refl c). }
    rewrite <- Hkeys in Hvis. apply list_elem_of_fmap in Hvis as ([d handle] & -> & Hin).
    simpl in *. exists handle. split; [ | done ]. rewrite Hmade. simpl.
    rewrite Forall_forall in Hkinds. destruct (Hkinds _ Hin) as (n' & Hn' & Hd).
    simpl in Hn', Hd. rewrite Hn in Hn'. injection Hn' as <-. by rewrite <- Hd.
  - intros Hnever. destruct thrown as [ v | ]; [ | done ].
    destruct Hw as (_ & _ & _ & _ & _ & _ & Hfail).
    destruct (Hfail v eq_refl) as (c & ks & ns & h & n & e & _ & _ & _ & _ & _ & _ & Hfs & _).
    by rewrite Hnever in Hfs.
Qed.

(** X15. When [writeTreeToDirectory] throws, the file system has thrown
    at a node below the root; what is thrown is an [Error] whose message
    is that of line 75 for this node, wrapped in the message of line 75
    of each directory above it, the outermost first; the node is the last
    one counted, and it is not among the created ones. *)
Theorem writeTreeToDirectory_failure localeCompare entries fs reporting :
  ∃ t st thrown,
    buildTree localeCompare entries = Some t
    ∧ writeTreeToDirectory (enoughFuel t) fs t reporting = Some (st, thrown)
    ∧ ∀ v, thrown = Some v →
        ∃ r c ks ns handle n error,
          t !! [] = Some r ∧ c ∈ children r ∧ descending t c ks
          ∧ Forall2 (λ k n, t !! k = Some n) (c :: ks) ns ∧ last ns = Some n
          ∧ last (c :: ks) = Some (join [SLASH] (handle ++ [node_name n]))
          ∧ fs (ws_created st) handle (node_name n) (node_isDirectory n) = Some error
          ∧ v = nestedFailure ns error
          ∧ (∃ message, v = Some message)
          ∧ join [SLASH] (handle ++ [node_name n])
            ∉ (λ c, join [SLASH] c.2) <$> ws_created st.
Proof.
  destruct (buildTree_treeShaped localeCompare entries) as (t & Ht & Hshaped & _).
  destruct (writeTreeToDirectory_spec t Hshaped fs reporting)
    as (r & st & thrown & vis & Hr & Hrun & Hw & Hlt).
  exists t, st, thrown. split_and!; [ done | done | ]. intros v ->.
  pose proof Hw as (_ & _ & Hnd & _ & (made & Hmade & Hkeys & _) & _ & Hfail).
  destruct (Hfail v eq_refl) as (c & ks & ns & h & n & e & Hc & Hdesc & Hns & Hlast & Hn
                                 & Hjoin & Hfs & Hv).
  exists r, c, ks, ns, h, n, e.
  destruct vis as [ | j vis _ ] using rev_ind.
  { destruct (last_cons_is_Some c ks) as [? Hsome]. by rewrite Hlast in Hsome. }
  rewrite last_snoc in Hlast, Hjoin. simpl in Hjoin. rewrite Hjoin.
  split_and!; try done.
  - rewrite Hv. destruct ns as [ | n0 ns ]; [ done | ]. simpl. by eexists.
  - rewrite Hmade. simpl. rewrite Hkeys, removelast_last.
    apply NoDup_app in Hnd as (_ & Hfresh & _). intros Hin.
    apply (Hfresh j Hin), list_elem_of_here.
Qed.

(** * Properties of the application *)

(** ** The preview *)

Lemma join_app (l1 l2 : list JSString) :
  l1 ≠ [] → l2 ≠ [] →
  join [SLASH] (l1 ++ l2) = join [SLASH] l1 ++ [SLASH] ++ join [SLASH] l2.
Proof.
  induction l1 as [ | a l1 IH ]; intros Hl1 Hl2; [ done | ].
  destruct l1 as [ | b l1 ].
  - simpl. by destruct l2.
  - change ((a :: b :: l1) ++ l2) with (a :: ((b :: l1) ++ l2)).
    rewrite (join_cons _ a ((b :: l1) ++ l2)) by done.
    rewrite IH by done. rewrite (join_cons _ a (b :: l1)) by done.
    by rewrite <- !app_assoc.
Qed.

(** The segments [buildTree] walks for an entry of canonical path are
    those of the path. *)
Lemma entryParts_canonical e :
  entry_path e ≠ [] → canonicalPath (entry_path e) →
  entryParts e = split SLASH (entry_path e) ∧ join [SLASH] (entryParts e) = entry_path e
  ∧ entryParts e ≠ [].
Proof.
  intros Hne [_ [ ? | Hsegs ]]; [ done | ].
  assert (entryParts e = split SLASH (entry_path e)) as Heq.
  { unfold entryParts. apply filter_all. eapply Forall_impl; [ exact Hsegs | ].
    intros x [Hx _]. by destruct x. }
  rewrite Heq, join_split. split_and!; [ done | done | apply split_nonempty ].
Qed.

Lemma fileAt_canonical k e :
  entry_path e ≠ [] → canonicalPath (entry_path e) →
  fileAt k e ↔ entry_isDirectory e = false ∧ entry_path e = k.
Proof.
  intros Hne Hcan. destruct (entryParts_canonical e Hne Hcan) as (_ & Hjoin & Hparts).
  unfold fileAt. rewrite Hjoin. split; [ by intros (? & _ & ?) | by intros [? ?] ].
Qed.

Lemma filter_none {A} (P : A → Prop) `{∀ x, Decision (P x)} (l : list A) :
  (∀ x, x ∈ l → ¬ P x) → filter P l = [].
Proof.
  induction l as [ | x l IH ]; intros Hl; [ done | ].
  rewrite filter_cons_False by (apply Hl, list_elem_of_here).
  apply IH. intros y Hy. by apply Hl, list_elem_of_further.
Qed.

Lemma filter_iff_in {A} (P Q : A → Prop) `{∀ x, Decision (P x)} `{∀ x, Decision (Q x)}
    (l : list A) :
  (∀ x, x ∈ l → P x ↔ Q x) → filter P l = filter Q l.
Proof.
  induction l as [ | x l IH ]; intros Hl; [ done | ].
  rewrite !filter_cons, IH by (intros y Hy; by apply Hl, list_elem_of_further).
  pose proof (Hl x (list_elem_of_here _ _)) as Hx.
  destruct (decide (P x)), (decide (Q x)); tauto.
Qed.

Lemma filter_path_unique (es : list PathEntry) e :
  NoDup (entry_path <$> es) → e ∈ es →
  filter (λ e', entry_path e' = entry_path e) es = [e].
Proof.
  induction es as [ | x es IH ]; intros Hnd He; [ by apply elem_of_nil in He | ].
  rewrite fmap_cons in Hnd. apply NoDup_cons in Hnd as [Hx Hnd].
  apply elem_of_cons in He as [ <- | He ].
  - rewrite filter_cons_True by done. f_equal. apply filter_none.
    intros y Hy Heq. apply Hx. rewrite <- Heq. by apply list_elem_of_fmap_2.
  - rewrite filter_cons_False; [ by apply IH | ].
    intros Heq. apply Hx. rewrite Heq. by apply list_elem_of_fmap_2.
Qed.

Lemma fileIssuesAt_unique (es : list PathEntry) e :
  NoDup (entry_path <$> es) →
  (∀ e', e' ∈ es → entry_path e' ≠ [] ∧ canonicalPath (entry_path e')) →
  e ∈ es →
  fileIssuesAt es (entry_path e) = if entry_isDirectory e then [] else entry_issues e.
Proof.
  intros Hnd Hcan He. unfold fileIssuesAt.
  assert (filter (fileAt (entry_path e)) es
          = filter (λ e', entry_isDirectory e' = false)
              (filter (λ e', entry_path e' = entry_path e) es)) as ->.
  { rewrite list_filter_filter. apply filter_iff_in. intros e' He'.
    destruct (Hcan e' He') as [Hne Hc]. by apply fileAt_canonical. }
  rewrite filter_path_unique by done. rewrite filter_cons, filter_nil.
  destruct (entry_isDirectory e) eqn:Hd.
  - by rewrite decide_False.
  - rewrite decide_True by done. simpl. by rewrite app_nil_r.
Qed.

(** X16. [handlePreview] never shows the error alert: for a blank value
    it asks for paths, and otherwise it renders what [processPaths]
    returns for the trimmed value together with the tree of its entries.
    In this tree every entry has the node of its path, a directory when
    the entry is one, with the issues of the entry when it is a file and
    without issues when it is a directory; every other node but the root
    is a directory without issues whose path, followed by a slash, starts
    the path of an entry. *)
Theorem handlePreview_renders localeCompare value :
  (trim value = [] ∧ handlePreview localeCompare value = Some EnterPathsAlert)
  ∨ ∃ processed console tree,
      trim value ≠ []
      ∧ run (processPaths (trim value)) = Returned processed console
      ∧ handlePreview localeCompare value = Some (Rendered processed tree)
      ∧ buildTree localeCompare (entries processed) = Some tree
      ∧ (∀ e, e ∈ entries processed →
           ∃ n, tree !! entry_path e = Some n
                ∧ (entry_isDirectory e = true → node_isDirectory n = true)
                ∧ node_issues n = if entry_isDirectory e then [] else entry_issues e)
      ∧ (∀ k n, tree !! k = Some n → k ≠ [] →
           (∃ e, e ∈ entries processed ∧ entry_path e = k)
           ∨ (node_isDirectory n = true ∧ node_issues n = []
              ∧ ∃ e, e ∈ entries processed ∧ (k ++ [SLASH]) `prefix_of` entry_path e)).
Proof.
  unfold handlePreview. destruct (trim value) as [ | c input ] eqn:Htrim; [ by left | right ].
  rewrite <- Htrim. cbn zeta.
  destruct (processPaths_entriesCanonical (trim value))
    as (r & console & st & Hrun & Hents & Hnd%refsValid_NoDup & Hcan).
  unfold entriesCanonical in Hcan. rewrite <- Hents in Hnd, Hcan.
  destruct (buildTree_summary localeCompare (entries r))
    as (t & Ht & _ & _ & Hmade & Hall & _ & Hissues).
  exists r, console, t. rewrite Hrun, Ht, Htrim. split_and!; try done.
  - intros e He. destruct (Hcan e He) as [Hne Hc].
    destruct (entryParts_canonical e Hne Hc) as (Hparts & Hjoin & Hpne).
    assert (0 < length (entryParts e) ≤ length (entryParts e))%nat as Hlen.
    { destruct (entryParts e); [ done | simpl; lia ]. }
    assert (prefixAt e (length (entryParts e)) = entry_path e) as Hfull.
    { unfold prefixAt. by rewrite firstn_all. }
    destruct (Hall e _ He Hlen) as [n Hn]. rewrite Hfull in Hn.
    exists n. split_and!; [ done | | ].
    + intros Hdir.
      destruct (buildTree_directory_prefixes localeCompare (entries r) t e _ Ht He Hdir Hlen)
        as (n' & Hn' & Hd').
      rewrite Hfull, Hn in Hn'. by injection Hn' as <-.
    + rewrite (Hissues _ _ Hn). apply fileIssuesAt_unique.
      * by rewrite sortArray_Permutation.
      * intros e' He'. apply Hcan. by rewrite sortArray_Permutation in He'.
      * by rewrite sortArray_Permutation.
  - intros k n Hn Hne.
    destruct (Hmade k n Hn Hne) as (e & i & He & Hi & Hk & _ & Hkind). simpl in Hkind.
    destruct (Hcan e He) as [Hpne Hc].
    destruct (entryParts_canonical e Hpne Hc) as (Hparts & Hjoin & _).
    destruct (decide (k ∈ entry_path <$> entries r)) as [ Hin | Hnot ].
    { left. apply list_elem_of_fmap in Hin as (e' & -> & He'). by exists e'. }
    right.
    assert (¬ ∃ e', e' ∈ entries r ∧ entry_path e' = k) as Hnone.
    { intros (e' & He' & <-). by apply Hnot, list_elem_of_fmap_2. }
    assert (i < length (entryParts e))%nat as Hlt.
    { destruct (decide (i = length (entryParts e))) as [ -> | ]; [ | lia ].
      exfalso. apply Hnone. exists e. split; [ done | ].
      rewrite Hk. unfold prefixAt. by rewrite firstn_all. }
    split_and!.
    + rewrite Hkind. apply Nat.ltb_lt in Hlt. by rewrite Hlt.
    + rewrite (Hissues _ _ Hn). unfold fileIssuesAt. rewrite filter_none; [ done | ].
      intros e' He' Hf. rewrite sortArray_Permutation in He'.
      apply Hnone. exists e'. split; [ done | ].
      destruct (Hcan e' He') as [? ?]. by apply fileAt_canonical in Hf as [_ ?].
    + exists e. split; [ done | ]. rewrite <- Hjoin, <- (take_drop i (entryParts e)).
      rewrite join_app.
      * rewrite Hk. unfold prefixAt. rewrite app_assoc. by eexists.
      * intros Hnil. apply (f_equal length) in Hnil. rewrite length_take in Hnil.
        simpl in Hnil. lia.
      * intros Hnil. apply (f_equal length) in Hnil. rewrite length_drop in Hnil.
        simpl in Hnil. lia.
Qed.

(** ** Declared directories *)

Lemma segmentPathOf_inj p p' name :
  name ≠ [] → segmentPathOf p name = segmentPathOf p' name → p = p'.
Proof.
  intros Hname Heq. unfold segmentPathOf in Heq.
  destruct p as [ | a p ], p' as [ | a' p' ]; simpl in Heq; try done.
  - apply (f_equal length) in Heq. simpl in Heq. rewrite length_app in Heq.
    simpl in Heq. lia.
  - apply (f_equal length) in Heq. simpl in Heq. rewrite length_app in Heq.
    simpl in Heq. lia.
  - injection Heq as -> Heq. f_equal.
    change (p ++ ([SLASH] ++ name) = p' ++ ([SLASH] ++ name)) in Heq.
    by apply app_inv_tail in Heq.
Qed.

Section Prefixes.
Variable entries : list PathEntry.
Variable t : gmap JSString TreeNode.
Hypothesis shaped : treeShaped t.
Hypothesis made : ∀ k n, t !! k = Some n → k ≠ [] →
  ∃ e i, e ∈ entries ∧ madeBy e i k (node_name n, node_isDirectory n).

(** The node of a prefix of the path of an entry is a child of the node
    of the prefix one segment shorter. *)
Lemma prefix_parent e i n :
  (i < length (entryParts e))%nat → t !! prefixAt e (S i) = Some n →
  ∃ np, t !! prefixAt e i = Some np ∧ prefixAt e (S i) ∈ children np.
Proof.
  intros Hi Hn. pose proof shaped as (_ & _ & Hchild & _ & Hparent).
  assert (prefixAt e (S i) ≠ []) as Hne by (apply prefixAt_nonempty; lia).
  destruct (Hparent _ n Hn Hne) as (p & np & Hp & Hc).
  destruct (Hchild p np _ Hp Hc) as (n' & Hn' & Hname & Hkey).
  rewrite Hn in Hn'. injection Hn' as <-.
  destruct (made _ n Hn Hne) as (e' & i' & He' & Hi' & Hk' & Hname' & _). simpl in Hname'.
  unfold prefixAt in Hk'. apply join_inj in Hk';
    [ | apply Forall_take, entryParts_segments | apply Forall_take, entryParts_segments ].
  assert (i' = S i) as ->.
  { apply (f_equal length) in Hk'. rewrite !length_take in Hk'. lia. }
  assert (entryParts e !! i = Some (node_name n)) as Hpart.
  { replace (S i - 1)%nat with i in Hname' by lia.
    rewrite <- (lookup_take_lt _ (S i)) by lia. rewrite Hk'.
    rewrite lookup_take_lt by lia. done. }
  assert (prefixAt e (S i) = segmentPathOf (prefixAt e i) (node_name n)) as Hsnoc.
  { unfold prefixAt. rewrite (take_S_r _ _ _ Hpart).
    rewrite join_snoc; [ done | apply Forall_take, entryParts_nonempty ]. }
  rewrite Hsnoc in Hkey. apply segmentPathOf_inj in Hkey; [ | done ].
  exists np. by rewrite Hkey.
Qed.

Lemma prefix_throughDirectories e i :
  (i ≤ length (entryParts e))%nat →
  (∀ i', (0 < i' < i)%nat → ∃ n, t !! prefixAt e i' = Some n ∧ node_isDirectory n = true) →
  is_Some (t !! prefixAt e i) →
  throughDirectories t [] (prefixAt e i).
Proof.
  induction i as [ | i IH ]; intros Hi Hdirs Hsome; [ constructor | ].
  destruct Hsome as [n Hn].
  destruct (prefix_parent e i n) as (np & Hp & Hc); [ lia | done | ].
  apply (throughDirectories_snoc t [] (prefixAt e i) np); [ | done | | done ].
  - apply IH; [ lia | | by eexists ]. intros i' Hi'. apply Hdirs. lia.
  - destruct i as [ | i ].
    + destruct shaped as ((r & Hr & _ & Hrdir) & _).
      unfold prefixAt in Hp. simpl in Hp. congruence.
    + destruct (Hdirs (S i)) as (n' & Hn' & Hd'); [ lia | ]. congruence.
Qed.
End Prefixes.

(** X17. A directory entry is created by [writeTreeToDirectory], unless
    the file system throws, and it is never in the archive of
    [generateZip], which holds files only: a declared directory with no
    file below it is missing from the archive. *)
Theorem declared_directories localeCompare entries fs reporting :
  ∃ t files st thrown,
    buildTree localeCompare entries = Some t
    ∧ generateZip (enoughFuel t) t = Some files
    ∧ writeTreeToDirectory (enoughFuel t) fs t reporting = Some (st, thrown)
    ∧ ∀ e, e ∈ entries → entry_isDirectory e = true → entryParts e ≠ [] →
        (join [SLASH] (entryParts e) ∉ files)
        ∧ (thrown = None →
           ∃ handle, (true, handle) ∈ ws_created st
                     ∧ join [SLASH] handle = join [SLASH] (entryParts e)).
Proof.
  destruct (buildTree_summary localeCompare entries)
    as (t & Ht & Hshaped & _ & Hmade & _).
  destruct (generateZip_spec t Hshaped) as (files & Hfiles & _ & Hin).
  destruct (writeTreeToDirectory_spec t Hshaped fs reporting)
    as (r & st & thrown & vis & Hr & Hrun & Hw & _).
  exists t, files, st, thrown. split_and!; [ done | done | done | ].
  intros e He Hdir Hparts.
  assert (0 < length (entryParts e))%nat as Hlen.
  { destruct (entryParts e); [ done | simpl; lia ]. }
  assert (∀ i, (0 < i ≤ length (entryParts e))%nat →
            ∃ n, t !! prefixAt e i = Some n ∧ node_isDirectory n = true) as Hdirs.
  { intros i Hi. by eapply buildTree_directory_prefixes. }
  assert (prefixAt e (length (entryParts e)) = join [SLASH] (entryParts e)) as Hfull.
  { unfold prefixAt. by rewrite firstn_all. }
  destruct (Hdirs (length (entryParts e))) as (n & Hn & Hd); [ lia | ].
  rewrite Hfull in Hn. split.
  - intros (_ & n' & Hn' & Hf)%Hin. congruence.
  - intros ->.
    assert (throughDirectories t [] (join [SLASH] (entryParts e))) as Hthrough.
    { rewrite <- Hfull. apply (prefix_throughDirectories entries t Hshaped Hmade).
      - lia.
      - intros i' Hi'. apply Hdirs. lia.
      - rewrite Hfull. by eexists. }
    pose proof Hw as (_ & _ & _ & _ & (made & Hcreated & Hkeys & Hk) & Hcomplete & _).
    assert (join [SLASH] (entryParts e) ∈ vis) as Hvis.
    { pose proof (join_nonempty (entryParts e) Hparts (entryParts_nonempty e)) as Hjne.
      inversion Hthrough as [ k0 Heq Hnil | k0 n0 c j0 Hk0 _ Hc Hcj ].
      - by rewrite <- Hnil in Hjne.
      - rewrite Hr in Hk0. injection Hk0 as <-. by apply (Hcomplete eq_refl c). }
    rewrite <- Hkeys in Hvis. apply list_elem_of_fmap in Hvis as ([d handle] & Hj & Hmem).
    simpl in Hj. exists handle. split; [ | done ]. rewrite Hcreated. simpl.
    rewrite Forall_forall in Hk. destruct (Hk _ Hmem) as (n' & Hn' & Hd').
    simpl in Hn', Hd'. rewrite <- Hj, Hn in Hn'. injection Hn' as <-.
    by rewrite <- Hd, <- Hd'.
Qed.

(** ** The cleaned list *)

Lemma trimStart_suffix s : ∃ pre, s = pre ++ trimStart s.
Proof.
  induction s as [ | c s [pre IH] ]; [ by exists [] | ]. simpl.
  destruct (isWhiteSpace c); [ | by exists [] ].
  exists (c :: pre). simpl. by f_equal.
Qed.

Lemma trimStart_elem s x : x ∈ trimStart s → x ∈ s.
Proof.
  destruct (trimStart_suffix s) as [pre Hs]. intros Hx. rewrite Hs.
  apply elem_of_app. by right.
Qed.

Lemma elem_of_rev {A} (l : list A) x : x ∈ rev l ↔ x ∈ l.
Proof.
  split; intros Hx%list_elem_of_In; apply list_elem_of_In.
  - by apply (in_rev l x).
  - by apply (in_rev l x).
Qed.

Lemma trim_elem s x : x ∈ trim s → x ∈ s.
Proof.
  unfold trim, trimEnd. rewrite elem_of_rev. intros Hx%trimStart_elem.
  rewrite elem_of_rev in Hx. by apply trimStart_elem.
Qed.

Lemma removelast_elem {A} (l : list A) x : x ∈ removelast l → x ∈ l.
Proof.
  destruct l as [ | a l _ ] using rev_ind; [ done | ].
  rewrite removelast_last. intros Hx. apply elem_of_app. by left.
Qed.

Lemma backslashesToSlashes_elem p x : x ∈ backslashesToSlashes p → x = SLASH ∨ x ∈ p.
Proof.
  unfold backslashesToSlashes. intros (c & Hc & Hin)%list_elem_of_In%in_map_iff.
  apply list_elem_of_In in Hin. destruct (c =? BACKSLASH); [ by left | right; by subst ].
Qed.

Lemma declares_elem line p d x :
  declares line = Some (p, d) → x ∈ p → x = SLASH ∨ x ∈ line.
Proof.
  unfold declares. destruct (_ && _ && _); [ | done ]. intros [= <- <-].
  rewrite normalizeParts_join.
  intros [ ? | (seg & [_ Hseg]%list_elem_of_filter & Hx) ]%join_elem; [ by left | ].
  pose proof (split_elem _ _ _ _ Hseg Hx) as [ ? | Hin ]%backslashesToSlashes_elem;
    [ by left | right ].
  apply trim_elem. destruct (endsWith _ _); [ by apply removelast_elem | done ].
Qed.

Lemma processLine_no_newline st line index c st' c' :
  refsValid st → NEWLINE ∉ line →
  (∀ e, e ∈ st_entries st → NEWLINE ∉ entry_path e) →
  processLine st line index c = Returned st' c' →
  ∀ e, e ∈ st_entries st' → NEWLINE ∉ entry_path e.
Proof.
  intros Hv Hline Hfree Hstep. destruct (declares line) as [ [p d] | ] eqn:Hdecl.
  - rewrite (processLine_declares _ _ _ _ _ _ Hdecl) in Hstep. simplify_eq.
    destruct (pathToEntry st !! p) as [ r | ] eqn:Href.
    + destruct (proj1 Hv _ _ Href) as (e & He & Hpath).
      destruct (recordPath_existing st p d (index + 1) r e Href He) as (own & seen & -> & _).
      simpl. destruct (_ && _); [ | done ].
      intros e' [idx He']%list_elem_of_lookup.
      destruct (decide (r = idx)) as [ <- | Hne ].
      * rewrite list_lookup_insert_eq in He' by (by eapply lookup_lt_Some).
        simplify_eq. simpl. apply Hfree. by eapply list_elem_of_lookup_2.
      * rewrite list_lookup_insert_ne in He' by done.
        apply Hfree. by eapply list_elem_of_lookup_2.
    + destruct (recordPath_fresh st p d (index + 1) Href) as (own & seen & -> & _).
      simpl. intros e' [ He' | ->%list_elem_of_singleton ]%elem_of_app; [ by apply Hfree | ].
      simpl. intros [ ? | ? ]%(declares_elem line p d); done.
  - destruct (processLine_other st line index c Hdecl) as (st1 & Hst1 & Hents & _).
    rewrite Hst1 in Hstep. simplify_eq. by rewrite Hents.
Qed.

Lemma trimStart_length s : (length (trimStart s) ≤ length s)%nat.
Proof.
  destruct (trimStart_suffix s) as [pre Hs]. rewrite Hs at 2. rewrite length_app. lia.
Qed.

Lemma trim_length s : (length (trim s) ≤ length s)%nat.
Proof.
  unfold trim, trimEnd. rewrite length_rev.
  pose proof (trimStart_length (rev (trimStart s))) as H1. rewrite length_rev in H1.
  pose proof (trimStart_length s). lia.
Qed.

Lemma trim_stable_first c s : trim (c :: s) = c :: s → isWhiteSpace c = false.
Proof.
  intros Heq. destruct (isWhiteSpace c) eqn:Hc; [ exfalso | done ].
  apply (f_equal length) in Heq. unfold trim, trimEnd in Heq. simpl in Heq.
  rewrite Hc, length_rev in Heq.
  pose proof (trimStart_length (rev (trimStart s))) as H1. rewrite length_rev in H1.
  pose proof (trimStart_length s). lia.
Qed.

Lemma trim_stable_snoc p :
  p ≠ [] → trim p = p → trim (p ++ [SLASH]) = p ++ [SLASH].
Proof.
  intros Hne Heq. destruct p as [ | c s ]; [ done | ].
  pose proof (trim_stable_first c s Heq) as Hc.
  unfold trim, trimEnd. simpl. rewrite Hc.
  change (c :: s ++ [SLASH]) with ((c :: s) ++ [SLASH]). rewrite rev_app_distr. simpl.
  by rewrite rev_app_distr, rev_involutive.
Qed.

Lemma canonical_not_endsWith p :
  p ≠ [] → canonicalPath p → endsWith p SLASH = false.
Proof.
  intros Hne [_ [ ? | Hsegs ]]; [ done | ]. unfold endsWith.
  destruct (rev p) as [ | d q ] eqn:Hrev; [ done | ].
  apply N.eqb_neq. intros ->.
  assert (p = rev q ++ [SLASH]) as ->.
  { rewrite <- (rev_involutive p), Hrev. done. }
  rewrite split_app_sep in Hsegs. apply Forall_app in Hsegs as [_ Hlast].
  simpl in Hlast. apply Forall_cons in Hlast as [(? & _) _]. done.
Qed.

Lemma normalizePath_fixed_parts q :
  canonicalPath q →
  existsb (λ p, bool_decide (p = str "..")) (normalizeParts q) = false
  ∧ join [SLASH] (normalizeParts q) = q.
Proof.
  intros Hq. pose proof (canonicalPath_fixed q [] Hq) as Hfix.
  unfold normalizePath, ret, throw in Hfix.
  destruct (existsb _ _); [ done | ]. by injection Hfix.
Qed.

Lemma declares_cleanedLine e :
  entry_path e ≠ [] → canonicalPath (entry_path e) → trim (entry_path e) = entry_path e →
  declares (cleanedLine e) = Some (entry_path e, entry_isDirectory e).
Proof.
  intros Hne Hcan Htrim. destruct (normalizePath_fixed_parts _ Hcan) as [Hdd Hjoin].
  unfold declares, cleanedLine. destruct (entry_isDirectory e).
  - rewrite trim_stable_snoc by done.
    assert (endsWith (entry_path e ++ [SLASH]) SLASH = true) as ->.
    { unfold endsWith. by rewrite rev_app_distr. }
    unfold slice_0_m1. rewrite removelast_last, Hdd, Hjoin.
    by destruct (entry_path e).
  - rewrite app_nil_r, Htrim, (canonical_not_endsWith _ Hne Hcan), Hdd, Hjoin.
    by destruct (entry_path e).
Qed.

Lemma processLine_entriesFollow decls k line pd st c st' c' :
  refsValid st → NoDup decls.*1 → entriesFollow decls k st →
  decls !! k = Some pd → declares line = Some pd →
  processLine st line k c = Returned st' c' →
  entriesFollow decls (S k) st'.
Proof.
  intros [Hv1 _] Hnd Hfollow Hpd Hdecl Hstep. destruct pd as [p d].
  rewrite (processLine_declares _ _ _ _ _ _ Hdecl) in Hstep. simplify_eq.
  assert (pathToEntry st !! p = None) as Href.
  { destruct (pathToEntry st !! p) as [ r | ] eqn:Href; [ exfalso | done ].
    destruct (Hv1 _ _ Href) as (e & He & Hpath).
    assert (((λ e, (entry_path e, entry_isDirectory e, entry_originalLine e))
               <$> st_entries st) !! r
            = Some (p, entry_isDirectory e, entry_originalLine e)) as Hr.
    { by rewrite list_lookup_fmap, He, <- Hpath. }
    rewrite Hfollow, list_lookup_imap in Hr.
    destruct (take k decls !! r) as [ [p' d'] | ] eqn:Htake; [ | done ].
    simpl in Hr. injection Hr as -> _ _.
    apply lookup_take_Some in Htake as [Htake Hlt].
    assert (decls.*1 !! r = Some p) as H1 by (by rewrite list_lookup_fmap, Htake).
    assert (decls.*1 !! k = Some p) as H2 by (by rewrite list_lookup_fmap, Hpd).
    pose proof (NoDup_lookup _ _ _ _ Hnd H1 H2). lia. }
  destruct (recordPath_fresh st p d (k + 1) Href) as (own & seen & -> & _).
  unfold entriesFollow in *. simpl. rewrite fmap_app, Hfollow.
  rewrite (take_S_r _ _ _ Hpd), imap_app. simpl. do 3 f_equal.
  assert (k < length decls)%nat by (by eapply lookup_lt_Some).
  rewrite length_take. lia.
Qed.

Lemma processPaths_wellformed input r c :
  run (processPaths input) = Returned r c →
  NoDup (entry_path <$> entries r)
  ∧ (∀ e, e ∈ entries r →
       entry_path e ≠ [] ∧ canonicalPath (entry_path e) ∧ NEWLINE ∉ entry_path e)
  ∧ folderCount r = length (filter (λ e, entry_isDirectory e = true) (entries r))
  ∧ fileCount r = length (filter (λ e, entry_isDirectory e = false) (entries r)).
Proof.
  intros Hrun.
  destruct (processPaths_invariant
              (λ _ s, refsValid s ∧ entriesCanonical s
                      ∧ ∀ e, e ∈ st_entries s → NEWLINE ∉ entry_path e) input)
    as (r' & c' & st & Hr & Hents & _ & Hv & Hcan & Hfree).
  - split_and!; [ apply initialState_refsValid | by intros e ?%elem_of_nil
                | by intros e ?%elem_of_nil ].
  - intros k line s s' d d' (Hv & Hcan & Hfree) Hline Hstep. split_and!.
    + by eapply processLine_refsValid.
    + by eapply processLine_entriesCanonical.
    + eapply processLine_no_newline; [ done | | done | done ].
      pose proof (split_no_sep NEWLINE input) as Hsplit. rewrite Forall_forall in Hsplit.
      apply Hsplit. by eapply list_elem_of_lookup_2.
  - rewrite Hrun in Hr. injection Hr as <- <-. rewrite Hents. split_and!.
    + by apply refsValid_NoDup.
    + intros e He. destruct (Hcan e He). split_and!; [ done | done | by apply Hfree ].
    + destruct (processPaths_unfold input []) as (st' & _ & Hres).
      unfold run in Hrun. rewrite Hres in Hrun. injection Hrun as <- _. simpl in *.
      by rewrite Hents.
    + destruct (processPaths_unfold input []) as (st' & _ & Hres).
      unfold run in Hrun. rewrite Hres in Hrun. injection Hrun as <- _. simpl in *.
      by rewrite Hents.
Qed.

Lemma filter_kind_length (l1 l2 : list PathEntry) b :
  entry_isDirectory <$> l1 = entry_isDirectory <$> l2 →
  length (filter (λ e, entry_isDirectory e = b) l1)
  = length (filter (λ e, entry_isDirectory e = b) l2).
Proof.
  revert l2. induction l1 as [ | x l1 IH ]; intros [ | y l2 ] Heq; try done.
  rewrite !fmap_cons in Heq. injection Heq as Hxy Heq. rewrite !filter_cons, Hxy.
  destruct (decide (entry_isDirectory y = b)); simpl; by rewrite (IH l2 Heq).
Qed.

Lemma map_cleanedLine (l1 l2 : list PathEntry) :
  (λ e, (entry_path e, entry_isDirectory e)) <$> l1
  = (λ e, (entry_path e, entry_isDirectory e)) <$> l2 →
  map cleanedLine l1 = map cleanedLine l2.
Proof.
  revert l2. induction l1 as [ | x l1 IH ]; intros [ | y l2 ] Heq; try done.
  rewrite !fmap_cons in Heq. injection Heq as Hp Hd Heq. simpl.
  rewrite (IH l2 Heq). unfold cleanedLine. by rewrite Hp, Hd.
Qed.

(** X18. The cleaned list that [handleCopyCleaned] copies reads back as
    the entries it was made from: when no entry path starts or ends with
    white space, [processPaths] on the cleaned list returns entries of the
    same paths and kinds in the same order, each on its own line, with the
    same counts, and its cleaned list is the same text. *)
Theorem cleanedList_round_trip input r c :
  run (processPaths input) = Returned r c →
  Forall (λ e, trim (entry_path e) = entry_path e) (entries r) →
  ∃ r' c',
    run (processPaths (cleanedList r)) = Returned r' c'
    ∧ (λ e, (entry_path e, entry_isDirectory e)) <$> entries r'
      = (λ e, (entry_path e, entry_isDirectory e)) <$> entries r
    ∧ (∀ i e, entries r' !! i = Some e → entry_originalLine e = S i)
    ∧ folderCount r' = folderCount r ∧ fileCount r' = fileCount r
    ∧ cleanedList r' = cleanedList r.
Proof.
  intros Hrun Hstable.
  destruct (processPaths_wellformed input r c Hrun) as (Hnd & Hwf & Hfolders & Hfiles).
  set (decls := (λ e, (entry_path e, entry_isDirectory e)) <$> entries r).
  assert (∃ r' c', run (processPaths (cleanedList r)) = Returned r' c'
            ∧ (λ e, (entry_path e, entry_isDirectory e, entry_originalLine e)) <$> entries r'
              = imap (λ i pd, (pd.1, pd.2, S i)) decls) as (r' & c' & Hrun' & Hfollow).
  { destruct (decide (entries r = [])) as [ Hes | Hes ].
    - destruct (processPaths_of_blank (cleanedList r)) as [c' Hrun'].
      { unfold cleanedList. rewrite Hes. by repeat constructor. }
      eexists _, c'. split; [ exact Hrun' | ]. subst decls. by rewrite Hes.
    - assert (split NEWLINE (cleanedList r) = cleanedLine <$> entries r) as Hlines.
      { unfold cleanedList. rewrite split_join; [ done | by destruct (entries r) | ].
        apply Forall_forall. intros l (e & <- & He%list_elem_of_In)%list_elem_of_In%in_map_iff.
        destruct (Hwf e He) as (_ & _ & Hfree). unfold cleanedLine.
        intros [ ? | Hin ]%elem_of_app; [ done | ].
        destruct (entry_isDirectory e); [ | by apply elem_of_nil in Hin ].
        by apply list_elem_of_singleton in Hin. }
      destruct (processPaths_invariant
                  (λ k s, refsValid s ∧ entriesFollow decls k s) (cleanedList r))
        as (r' & c' & st & Hr' & Hents' & _ & _ & Hfollow).
      + split; [ apply initialState_refsValid | done ].
      + intros k line s s' d d' [Hv Hfollow] Hline Hstep. split.
        * by eapply processLine_refsValid.
        * rewrite Hlines, list_lookup_fmap in Hline.
          destruct (entries r !! k) as [ e | ] eqn:He; [ | done ]. injection Hline as <-.
          apply (processLine_entriesFollow decls k (cleanedLine e)
                   (entry_path e, entry_isDirectory e) s d s' d'); try done.
          -- subst decls. by rewrite <- list_fmap_compose.
          -- subst decls. by rewrite list_lookup_fmap, He.
          -- apply list_elem_of_lookup_2 in He.
             rewrite Forall_forall in Hstable. destruct (Hwf e He) as (? & ? & _).
             apply declares_cleanedLine; [ done | done | by apply Hstable ].
      + exists r', c'. split; [ done | ]. rewrite Hents'. unfold entriesFollow in Hfollow.
        rewrite Hfollow, Hlines, length_fmap.
        rewrite take_ge; [ done | ]. subst decls. by rewrite length_fmap. }
  assert ((λ e, (entry_path e, entry_isDirectory e)) <$> entries r' = decls) as Hsame.
  { apply (f_equal (fmap (λ x : JSString * bool * nat, x.1))) in Hfollow.
    rewrite <- list_fmap_compose in Hfollow. rewrite fmap_imap in Hfollow.
    etrans; [ exact Hfollow | ]. clear.
    induction decls as [ | [p d] l IH ] using rev_ind; [ done | ].
    rewrite imap_app. simpl. by rewrite IH. }
  assert (entry_isDirectory <$> entries r' = entry_isDirectory <$> entries r) as Hkinds.
  { apply (f_equal (fmap snd)) in Hsame. subst decls.
    by rewrite <- !list_fmap_compose in Hsame. }
  destruct (processPaths_wellformed _ r' c' Hrun') as (_ & _ & Hfolders' & Hfiles').
  exists r', c'. split_and!; [ done | done | | | | ].
  - intros i e He.
    assert (((λ e, (entry_path e, entry_isDirectory e, entry_originalLine e)) <$> entries r') !! i
            = Some (entry_path e, entry_isDirectory e, entry_originalLine e)) as Hi
      by (by rewrite list_lookup_fmap, He).
    rewrite Hfollow, list_lookup_imap in Hi. destruct (decls !! i); [ | done ].
    simpl in Hi. by injection Hi.
  - rewrite Hfolders', Hfolders. by apply filter_kind_length.
  - rewrite Hfiles', Hfiles. by apply filter_kind_length.
  - unfold cleanedList. f_equal. by apply map_cleanedLine.
Qed.

Lemma cleanedList_round_trip_witness :
  ∃ r' c',
    run (processPaths (cleanedList directory_b_processed)) = Returned r' c'
    ∧ (λ e, (entry_path e, entry_isDirectory e)) <$> entries r'
      = (λ e, (entry_path e, entry_isDirectory e)) <$> entries directory_b_processed
    ∧ (∀ i e, entries r' !! i = Some e → entry_originalLine e = S i)
    ∧ folderCount r' = folderCount directory_b_processed
    ∧ fileCount r' = fileCount directory_b_processed
    ∧ cleanedList r' = cleanedList directory_b_processed.
Proof.
  apply (cleanedList_round_trip (str " b/") directory_b_processed []).
  - by vm_compute.
  - by repeat constructor.
Defined.

(** ** The line counter, the issues and the summary *)

Lemma declares_nonblank line pd : declares line = Some pd → truthy (trim line) = true.
Proof. unfold declares. by destruct (truthy (trim line)). Qed.

Lemma processLine_entries_length st line index c st' c' :
  refsValid st → processLine st line index c = Returned st' c' →
  (length (st_entries st') ≤ length (st_entries st) + (if truthy (trim line) then 1 else 0))%nat.
Proof.
  intros [Hv _] Hstep. destruct (declares line) as [ [p d] | ] eqn:Hdecl.
  - rewrite (declares_nonblank _ _ Hdecl).
    rewrite (processLine_declares _ _ _ _ _ _ Hdecl) in Hstep. simplify_eq.
    destruct (recordPath_issues st p d (index + 1)) as (own & _ & _ & [ -> | -> ]); [ lia | ].
    rewrite length_app. simpl. lia.
  - destruct (processLine_other st line index c Hdecl) as (st1 & Hst1 & Hents & _).
    rewrite Hst1 in Hstep. simplify_eq. rewrite Hents. lia.
Qed.

(** X19. [processPaths] returns at most as many entries as the line
    counter of [updateLineCounter] counts lines. *)
Theorem entries_within_lineCount input :
  ∃ r c, run (processPaths input) = Returned r c
         ∧ (length (entries r) ≤ lineCount input)%nat
         ∧ (folderCount r + fileCount r ≤ lineCount input)%nat.
Proof.
  destruct (processPaths_invariant
              (λ k s, refsValid s
                      ∧ (length (st_entries s) ≤ length (nonBlank (split NEWLINE input) k))%nat)
              input) as (r & c & st & Hr & Hents & _ & _ & Hlen).
  - split; [ apply initialState_refsValid | simpl; lia ].
  - intros k line s s' d d' [Hv Hlen] Hline Hstep. split.
    + by eapply processLine_refsValid.
    + pose proof (processLine_entries_length _ _ _ _ _ _ Hv Hstep) as Hle.
      unfold nonBlank in *. rewrite (take_S_r _ _ _ Hline), filter_app, length_app.
      rewrite filter_cons, filter_nil. destruct (truthy (trim line)).
      * rewrite decide_True by done. simpl. lia.
      * rewrite decide_False by done. simpl. lia.
  - exists r, c. unfold nonBlank in Hlen. rewrite firstn_all in Hlen.
    fold (lineCount input) in Hlen. split_and!; [ done | by rewrite Hents | ].
    destruct (processPaths_wellformed input r c Hr) as (_ & _ & -> & ->).
    rewrite length_filter_bool, Hents. done.
Qed.

Lemma segmentIssue_line L seg x : x ∈ segmentIssue L seg → issue_line x = Some L.
Proof.
  unfold segmentIssue. destruct (valid _); simpl; [ by intros ?%elem_of_nil | ].
  destruct (fnv_sanitized _) as [ [ | ? ? ] | ]; by intros ->%list_elem_of_singleton.
Qed.

Lemma ownIssues_line p L own : ownIssuesSpec p L own → Forall (λ x, issue_line x = Some L) own.
Proof.
  intros (dupconf & -> & Hdc). apply Forall_app. split.
  - apply Forall_forall. intros x Hx.
    apply list_elem_of_In, in_concat in Hx as (l & Hl & Hx).
    apply in_map_iff in Hl as (seg & <- & _).
    by eapply segmentIssue_line, list_elem_of_In.
  - eapply Forall_impl; [ exact Hdc | ]. by intros x (_ & _ & ? & _).
Qed.

Lemma issue_lines_replicate (l : list PathIssue) L :
  Forall (λ x, issue_line x = Some L) l →
  issue_line <$> l = Some <$> replicate (length l) L.
Proof.
  induction 1 as [ | x l Hx _ IH ]; [ done | ]. cbn [length replicate].
  by rewrite !fmap_cons, Hx, IH.
Qed.

(** The issues a line adds to the top-level list carry its number. *)
Lemma processLine_issue_lines st line index c st' c' :
  processLine st line index c = Returned st' c' →
  ∃ extra, st_issues st' = st_issues st ++ extra
           ∧ Forall (λ x, issue_line x = Some (index + 1)%nat) extra.
Proof.
  intros Hstep. destruct (declares line) as [ [p d] | ] eqn:Hdecl.
  - rewrite (processLine_declares _ _ _ _ _ _ Hdecl) in Hstep. simplify_eq.
    destruct (recordPath_issues st p d (index + 1)) as (own & -> & Hown & _).
    exists (depthPart p (index + 1) ++ own). split; [ done | ].
    apply Forall_app. split; [ | by apply (ownIssues_line p) ].
    unfold depthPart. destruct (_ <? _); by repeat constructor.
  - destruct (processLine_other st line index c Hdecl)
      as (st1 & Hst1 & _ & _ & _ & extra & Hextra & Hcases).
    rewrite Hst1 in Hstep. simplify_eq. exists extra. split; [ done | ].
    destruct Hcases as [ -> | -> ]; by repeat constructor.
Qed.

Lemma StronglySorted_snoc_replicate (l : list nat) k m :
  StronglySorted le l → Forall (λ L, L ≤ k)%nat l →
  StronglySorted le (l ++ replicate m (k + 1)%nat).
Proof.
  intros Hs Hk. induction Hs as [ | x l Hs IH Hx ]; simpl.
  - induction m as [ | m IHm ]; simpl; constructor; [ done | ].
    apply Forall_forall. by intros y [-> _]%elem_of_replicate.
  - apply Forall_cons in Hk as [Hxk Hk]. constructor; [ by apply IH | ].
    apply Forall_app. split; [ done | ].
    apply Forall_forall. intros y [-> _]%elem_of_replicate. lia.
Qed.

(** X20. The issues [processPaths] returns are in the order of the lines
    they stem from and carry the numbers of these lines, counted from 1;
    only the issue on more than 5000 lines, which comes first when there
    is one, carries no line. *)
Theorem processPaths_issue_lines input :
  ∃ r c rest numbers,
    run (processPaths input) = Returned r c
    ∧ issues r = st_issues (initialState (split NEWLINE input)) ++ rest
    ∧ issue_line <$> rest = Some <$> numbers
    ∧ StronglySorted le numbers
    ∧ Forall (λ L, 1 ≤ L ≤ length (split NEWLINE input))%nat numbers
    ∧ Forall (λ x, issue_line x = None) (st_issues (initialState (split NEWLINE input))).
Proof.
  destruct (processPaths_invariant
              (λ k s, ∃ numbers, issuesNumbered (split NEWLINE input) numbers s
                                 ∧ StronglySorted le numbers
                                 ∧ Forall (λ L, 1 ≤ L ≤ k)%nat numbers) input)
    as (r & c & st & Hr & _ & Hissues & numbers & (rest & Hrest & Hlines) & Hsorted & Hrange).
  - exists []. split_and!; [ | constructor | constructor ].
    exists []. by rewrite app_nil_r.
  - intros k line s s' d d' (numbers & (rest & Hrest & Hlines) & Hsorted & Hrange) _ Hstep.
    destruct (processLine_issue_lines _ _ _ _ _ _ Hstep) as (extra & Hextra & Hnum).
    exists (numbers ++ replicate (length extra) (k + 1)%nat). split_and!.
    + exists (rest ++ extra). rewrite Hextra, Hrest, <- app_assoc. split; [ done | ].
      by rewrite !fmap_app, Hlines, (issue_lines_replicate extra (k + 1)).
    + apply StronglySorted_snoc_replicate; [ done | ].
      eapply Forall_impl; [ exact Hrange | ]. simpl. lia.
    + apply Forall_app. split.
      * eapply Forall_impl; [ exact Hrange | ]. simpl. lia.
      * apply Forall_forall. intros y [-> _]%elem_of_replicate. lia.
  - exists r, c, rest, numbers. rewrite Hissues. split_and!; try done.
    simpl. destruct (_ <? _); by repeat constructor.
Qed.

(** X21. When [processPaths] has found issues, but none other than paths
    too deep or lines too many, the summary of [renderPreview] counts no
    issue and ends in an empty pair of brackets. *)
Theorem summaryText_depth_only processed :
  issues processed ≠ [] →
  Forall (λ i, issue_type i = depth) (issues processed) →
  summaryText processed
  = plural (folderCount processed) (str "folder") ++ str ", "
    ++ plural (fileCount processed) (str "file") ++ str " ()".
Proof.
  intros Hne Hdepth. unfold summaryText.
  assert (∀ types, depth ∉ types → countIssues types (issues processed) = 0%nat) as Hzero.
  { intros types Htypes. unfold countIssues. rewrite filter_none; [ done | ].
    intros x Hx. rewrite Forall_forall in Hdepth. by rewrite (Hdepth x Hx). }
  rewrite !Hzero
    by (intros Hin; repeat (apply elem_of_cons in Hin as [ Hin | Hin ]; [ done | ]);
        by apply elem_of_nil in Hin).
  rewrite decide_True by (destruct (issues processed); [ done | simpl; lia ]).
  simpl. by rewrite <- !app_assoc.
Qed.

Lemma summaryText_depth_only_witness :
  summaryText thirty_one_processed
  = plural (folderCount thirty_one_processed) (str "folder") ++ str ", "
    ++ plural (fileCount thirty_one_processed) (str "file") ++ str " ()".
Proof.
  apply (summaryText_depth_only thirty_one_processed).
  - done.
  - by repeat constructor.
Defined.

Example thirty_one_processed_returned :
  run (processPaths thirty_one_segments) = Returned thirty_one_processed [].
Proof. by vm_compute. Qed.

(** * Letter case in [validateFileName] *)

Lemma canonicalize_idempotent c : canonicalize (canonicalize c) = canonicalize c.
Proof.
  unfold canonicalize.
  destruct ((97 <=? c) && (c <=? 122)) eqn:H1; [ | by rewrite H1 ].
  apply andb_prop in H1 as [Ha Hb]. apply N.leb_le in Ha, Hb.
  destruct ((97 <=? c - 32) && (c - 32 <=? 122)) eqn:H2; [ | done ].
  apply andb_prop in H2 as [Hc Hd]. apply N.leb_le in Hc, Hd. lia.
Qed.

Lemma canonicalize_cases c :
  canonicalize c = c ∨ (97 ≤ c ≤ 122 ∧ 65 ≤ canonicalize c ≤ 90).
Proof.
  unfold canonicalize. destruct ((97 <=? c) && (c <=? 122)) eqn:H1; [ right | by left ].
  apply andb_prop in H1 as [Ha Hb]. apply N.leb_le in Ha, Hb. lia.
Qed.

Ltac code_units :=
  repeat match goal with
         | |- context [?a =? ?b] => rewrite (proj2 (N.eqb_neq a b)) by lia
         | |- context [?a <=? ?b] =>
             first [ rewrite (proj2 (N.leb_le a b)) by lia
                   | rewrite (proj2 (N.leb_gt a b)) by lia ]
         end.

Lemma isWhiteSpace_letter c : 65 ≤ c ≤ 122 → isWhiteSpace c = false.
Proof. intros Hc. unfold isWhiteSpace. by code_units. Qed.

Lemma INVALID_CHARS_letter c : 65 ≤ c ≤ 122 → INVALID_CHARS c = false.
Proof. intros Hc. unfold INVALID_CHARS, QUOTE. by code_units. Qed.

Lemma isWhiteSpace_canonicalize c : isWhiteSpace (canonicalize c) = isWhiteSpace c.
Proof.
  destruct (canonicalize_cases c) as [ -> | [H1 H2] ]; [ done | ].
  rewrite !isWhiteSpace_letter; [ done | lia | lia ].
Qed.

Lemma INVALID_CHARS_canonicalize c : INVALID_CHARS (canonicalize c) = INVALID_CHARS c.
Proof.
  destruct (canonicalize_cases c) as [ -> | [H1 H2] ]; [ done | ].
  rewrite !INVALID_CHARS_letter; [ done | lia | lia ].
Qed.

Lemma trimStart_upperCase s : trimStart (upperCase s) = upperCase (trimStart s).
Proof.
  induction s as [ | c s IH ]; [ done | ]. simpl.
  rewrite isWhiteSpace_canonicalize. by destruct (isWhiteSpace c).
Qed.

Lemma trim_upperCase s : trim (upperCase s) = upperCase (trim s).
Proof.
  unfold trim, trimEnd. rewrite trimStart_upperCase.
  unfold upperCase at 1. rewrite <- map_rev.
  change (map canonicalize ?l) with (upperCase l). rewrite trimStart_upperCase.
  unfold upperCase. by rewrite map_rev.
Qed.

Lemma existsb_upperCase s :
  existsb INVALID_CHARS (upperCase s) = existsb INVALID_CHARS s.
Proof.
  induction s as [ | c s IH ]; [ done | ]. simpl.
  by rewrite INVALID_CHARS_canonicalize, IH.
Qed.

Lemma matchPrefix_upperCase pat s :
  matchPrefix pat (upperCase s) = upperCase <$> matchPrefix pat s.
Proof.
  revert s. induction pat as [ | p pat IH ]; intros s; [ done | ].
  destruct s as [ | c s ]; [ done | ]. simpl.
  rewrite canonicalize_idempotent. destruct (_ =? _); [ apply IH | done ].
Qed.

Lemma canonicalize_dot c : (canonicalize c =? DOT) = (c =? DOT).
Proof.
  destruct (canonicalize_cases c) as [ -> | [H1 H2] ]; [ done | ].
  unfold DOT in *. by code_units.
Qed.

Lemma RESERVED_NAMES_upperCase name : RESERVED_NAMES (upperCase name) = RESERVED_NAMES name.
Proof.
  unfold RESERVED_NAMES. induction reservedAlternatives as [ | alt alts IH ]; [ done | ].
  cbn [existsb]. rewrite IH, matchPrefix_upperCase. f_equal.
  destruct (matchPrefix alt name) as [ [ | c rest ] | ]; simpl; [ done | | done ].
  apply canonicalize_dot.
Qed.

Lemma sanitizeFileName_upperCase name :
  sanitizeFileName (upperCase name) = upperCase (sanitizeFileName name).
Proof.
  induction name as [ | c name IH ]; [ done | ]. simpl.
  rewrite INVALID_CHARS_canonicalize. destruct (INVALID_CHARS c); simpl; [ done | ].
  by rewrite <- IH.
Qed.

(** X22. [validateFileName] does not tell the letters [a] to [z] from
    their capitals: a name and the name in capitals are both valid or
    both not, with the same issue; a reserved name is reserved however it
    is written. *)
Theorem validateFileName_case name :
  valid (validateFileName (upperCase name)) = valid (validateFileName name)
  ∧ issue (validateFileName (upperCase name)) = issue (validateFileName name)
  ∧ fnv_sanitized (validateFileName (upperCase name))
    = upperCase <$> fnv_sanitized (validateFileName name)
  ∧ RESERVED_NAMES (upperCase name) = RESERVED_NAMES name.
Proof.
  unfold validateFileName.
  rewrite trim_upperCase, existsb_upperCase, RESERVED_NAMES_upperCase.
  assert (truthy (upperCase name) = truthy name) as -> by (by destruct name).
  assert (bool_decide (upperCase (trim name) = []) = bool_decide (trim name = [])) as ->.
  { apply bool_decide_ext. by destruct (trim name). }
  assert (length (upperCase name) = length name) as -> by apply length_map.
  destruct (negb (truthy name) || bool_decide (trim name = [])); [ done | ].
  destruct (existsb INVALID_CHARS name) eqn:Hinv.
  - simpl. split_and!; try done. f_equal. apply sanitizeFileName_upperCase.
  - destruct (RESERVED_NAMES name); [ done | ]. by destruct (255 <? _).
Qed.

(** * The preview, the archive and the folder *)

Section Agree.
Variable nodes : gmap JSString TreeNode.
Hypothesis shaped : treeShaped nodes.
Variable reporting : bool.
Variable total : nat.
Variable bound : nat.
Hypothesis bound_ok : ∀ k n, nodes !! k = Some n → (length k < bound)%nat.

(** The three walks over the children of a node, given that they agree
    on each child. *)
Lemma children_agree fuel k n handle depth :
  (∀ c nc st zip items, nodes !! c = Some nc → c ∈ children n →
     ∃ st' made rendered,
       writeNode nodes neverThrows reporting total fuel c handle st = Some (st', None)
       ∧ ws_created st' = ws_created st ++ made
       ∧ renderTreeNode fuel nodes c depth items = Some (items ++ rendered)
       ∧ addNode fuel nodes c (join [SLASH] handle) zip = Some (zip ++ filesOf made)
       ∧ Forall2 (shows nodes) made rendered) →
  nodes !! k = Some n →
  ∀ cs st zip items, cs ⊆ children n →
    ∃ st' made rendered,
      forOf (λ child, writeNode nodes neverThrows reporting total fuel child handle) cs st
      = Some (st', None)
      ∧ ws_created st' = ws_created st ++ made
      ∧ foldl (λ acc child, acc ≫= renderTreeNode fuel nodes child depth) (Some items) cs
        = Some (items ++ rendered)
      ∧ foldl (λ acc child, acc ≫= addNode fuel nodes child (join [SLASH] handle)) (Some zip) cs
        = Some (zip ++ filesOf made)
      ∧ Forall2 (shows nodes) made rendered.
Proof.
  intros Hnode Hk. pose proof shaped as (_ & _ & Hchild & _).
  induction cs as [ | c cs IH ]; intros st zip items Hsub.
  { exists st, [], []. simpl. rewrite !app_nil_r. by split_and!. }
  assert (c ∈ children n) as Hc by (apply Hsub, list_elem_of_here).
  destruct (Hchild k n c Hk Hc) as (nc & Hnc & _).
  destruct (Hnode c nc st zip items Hnc Hc) as (st1 & made1 & rendered1 & Hw1 & Hm1 & Hr1 & Hz1 & Hs1).
  destruct (IH st1 (zip ++ filesOf made1) (items ++ rendered1))
    as (st2 & made2 & rendered2 & Hw2 & Hm2 & Hr2 & Hz2 & Hs2).
  { intros x Hx. by apply Hsub, list_elem_of_further. }
  exists st2, (made1 ++ made2), (rendered1 ++ rendered2).
  cbn [forOf foldl]. rewrite Hw1. cbn [mbind option_bind]. rewrite Hr1, Hz1.
  split_and!.
  - done.
  - by rewrite Hm2, Hm1, app_assoc.
  - by rewrite Hr2, app_assoc.
  - rewrite Hz2. unfold filesOf. by rewrite filter_app, fmap_app, app_assoc.
  - by apply Forall2_app.
Qed.

Lemma node_agree fuel : ∀ k n handle st zip items,
  nodes !! k = Some n → k ≠ [] →
  segmentPathOf (join [SLASH] handle) (node_name n) = k → Forall (λ p, p ≠ []) handle →
  (bound ≤ fuel + length k)%nat →
  ∃ st' made rendered,
    writeNode nodes neverThrows reporting total fuel k handle st = Some (st', None)
    ∧ ws_created st' = ws_created st ++ made
    ∧ renderTreeNode fuel nodes k (length handle) items = Some (items ++ rendered)
    ∧ addNode fuel nodes k (join [SLASH] handle) zip = Some (zip ++ filesOf made)
    ∧ Forall2 (shows nodes) made rendered.
Proof.
  induction fuel as [ | fuel IH ]; intros k n handle st zip items Hk Hne Hpath Hhandle Hb.
  { apply bound_ok in Hk. lia. }
  pose proof shaped as (_ & Hpaths & Hchild & _).
  assert (join [SLASH] (handle ++ [node_name n]) = k) as Hjoin
    by (by rewrite <- join_snoc).
  assert (shows nodes (node_isDirectory n, handle ++ [node_name n]) (itemOf (length handle) n))
    as Hshows.
  { exists n. simpl. rewrite Hjoin, length_app. simpl.
    replace (length handle + 1 - 1)%nat with (length handle) by lia. done. }
  cbn [writeNode renderTreeNode addNode]. rewrite Hk, (Hpaths k n Hk).
  destruct k as [ | a k' ] eqn:Hkeq; [ done | ]. cbn [truthy negb]. rewrite <- Hkeq in *.
  unfold neverThrows at 1. cbn zeta. fold (segmentPathOf (join [SLASH] handle) (node_name n)).
  rewrite Hpath.
  destruct (node_isDirectory n) eqn:Hdir; cycle 1.
  { eexists _, [(false, handle ++ [node_name n])], [itemOf (length handle) n].
    cbn [andb]. split_and!; [ done | done | done | | by repeat constructor ].
    unfold filesOf. rewrite filter_cons_True by done. simpl. by rewrite Hjoin. }
  set (st2 := mkWrite _ _ _).
  destruct (children_agree fuel k n (handle ++ [node_name n]) (length handle + 1))
    with (cs := children n) (st := st2) (zip := zip)
         (items := items ++ [itemOf (length handle) n])
    as (st' & made & rendered & Hw & Hm & Hr & Hz & Hs); [ | done | done | ].
  { intros c nc st0 zip0 items0 Hnc Hc.
    destruct (Hchild k n c Hk Hc) as (nc' & Hnc' & Hname & Hceq).
    rewrite Hnc in Hnc'. injection Hnc' as <-.
    replace (length handle + 1)%nat with (length (handle ++ [node_name n]))
      by (rewrite length_app; simpl; lia).
    apply (IH c nc); [ done | | | | ].
    - rewrite Hceq. by apply segmentPathOf_nonempty.
    - by rewrite Hjoin.
    - apply Forall_app. split; [ done | ]. repeat constructor.
      by apply (node_name_nonempty nodes shaped k).
    - pose proof (child_length nodes shaped k n c Hk Hc). lia. }
  rewrite Hw. rewrite Hjoin in Hz.
  exists st', ((true, handle ++ [node_name n]) :: made), (itemOf (length handle) n :: rendered).
  split_and!.
  - done.
  - rewrite Hm. simpl. by rewrite <- app_assoc.
  - cbn [andb]. destruct (0 <? length (children n))%nat eqn:Hlen.
    + rewrite Hr. by rewrite <- app_assoc.
    + apply Nat.ltb_ge in Hlen. destruct (children n); [ | simpl in Hlen; lia ].
      simpl in Hr. injection Hr as Hr. rewrite Hr. by rewrite <- app_assoc.
  - rewrite Hz. unfold filesOf. by rewrite filter_cons_False.
  - by constructor.
Qed.
End Agree.

(** X23. The preview, the archive and the written folder agree. On the
    tree [buildTree] returns, and with a file system that never throws,
    [writeTreeToDirectory] creates one directory or file for each item
    [renderTreeNode] shows, in the same order: the item has the kind and
    the name of what is created, its depth is the number of handles above
    it, and its badges are the issues of the node. [generateZip] adds the
    files among them, in the same order. *)
Theorem preview_archive_folder localeCompare entries reporting :
  ∃ t items files st,
    buildTree localeCompare entries = Some t
    ∧ renderTree (enoughFuel t) t = Some items
    ∧ generateZip (enoughFuel t) t = Some files
    ∧ writeTreeToDirectory (enoughFuel t) neverThrows t reporting = Some (st, None)
    ∧ Forall2 (shows t) (ws_created st) items
    ∧ files = filesOf (ws_created st).
Proof.
  destruct (buildTree_treeShaped localeCompare entries) as (t & Ht & Hshaped & _).
  pose proof Hshaped as ((r & Hr & _) & Hpaths & Hchild & _).
  assert (∃ fuel, enoughFuel t = S fuel) as [fuel Hfuel].
  { pose proof (enoughFuel_bound t [] r Hr). destruct (enoughFuel t); [ lia | by eexists ]. }
  destruct (children_agree t Hshaped reporting (size t) fuel [] r [] 0)
    with (cs := children r) (st := mkWrite 0 [] []) (zip := @nil JSString)
         (items := @nil TreeItem)
    as (st & made & rendered & Hw & Hm & Hrender & Hz & Hs); [ | done | done | ].
  { intros c nc st0 zip0 items0 Hnc Hc.
    destruct (Hchild [] r c Hr Hc) as (nc' & Hnc' & Hname & Hceq).
    rewrite Hnc in Hnc'. injection Hnc' as <-.
    apply (node_agree t Hshaped reporting (size t) (enoughFuel t) (enoughFuel_bound t)
             fuel c nc [] st0 zip0 items0); [ done | | done | constructor | ].
    - rewrite Hceq. by apply segmentPathOf_nonempty.
    - pose proof (child_length t Hshaped [] r c Hr Hc). simpl in *. lia. }
  exists t, rendered, (filesOf made), st. simpl in Hm, Hrender, Hz.
  unfold renderTree, generateZip, writeTreeToDirectory.
  rewrite (countNodes_size t Hshaped). cbn [mbind option_bind]. rewrite Hfuel.
  cbn [writeNode renderTreeNode addNode]. rewrite Hr, (Hpaths [] r Hr). cbn [truthy negb].
  rewrite Hm. by split_and!.
Qed.

(** * Duplicate issues *)

Lemma countIssues_app types (l1 l2 : list PathIssue) :
  countIssues types (l1 ++ l2) = (countIssues types l1 + countIssues types l2)%nat.
Proof. unfold countIssues. by rewrite filter_app, length_app. Qed.

Lemma countIssues_none types (l : list PathIssue) :
  Forall (λ x, issue_type x ∉ types) l → countIssues types l = 0%nat.
Proof.
  intros Hl. unfold countIssues. rewrite filter_none; [ done | ].
  rewrite Forall_forall in Hl. intros x Hx. by apply Hl.
Qed.

Lemma countIssues_segments L segs :
  countIssues [duplicate] (concat (map (segmentIssue L) segs)) = 0%nat.
Proof.
  apply countIssues_none, Forall_forall. intros x Hx.
  apply list_elem_of_In, in_concat in Hx as (l & Hl & Hx).
  apply in_map_iff in Hl as (seg & <- & _).
  apply list_elem_of_In, segmentIssue_type in Hx.
  intros Hd%list_elem_of_singleton. destruct Hx as [ ? | [ ? | ? ] ]; congruence.
Qed.

(** A line that declares a path adds one duplicate issue when the path
    has been seen, and none otherwise; from then on the path is seen. *)
Lemma recordPath_duplicates st p d L :
  countIssues [duplicate] (st_issues (recordPath st p d L))
  = (countIssues [duplicate] (st_issues st)
     + match seenPaths st !! p with Some _ => 1 | None => 0 end)%nat
  ∧ ∀ q, is_Some (seenPaths (recordPath st p d L) !! q)
         ↔ q = p ∨ is_Some (seenPaths st !! q).
Proof.
  unfold recordPath. rewrite foldl_app_concat.
  pose proof (countIssues_segments L (split SLASH p)) as Hsegs.
  assert (∀ q (x : list nat) (m : gmap JSString (list nat)),
            is_Some (<[p := x]> m !! q) ↔ q = p ∨ is_Some (m !! q)) as Hdom.
  { intros q x m. rewrite lookup_insert_is_Some. split.
    - intros [ -> | [_ ?] ]; [ by left | by right ].
    - intros [ -> | ? ]; [ by left | ].
      destruct (decide (p = q)) as [ -> | ]; [ by left | by right ]. }
  destruct (MAX_DEPTH <? _), (seenPaths st !! p) as [ lines | ],
    (pathToEntry st !! p) as [ r | ], d;
    cbn beta iota zeta;
    repeat match goal with
           | |- context [if ?b then _ else _] => destruct b
           end;
    cbn [st_issues seenPaths app]; (split; [ | intros q; apply Hdom ]);
    rewrite ?countIssues_app, ?Hsegs; unfold countIssues; simpl; lia.
Qed.

Lemma processLine_duplicatesCounted lines k line st c st' c' :
  refsValid st → duplicatesCounted lines k st → lines !! k = Some line →
  processLine st line k c = Returned st' c' →
  duplicatesCounted lines (S k) st'.
Proof.
  intros [Hv _] [Hdom Hcount] Hline Hstep. unfold duplicatesCounted, declaring in *.
  rewrite (take_S_r _ _ _ Hline), filter_app, length_app, filter_cons, filter_nil.
  destruct (declares line) as [ [p d] | ] eqn:Hdecl.
  - rewrite decide_True by (by eexists).
    rewrite (processLine_declares _ _ _ _ _ _ Hdecl) in Hstep. simplify_eq.
    destruct (recordPath_duplicates st p d (k + 1)) as [Hdup Hseen].
    rewrite Hdup. destruct (pathToEntry st !! p) as [ r | ] eqn:Href.
    + destruct (Hv _ _ Href) as (e & He & Hpath).
      assert (is_Some (seenPaths st !! p)) as [ls Hls] by (apply Hdom; by eexists).
      rewrite Hls. split.
      * intros q. rewrite Hseen.
        destruct (recordPath_existing st p d (k + 1) r e Href He) as (own & seen & -> & _).
        simpl. rewrite <- Hdom. split; [ | by right ].
        intros [ -> | ? ]; [ by eexists | done ].
      * destruct (recordPath_existing st p d (k + 1) r e Href He) as (own & seen & -> & _).
        simpl. destruct (_ && _); rewrite ?length_insert; simpl; lia.
    + assert (seenPaths st !! p = None) as Hls.
      { destruct (seenPaths st !! p) eqn:Hs; [ | done ].
        assert (is_Some (pathToEntry st !! p)) as [? ?] by (apply Hdom; by eexists).
        congruence. }
      rewrite Hls. split.
      * intros q. rewrite Hseen.
        destruct (recordPath_fresh st p d (k + 1) Href) as (own & seen & -> & _).
        simpl. rewrite lookup_insert_is_Some, <- Hdom. split.
        -- intros [ -> | ? ]; [ by left | ].
           destruct (decide (p = q)) as [ -> | ]; [ by left | by right ].
        -- intros [ -> | [_ ?] ]; [ by left | by right ].
      * destruct (recordPath_fresh st p d (k + 1) Href) as (own & seen & -> & _).
        simpl. rewrite length_app. simpl. lia.
  - rewrite decide_False by (by intros [? ?]).
    destruct (processLine_other st line k c Hdecl)
      as (st1 & Hst1 & Hents & Hpte & Hseen & extra & Hextra & Hcases).
    rewrite Hst1 in Hstep. simplify_eq. rewrite Hents, Hpte, Hseen, Hextra. split; [ done | ].
    rewrite countIssues_app.
    assert (countIssues [duplicate] extra = 0%nat) as ->.
    { by destruct Hcases as [ -> | -> ]. }
    simpl. lia.
Qed.

(** X24. Every line that declares a path gives either an entry or one
    issue of type duplicate: the duplicate issues [processPaths] returns
    and its entries are together as many as the lines that declare a
    path. *)
Theorem processPaths_duplicates input :
  ∃ r c, run (processPaths input) = Returned r c
         ∧ (countIssues [duplicate] (issues r) + length (entries r))%nat
           = length (filter (λ l, is_Some (declares l)) (split NEWLINE input)).
Proof.
  destruct (processPaths_invariant
              (λ k s, refsValid s ∧ duplicatesCounted (split NEWLINE input) k s) input)
    as (r & c & st & Hr & Hents & Hissues & _ & _ & Hcount).
  - split; [ apply initialState_refsValid | ]. split; [ | ].
    + intros q. simpl. by rewrite !lookup_empty.
    + unfold declaring. simpl. rewrite Nat.add_0_r.
      by destruct (MAX_LINES <? _).
  - intros k line s s' d d' [Hv Hdup] Hline Hstep. split.
    + by eapply processLine_refsValid.
    + by eapply processLine_duplicatesCounted.
  - exists r, c. split; [ done | ]. rewrite Hents, Hissues, Hcount.
    unfold declaring. by rewrite firstn_all.
Qed.
